(** * VexCL stencil convolution: a shallow embedding of [vexcl/util.hpp] and
    [vexcl/stencil.hpp], and the properties of the convolution engine.

    Conventions of the embedding.
    - The numeric type [T] of the templates is instantiated at an exact
      integer type and modelled by [Z]; [if (alpha)] is [alpha <> 0].
    - [uint], [size_t] and [cl_ulong] values are [N] with the wrap-around of
      the C++ type written out; [int] values are [Z] with the two's
      complement wrap-around written out.
    - A [cl::Buffer], a partition of a [vex::vector] and a host array are
      [list Z]; indices computed by the kernels are [Z].  A read outside a
      buffer yields the unspecified value [junk], a write outside a buffer
      is dropped.
    - Local memory of a work-group is a function from addresses to values
      whose initial content is [junk] everywhere.
    - A kernel launch runs its work-items one after the other in increasing
      global id; a [barrier] splits a work-group's execution in phases, each
      phase run by every work-item of the group before the next begins.
    - The process-wide static maps are fields of an explicit state that the
      host functions thread; exceptions are the [None] result. *)

From Equations Require Import Equations.
From Equations.Prop Require Import Logic.
From stdpp Require Import gmap strings list fin_maps.
From Stdlib Require Import ZArith NArith Lia.

Local Open Scope Z_scope.

(** ** Machine integers *)

(** [unsigned int] *)
Definition uint (n : N) : N := (n mod 2 ^ 32)%N.

(** [size_t] and [cl_ulong], both 64 bits wide *)
Definition size_t (n : N) : N := (n mod 2 ^ 64)%N.

(** conversion of an unsigned value to [int] *)
Definition to_int (n : N) : Z := (Z.of_N n + 2 ^ 31) mod 2 ^ 32 - 2 ^ 31.

(** [a + b] in [int]: beyond the range of [int] the sum wraps around, as
    it does on the two's-complement machines the code runs on. *)
Definition add_int (a b : Z) : Z := (a + b + 2 ^ 31) mod 2 ^ 32 - 2 ^ 31.

(** [hbuf.resize(n)] on the empty vector [hbuf]; [n] is the value of the
    argument before its conversion to [size_t].  A negative value is
    converted to [2^64 + n], a request of more than [max_size()] elements
    for every queue list the [uint] loop counters can index, and [resize]
    throws [std::length_error]; otherwise the vector holds [n] zeros.
    Running out of memory is not modelled, here as for the device
    buffers. *)
Definition resize (n : Z) : option (list Z) :=
  if n <? 0 then None else Some (replicate (Z.to_nat n) 0).

(** unsigned subtraction in a 64-bit type *)
Definition sub64 (a b : N) : N :=
  Z.to_N ((Z.of_N a - Z.of_N b) mod 2 ^ 64).

(** unsigned subtraction in a 32-bit type *)
Definition sub32 (a b : N) : N :=
  Z.to_N ((Z.of_N a - Z.of_N b) mod 2 ^ 32).

(** ** util.hpp *)

(** [alignup]: align [n] to the next multiple of [m] (in [size_t]). *)
Definition alignup (n m : N) : N :=
  size_t (sub64 (size_t (n + m)) 1 / m * m)%N.

Inductive device_options_kind := compile_options | program_header.

(** The static member [device_options<kind>::options], one map per kind:
    a vector of strings per device id, the back of the vector on top. *)
Record options_state := {
  opt_compile : gmap nat (list string);
  opt_header : gmap nat (list string)
}.

Definition options_of (kind : device_options_kind) (o : options_state)
  : gmap nat (list string) :=
  match kind with
  | compile_options => opt_compile o
  | program_header => opt_header o
  end.

Definition set_options (kind : device_options_kind)
  (m : gmap nat (list string)) (o : options_state) : options_state :=
  match kind with
  | compile_options => {| opt_compile := m; opt_header := opt_header o |}
  | program_header => {| opt_compile := opt_compile o; opt_header := m |}
  end.

(** [options[dev()]]: [std::map::operator[]] reads the vector of the device,
    an absent key standing for the empty vector it creates. *)
Definition stack_of (kind : device_options_kind) (dev : nat)
  (o : options_state) : list string :=
  default [] (options_of kind o !! dev).

Module device_options.

(** [device_options<kind>::get] *)
Definition get (kind : device_options_kind) (dev : nat) (o : options_state)
  : string * options_state :=
  let v := stack_of kind dev o in
  let v' := match v with [] => v ++ [EmptyString] | _ => v end in
  (List.last v' EmptyString,
   set_options kind (<[dev := v']> (options_of kind o)) o).

(** [device_options<kind>::push] *)
Definition push (kind : device_options_kind) (dev : nat) (str : string)
  (o : options_state) : options_state :=
  set_options kind
    (<[dev := stack_of kind dev o ++ [str]]> (options_of kind o)) o.

(** [device_options<kind>::pop] *)
Definition pop (kind : device_options_kind) (dev : nat)
  (o : options_state) : options_state :=
  let v := stack_of kind dev o in
  let v' := match v with [] => v | _ => removelast v end in
  set_options kind (<[dev := v']> (options_of kind o)) o.

End device_options.

Definition get_compile_options := device_options.get compile_options.
Definition get_program_header := device_options.get program_header.
Definition push_compile_options := device_options.push compile_options.
Definition pop_compile_options := device_options.pop compile_options.
Definition push_program_header := device_options.push program_header.
Definition pop_program_header := device_options.pop program_header.

(** the newline character of the string literals *)
Definition nl : string := String (Ascii.ascii_of_nat 10) EmptyString.

(** [standard_kernel_header(dev)] *)
Definition fp64_pragmas : string :=
  String.concat nl
    ["#if defined(cl_khr_fp64)";
     "#  pragma OPENCL EXTENSION cl_khr_fp64: enable";
     "#elif defined(cl_amd_fp64)";
     "#  pragma OPENCL EXTENSION cl_amd_fp64: enable";
     "#endif"; EmptyString]%string.

Definition standard_kernel_header (dev : nat) (o : options_state)
  : string * options_state :=
  let '(h, o') := get_program_header dev o in
  ((fp64_pragmas ++ h)%string, o').

(** ** The OpenCL runtime as seen by the host code *)

Record Program := {
  p_context : nat;
  p_source : string;
  p_options : string
}.

(** [cl::Kernel(program, name)] *)
Record Kernel := {
  k_program : Program;
  k_name : string
}.

(** A [cl::CommandQueue] with what [getInfo] and [getWorkGroupInfo] report
    for its context and device. *)
Record CommandQueue := {
  q_context : nat;                        (* CL_QUEUE_CONTEXT *)
  q_device : nat;                         (* CL_QUEUE_DEVICE *)
  context_device0 : nat;                  (* CL_CONTEXT_DEVICES, element 0 *)
  local_mem_size : N;                     (* CL_DEVICE_LOCAL_MEM_SIZE *)
  kernel_work_group_size : Kernel -> N;   (* CL_KERNEL_WORK_GROUP_SIZE *)
  kernel_local_mem_size : Kernel -> N;    (* CL_KERNEL_LOCAL_MEM_SIZE *)
  build_ok : string -> string -> bool     (* does program.build succeed *)
}.

(** The template parameter [T]: its device-side name and [sizeof(T)]. *)
Record elem_type := {
  type_name : string;
  sizeof : N
}.

(** The key of a compiled variant: the context for [stencil<T>], the
    transform and the context for [gstencil<T>::exdata<func>]. *)
Inductive cache_key :=
| PlainKey (context : nat)
| GeneralKey (func : string) (context : nat).

(** The process-wide state: the build-configuration stacks, the static maps
    of [stencil<T>] and of [gstencil<T>::exdata<func>] (the latter keyed by
    the transform name and the context), and the record of every
    compilation that was carried out, the most recent first. *)
Record process_state := {
  ps_options : options_state;
  s_compiled : gmap nat bool;
  s_conv_local : gmap nat Kernel;
  s_conv_local_big : gmap nat Kernel;
  s_conv_remote : gmap nat Kernel;
  s_wgsize : gmap nat N;
  g_compiled : gmap (string * nat) bool;
  g_conv_local : gmap (string * nat) Kernel;
  g_conv_remote : gmap (string * nat) Kernel;
  g_wgsize : gmap (string * nat) N;
  compilations : list (cache_key * Program)
}.

Definition with_options (o : options_state) (st : process_state)
  : process_state :=
  {| ps_options := o;
     s_compiled := s_compiled st; s_conv_local := s_conv_local st;
     s_conv_local_big := s_conv_local_big st;
     s_conv_remote := s_conv_remote st; s_wgsize := s_wgsize st;
     g_compiled := g_compiled st; g_conv_local := g_conv_local st;
     g_conv_remote := g_conv_remote st; g_wgsize := g_wgsize st;
     compilations := compilations st |}.

(** [build_sources(context, source, options)]; the options default to the
    empty string.  A failing build rethrows. *)
Definition build_sources (q : CommandQueue) (source options : string)
  (st : process_state) : option (Program * process_state) :=
  let '(co, o) := get_compile_options (context_device0 q) (ps_options st) in
  let opts := (options ++ " " ++ co)%string in
  if build_ok q source opts
  then Some ({| p_context := q_context q; p_source := source;
                p_options := opts |}, with_options o st)
  else None.

(** The loop [while (wgsz > dev_wgsz) wgsz /= 2] of
    [kernel_workgroup_size]. *)
Equations? halve_until (dev_wgsz wgsz : N) : N by wf (N.to_nat wgsz) lt :=
  halve_until dev_wgsz wgsz with inspect (dev_wgsz <? wgsz)%N => {
    | exist _ true _ => halve_until dev_wgsz (wgsz / 2)%N
    | exist _ false _ => wgsz }.
Proof.
  apply N.ltb_lt in e.
  assert (wgsz / 2 < wgsz)%N by (apply N.div_lt; lia). lia.
Qed.

(** [kernel_workgroup_size(kernel, device)] *)
Definition kernel_workgroup_size (kernel : Kernel) (q : CommandQueue) : N :=
  uint (halve_until (uint (kernel_work_group_size q kernel)) 1024).

(** [type_name<size_t>()] for the 64-bit [size_t] of the embedding *)
Definition type_name_size_t : string := "ulong".

(** ** Device and host memory *)

Section Memory.

(** the value of an uninitialised or out-of-range location *)
Variable junk : Z.

(** [b[i]] *)
Definition rd (b : list Z) (i : Z) : Z :=
  if (0 <=? i) && (i <? Z.of_nat (length b))
  then nth (Z.to_nat i) b junk else junk.

(** [b[i] = v] *)
Definition wr (b : list Z) (i : Z) (v : Z) : list Z :=
  if (0 <=? i) && (i <? Z.of_nat (length b))
  then <[Z.to_nat i := v]> b else b.

(** [len] elements of [b] from offset [off] on, as a buffer read or write
    transfers them *)
Definition read_buffer (b : list Z) (off len : Z) : list Z :=
  map (rd b) (seqZ off len).

(** the transfer of [src] to [dst] from position [pos] on *)
Definition copy_in (dst : list Z) (pos : Z) (src : list Z) : list Z :=
  if 0 <=? pos then list_inserts (Z.to_nat pos) src dst else dst.

(** local memory: [m[i] = v] *)
Definition upd (m : Z -> Z) (i v : Z) : Z -> Z :=
  fun j => if j =? i then v else m j.

(** uninitialised local memory *)
Definition fresh_local : Z -> Z := fun _ => junk.

(** A launch over [g_size] work-items of a kernel without barrier. *)
Definition launch (kernel : Z -> list Z -> list Z) (g_size : Z)
  (y : list Z) : list Z :=
  fold_left (fun y g_id => kernel g_id y) (seqZ 0 g_size) y.

(** A launch over [g_size] work-items in groups of [block_size] of a
    kernel that stages local memory, passes a barrier and computes. *)
Definition run_group (stage : Z -> Z -> (Z -> Z) -> Z -> Z)
  (compute : Z -> Z -> (Z -> Z) -> list Z -> list Z)
  (block_size group : Z) (y : list Z) : list Z :=
  let loc_buf :=
    fold_left (fun m l_id => stage (group * block_size + l_id) l_id m)
      (seqZ 0 block_size) fresh_local in
  fold_left (fun y l_id => compute (group * block_size + l_id) l_id loc_buf y)
    (seqZ 0 block_size) y.

Definition launch_groups (stage : Z -> Z -> (Z -> Z) -> Z -> Z)
  (compute : Z -> Z -> (Z -> Z) -> list Z -> list Z)
  (g_size block_size : Z) (y : list Z) : list Z :=
  fold_left (fun y group => run_group stage compute block_size group y)
    (seqZ 0 (g_size / block_size)) y.

End Memory.

(** [x(d)] and [x.part_size(d)] of a [vex::vector] *)
Definition part (x : list (list Z)) (d : Z) : list Z :=
  nth (Z.to_nat d) x [].

Definition part_size (x : list (list Z)) (d : Z) : Z :=
  Z.of_nat (length (part x d)).

(** [if (alpha) y = alpha * y + beta * sum; else y = beta * sum;] *)
Definition blend (alpha beta y sum : Z) : Z :=
  if alpha =? 0 then beta * sum else alpha * y + beta * sum.

(** ** stencil.hpp: [stencil<T>] *)

Module Stencil.

Record t := {
  queue : list CommandQueue;
  hbuf : list Z;
  dbuf : list (list Z);
  s : list (list Z);
  lhalo : Z;
  rhalo : Z;
  fast_kernel : list bool;
  wgs : list N
}.

(** The text streamed after [standard_kernel_header], line by line. *)
Definition stencil_kernels (T : elem_type) : list string :=
    [("typedef " ++ type_name T ++ " real;");
     "kernel void conv_local(";
     ("    " ++ type_name_size_t ++ " n,");
     "    int lhalo,";
     "    int rhalo,";
     "    global const real *x,";
     "    global const real *s,";
     "    global real *y,";
     "    real alpha, real beta,";
     "    local real *loc_buf";
     "    )";
     "{";
     "    local real *stencil = loc_buf;";
     "    local real *xbuf    = loc_buf + lhalo + rhalo + 1 + lhalo;";
     "    size_t block_size = get_local_size(0);";
     "    long   g_id = get_global_id(0);";
     "    int    l_id = get_local_id(0);";
     "    if (l_id < lhalo + rhalo + 1)";
     "        stencil[l_id] = s[l_id];";
     "    stencil += lhalo;";
     "    if (g_id < n) {";
     "        xbuf[l_id] = x[g_id];";
     "        if (l_id < lhalo && g_id >= lhalo)";
     "            xbuf[l_id - lhalo] = x[g_id - lhalo];";
     "        if (l_id + rhalo < block_size || g_id + rhalo < n)";
     "            xbuf[l_id + rhalo] = x[g_id + rhalo];";
     "    }";
     "    barrier(CLK_LOCAL_MEM_FENCE);";
     "    if (g_id < n) {";
     "        real sum = 0;";
     "        for(int k = -lhalo; k <= rhalo; k++)";
     "            if (g_id + k >= 0 && g_id + k < n)";
     "                sum += stencil[k] * xbuf[l_id + k];";
     "        if (alpha)";
     "            y[g_id] = alpha * y[g_id] + beta * sum;";
     "        else";
     "            y[g_id] = beta * sum;";
     "    }";
     "}";
     "kernel void conv_local_big(";
     ("    " ++ type_name_size_t ++ " n,");
     "    int lhalo,";
     "    int rhalo,";
     "    global const real *x,";
     "    global const real *s,";
     "    global real *y,";
     "    real alpha, real beta";
     "    )";
     "{";
     "    long g_id = get_global_id(0);";
     "    s += lhalo;";
     "    if (g_id < n) {";
     "        real sum = 0;";
     "        for(int k = -lhalo; k <= rhalo; k++)";
     "            if (g_id + k >= 0 && g_id + k < n)";
     "                sum += s[k] * x[g_id + k];";
     "        if (alpha)";
     "            y[g_id] = alpha * y[g_id] + beta * sum;";
     "        else";
     "            y[g_id] = beta * sum;";
     "    }";
     "}";
     "kernel void conv_remote(";
     ("    " ++ type_name_size_t ++ " n,");
     "    char has_left,";
     "    char has_right,";
     "    int lhalo,";
     "    int rhalo,";
     "    global const real *x,";
     "    global const real *h,";
     "    global const real *s,";
     "    global real *y,";
     "    real beta";
     "    )";
     "{";
     "    long g_id = get_global_id(0);";
     "    global const real *xl = h + lhalo;";
     "    global const real *xr = h + lhalo;";
     "    s += lhalo;";
     "    if (g_id < lhalo) {";
     "        real sum = 0;";
     "        for(int k = -lhalo; k < 0; k++)";
     "            if (g_id + k < 0)";
     "                sum += s[k] * (has_left ? xl[g_id + k] : x[0]);";
     "        y[g_id] += beta * sum;";
     "    }";
     "    if (g_id < rhalo) {";
     "        real sum = 0;";
     "        for(int k = 1; k <= rhalo; k++)";
     "            if (g_id + k - rhalo >= 0)";
     "                sum += s[k] * (has_right ? xr[g_id + k - rhalo] : x[n - 1]);";
     "        y[n - rhalo + g_id] += beta * sum;";
     "    }";
     "}"]%string.

(** The generated source.  [standard_kernel_header] is a function of the
    device in util.hpp; the stream receives its name, not a call, and so
    prints the function pointer as the boolean [1]. *)
Definition source (T : elem_type) : string :=
  ("1" ++ String.concat nl (stencil_kernels T) ++ nl)%string.

Definition kernel (program : Program) (name : string) : Kernel :=
  {| k_program := program; k_name := name |}.

(** The block [if (!compiled[context()]) { ... }] of [init]. *)
Definition compile (T : elem_type) (q : CommandQueue) (st : process_state)
  : option process_state :=
  let context := q_context q in
  if default false (s_compiled st !! context) then Some st
  else
    '(program, st1) ← build_sources q (source T) EmptyString st;
    let cl := kernel program "conv_local" in
    let cb := kernel program "conv_local_big" in
    let cr := kernel program "conv_remote" in
    Some {|
      ps_options := ps_options st1;
      s_compiled := <[context := true]> (s_compiled st1);
      s_conv_local := <[context := cl]> (s_conv_local st1);
      s_conv_local_big := <[context := cb]> (s_conv_local_big st1);
      s_conv_remote := <[context := cr]> (s_conv_remote st1);
      s_wgsize :=
        <[context := N.min (N.min (kernel_workgroup_size cl q)
                                  (kernel_workgroup_size cr q))
                           (kernel_workgroup_size cb q)]> (s_wgsize st1);
      g_compiled := g_compiled st1; g_conv_local := g_conv_local st1;
      g_conv_remote := g_conv_remote st1; g_wgsize := g_wgsize st1;
      compilations := (PlainKey context, program) :: compilations st1
    |}.

(** The loop [while (wgs[d] >= data.size() &&
    wgs[d] + 2 * data.size() > smem) wgs[d] /= 2]. *)
Definition shrink_cond (size smem w : N) : bool :=
  ((size <=? w) && (smem <? size_t (w + size_t (2 * size))))%N.

Equations? shrink (size smem w : N) : N by wf (N.to_nat w) lt :=
  shrink size smem w with inspect (shrink_cond size smem w) => {
    | exist _ true _ => shrink size smem (w / 2)%N
    | exist _ false _ => w }.
Proof.
  unfold shrink_cond in e. apply andb_true_iff in e as [H1 H2].
  apply N.leb_le in H1. apply N.ltb_lt in H2.
  assert (w <> 0)%N.
  { intros ->. assert (size = 0)%N by lia. subst size.
    change (size_t (0 + size_t (2 * 0)))%N with 0%N in H2. lia. }
  assert (w / 2 < w)%N by (apply N.div_lt; lia). lia.
Qed.

(** Capacity planning for one device: [fast_kernel[d]] and [wgs[d]]. *)
Definition plan (size smem wgsize : N) : bool * N :=
  let w := shrink size smem wgsize in
  if (w <? size)%N then (false, wgsize) else (true, w).

(** [smem]: the local memory left by [conv_local], in elements. *)
Definition smem (T : elem_type) (q : CommandQueue) (conv_local : Kernel)
  : N :=
  uint (sub64 (local_mem_size q) (kernel_local_mem_size q conv_local)
        / sizeof T)%N.

(** The body of the loop over the devices in [init]. *)
Definition init_device (T : elem_type) (data : list Z) (q : CommandQueue)
  (st : process_state) : option (bool * N * process_state) :=
  st1 ← compile T q st;
  conv_local ← s_conv_local st1 !! q_context q;
  let wgsize := default 0%N (s_wgsize st1 !! q_context q) in
  Some (plan (N.of_nat (length data)) (smem T q conv_local) wgsize, st1).

Fixpoint init_devices (T : elem_type) (data : list Z)
  (queue : list CommandQueue) (st : process_state)
  : option (list bool * list N * process_state) :=
  match queue with
  | [] => Some ([], [], st)
  | q :: queue' =>
      '(fk, w, st1) ← init_device T data q st;
      '(fks, ws, st2) ← init_devices T data queue' st1;
      Some (fk :: fks, w :: ws, st2)
  end.

Section Kernels.

Variable junk : Z.

(** [stencil<T>::init]; [center] is the [uint] argument.  The three
    assertions abort, and [hbuf.resize] throws when the halo widths, which
    are [int], add up to a negative number. *)
Definition init (T : elem_type) (queue : list CommandQueue)
  (data : list Z) (center : N) (st : process_state)
  : option (t * process_state) :=
  let size := N.of_nat (length data) in
  if negb ((0 <? N.of_nat (length queue)) && (0 <? size)
           && (center <? size))%N
  then None
  else
    let lhalo := to_int center in
    let rhalo := to_int (sub64 (sub64 size center) 1) in
    '(fks, ws, st1) ← init_devices T data queue st;
    let halo := add_int lhalo rhalo in
    hbuf ← resize (Z.of_nat (length queue) * halo);
    Some ({| queue := queue;
             hbuf := hbuf;
             dbuf := map (fun _ => if 0 <? halo
                                   then replicate (Z.to_nat halo) junk
                                   else []) queue;
             s := map (fun _ => data) queue;
             lhalo := lhalo; rhalo := rhalo;
             fast_kernel := fks; wgs := ws |}, st1).

(** Kernel [conv_local], up to the barrier. *)
Definition conv_local_stage (n lhalo rhalo : Z) (x s : list Z)
  (block_size g_id l_id : Z) (loc_buf : Z -> Z) : Z -> Z :=
  let stencil := 0 in
  let xbuf := lhalo + rhalo + 1 + lhalo in
  let m1 := if l_id <? lhalo + rhalo + 1
            then upd loc_buf (stencil + l_id) (rd junk s l_id)
            else loc_buf in
  if g_id <? n then
    let m2 := upd m1 (xbuf + l_id) (rd junk x g_id) in
    let m3 := if (l_id <? lhalo) && (lhalo <=? g_id)
              then upd m2 (xbuf + (l_id - lhalo)) (rd junk x (g_id - lhalo))
              else m2 in
    if (l_id + rhalo <? block_size) || (g_id + rhalo <? n)
    then upd m3 (xbuf + (l_id + rhalo)) (rd junk x (g_id + rhalo))
    else m3
  else m1.

(** Kernel [conv_local], after the barrier. *)
Definition conv_local_compute (n lhalo rhalo alpha beta : Z)
  (g_id l_id : Z) (loc_buf : Z -> Z) (y : list Z) : list Z :=
  let stencil := 0 + lhalo in
  let xbuf := lhalo + rhalo + 1 + lhalo in
  if g_id <? n then
    let sum :=
      fold_left (fun sum k =>
                   if (0 <=? g_id + k) && (g_id + k <? n)
                   then sum + loc_buf (stencil + k) * loc_buf (xbuf + (l_id + k))
                   else sum)
        (seqZ (- lhalo) (rhalo + lhalo + 1)) 0 in
    wr y g_id (blend alpha beta (rd junk y g_id) sum)
  else y.

(** Kernel [conv_local_big]. *)
Definition conv_local_big (n lhalo rhalo : Z) (x s : list Z)
  (alpha beta : Z) (g_id : Z) (y : list Z) : list Z :=
  if g_id <? n then
    let sum :=
      fold_left (fun sum k =>
                   if (0 <=? g_id + k) && (g_id + k <? n)
                   then sum + rd junk s (lhalo + k) * rd junk x (g_id + k)
                   else sum)
        (seqZ (- lhalo) (rhalo + lhalo + 1)) 0 in
    wr y g_id (blend alpha beta (rd junk y g_id) sum)
  else y.

(** Kernel [conv_remote]; [h] is the halo buffer. *)
Definition conv_remote (n : Z) (has_left has_right : bool)
  (lhalo rhalo : Z) (x h s : list Z) (beta : Z) (g_id : Z) (y : list Z)
  : list Z :=
  let xl := lhalo in
  let xr := lhalo in
  let y1 :=
    if g_id <? lhalo then
      let sum :=
        fold_left (fun sum k =>
                     if g_id + k <? 0
                     then sum + rd junk s (lhalo + k)
                                * (if has_left then rd junk h (xl + (g_id + k))
                                   else rd junk x 0)
                     else sum)
          (seqZ (- lhalo) lhalo) 0 in
      wr y g_id (rd junk y g_id + beta * sum)
    else y in
  if g_id <? rhalo then
    let sum :=
      fold_left (fun sum k =>
                   if 0 <=? g_id + k - rhalo
                   then sum + rd junk s (lhalo + k)
                              * (if has_right
                                 then rd junk h (xr + (g_id + k - rhalo))
                                 else rd junk x (n - 1))
                   else sum)
        (seqZ 1 rhalo) 0 in
    wr y1 (n - rhalo + g_id) (rd junk y1 (n - rhalo + g_id) + beta * sum)
  else y1.

(** [convolve], "start reading halos": the [enqueueReadBuffer] calls for
    device [d], each with the position in the host staging buffer [hbuf] it
    targets and the fragment of [x(d)] it transfers. *)
Definition halo_reads (lhalo rhalo : Z) (nq : Z) (x : list (list Z)) (d : Z)
  : list (Z * list Z) :=
  (if (0 <? d) && (0 <? rhalo)
   then [(d * (rhalo + lhalo), read_buffer junk (part x d) 0 rhalo)]
   else [])
  ++ (if (d + 1 <? nq) && (0 <? lhalo)
      then [(d * (rhalo + lhalo) + rhalo,
             read_buffer junk (part x d) (part_size x d - lhalo) lhalo)]
      else []).

(** The staging buffer once the transfers of the devices have completed. *)
Definition read_halos (lhalo rhalo : Z) (nq : Z) (hbuf : list Z)
  (x : list (list Z)) : list Z :=
  if (1 <? nq) && (0 <? lhalo + rhalo) then
    fold_left
      (fun hb d =>
         fold_left (fun hb r => copy_in hb (fst r) (snd r))
           (halo_reads lhalo rhalo nq x d) hb)
      (seqZ 0 nq) hbuf
  else hbuf.

(** [convolve], the two [enqueueWriteBuffer] of device [d]: the
    fragments its halo buffer [dbuf[d]] receives from [hbuf]. *)
Definition write_halos (lhalo rhalo : Z) (nq : Z) (hbuf : list Z)
  (d : Z) (db : list Z) : list Z :=
  let db1 :=
    if (0 <? d) && (0 <? lhalo)
    then copy_in db 0
           (read_buffer junk hbuf ((d - 1) * (rhalo + lhalo) + rhalo) lhalo)
    else db in
  if (d + 1 <? nq) && (0 <? rhalo)
  then copy_in db1 lhalo
         (read_buffer junk hbuf ((d + 1) * (rhalo + lhalo)) rhalo)
  else db1.

(** [convolve], the interior launch on device [d]. *)
Definition apply_local (f : t) (x : list (list Z)) (alpha beta : Z)
  (d : Z) (yd : list Z) : list Z :=
  let n := part_size x d in
  let w := nth (Z.to_nat d) (wgs f) 0%N in
  let g_size := Z.of_N (alignup (Z.to_N n) w) in
  if nth (Z.to_nat d) (fast_kernel f) false
  then launch_groups junk
         (conv_local_stage n (lhalo f) (rhalo f) (part x d) (part (s f) d)
            (Z.of_N w))
         (conv_local_compute n (lhalo f) (rhalo f) alpha beta)
         g_size (Z.of_N w) yd
  else launch
         (conv_local_big n (lhalo f) (rhalo f) (part x d) (part (s f) d)
            alpha beta)
         g_size yd.

(** [convolve], the boundary launch on device [d]. *)
Definition apply_remote (f : t) (x : list (list Z)) (beta : Z)
  (d : Z) (db yd : list Z) : list Z :=
  let nq := Z.of_nat (length (queue f)) in
  launch
    (conv_remote (part_size x d) (0 <? d) (d + 1 <? nq)
       (lhalo f) (rhalo f) (part x d) db (part (s f) d) beta)
    (Z.max (lhalo f) (rhalo f)) yd.

(** [stencil<T>::convolve]: the filter with its mutable buffers after
    the call, and the output vector. *)
Definition convolve (f : t) (x y : list (list Z)) (alpha beta : Z)
  : t * list (list Z) :=
  let nq := Z.of_nat (length (queue f)) in
  let hb := read_halos (lhalo f) (rhalo f) nq (hbuf f) x in
  let y1 := map (fun d => apply_local f x alpha beta d (part y d))
              (seqZ 0 nq) in
  if 0 <? lhalo f + rhalo f then
    let db := map (fun d => write_halos (lhalo f) (rhalo f) nq hb d
                              (part (dbuf f) d)) (seqZ 0 nq) in
    let y2 := map (fun d => apply_remote f x beta d (part db d) (part y1 d))
                (seqZ 0 nq) in
    ({| queue := queue f; hbuf := hb; dbuf := db; s := s f;
        lhalo := lhalo f; rhalo := rhalo f;
        fast_kernel := fast_kernel f; wgs := wgs f |}, y2)
  else
    ({| queue := queue f; hbuf := hb; dbuf := dbuf f; s := s f;
        lhalo := lhalo f; rhalo := rhalo f;
        fast_kernel := fast_kernel f; wgs := wgs f |}, y1).

End Kernels.

End Stencil.

(** ** stencil.hpp: [gstencil<T>] *)

(** The transforms a generalized stencil is combined with: one type
    [name_name] per use of [OVERLOAD_BUILTIN_FOR_GSTENCIL]. *)
Inductive builtin :=
| acos_name | acosh_name | acospi_name | asin_name | asinh_name
| asinpi_name | atan_name | atanh_name | atanpi_name | cbrt_name
| ceil_name | cos_name | cosh_name | cospi_name | erfc_name | erf_name
| exp_name | exp2_name | exp10_name | expm1_name | fabs_name | floor_name
| ilogb_name | lgamma_name | log_name | log2_name | log10_name | log1p_name
| logb_name | nan_name | rint_name | rootn_name | round_name | rsqrt_name
| sin_name | sinh_name | sinpi_name | sqrt_name | tan_name | tanh_name
| tanpi_name | tgamma_name | trunc_name.

(** Modelled from the spec: the types [name_name] are declared outside the
    files at hand; [func::value()] is "the transform's device-side name",
    the name of the builtin the type stands for. *)
Definition value (func : builtin) : string :=
  match func with
  | acos_name => "acos" | acosh_name => "acosh" | acospi_name => "acospi"
  | asin_name => "asin" | asinh_name => "asinh" | asinpi_name => "asinpi"
  | atan_name => "atan" | atanh_name => "atanh" | atanpi_name => "atanpi"
  | cbrt_name => "cbrt" | ceil_name => "ceil" | cos_name => "cos"
  | cosh_name => "cosh" | cospi_name => "cospi" | erfc_name => "erfc"
  | erf_name => "erf" | exp_name => "exp" | exp2_name => "exp2"
  | exp10_name => "exp10" | expm1_name => "expm1" | fabs_name => "fabs"
  | floor_name => "floor" | ilogb_name => "ilogb" | lgamma_name => "lgamma"
  | log_name => "log" | log2_name => "log2" | log10_name => "log10"
  | log1p_name => "log1p" | logb_name => "logb" | nan_name => "nan"
  | rint_name => "rint" | rootn_name => "rootn" | round_name => "round"
  | rsqrt_name => "rsqrt" | sin_name => "sin" | sinh_name => "sinh"
  | sinpi_name => "sinpi" | sqrt_name => "sqrt" | tan_name => "tan"
  | tanh_name => "tanh" | tanpi_name => "tanpi" | tgamma_name => "tgamma"
  | trunc_name => "trunc"
  end.

(** [exdata<func>::wgsize[context()] + lhalo + rhalo + rows * cols], the
    number of elements of the local-memory argument [convolve] gives the
    generalized [conv_local]; the sum is formed in [unsigned int]. *)
Definition glocal_elems (wgsize : N) (lhalo rhalo : Z) (rows cols : N) : N :=
  Z.to_N ((Z.of_N wgsize + lhalo + rhalo + Z.of_N (uint (rows * cols)))
          mod 2 ^ 32).

Module GStencil.

Record t := {
  queue : list CommandQueue;
  hbuf : list Z;
  dbuf : list (list Z);
  S : list (list Z);
  lhalo : Z;
  rhalo : Z;
  rows : N;
  cols : N
}.

(** The text streamed after [standard_kernel_header], line by line;
    [func] is [func::value()]. *)
Definition gstencil_kernels (T : elem_type) (func : string) : list string :=
    [("typedef " ++ type_name T ++ " real;");
     "kernel void conv_local(";
     ("    " ++ type_name_size_t ++ " n,");
     "    uint rows, uint cols,";
     "    int lhalo, int rhalo,";
     "    global const real *x,";
     "    global const real *s,";
     "    global real *y,";
     "    real alpha, real beta,";
     "    local real *loc_buf";
     "    )";
     "{";
     "    local real *S = loc_buf;";
     "    local real *xbuf = loc_buf + rows * cols + lhalo;";
     "    size_t block_size = get_local_size(0);";
     "    long   g_id       = get_global_id(0);";
     "    int    l_id       = get_local_id(0);";
     "    if (l_id < rows * cols)";
     "        S[l_id] = s[l_id];";
     "    if (g_id < n) {";
     "        xbuf[l_id] = x[g_id];";
     "        if (l_id < lhalo && g_id >= lhalo)";
     "            xbuf[l_id - lhalo] = x[g_id - lhalo];";
     "        if (l_id + rhalo < block_size || g_id + rhalo < n)";
     "            xbuf[l_id + rhalo] = x[g_id + rhalo];";
     "    }";
     "    barrier(CLK_LOCAL_MEM_FENCE);";
     "    if (g_id >= lhalo && g_id + rhalo < n) {";
     "        real srow = 0;";
     "        for(int k = 0; k < rows; k++) {";
     "            real scol = 0;";
     "            for(int j = -lhalo; j <= rhalo; j++)";
     "                scol += S[lhalo + j + k * cols] * xbuf[l_id + j];";
     ("            srow += " ++ func ++ "(scol);");
     "        }";
     "        if (alpha)";
     "            y[g_id] = alpha * y[g_id] + beta * srow;";
     "        else";
     "            y[g_id] = beta * srow;";
     "    }";
     "}";
     "kernel void conv_remote(";
     ("    " ++ type_name_size_t ++ " n,");
     "    char has_left,";
     "    char has_right,";
     "    uint rows, uint cols,";
     "    int lhalo, int rhalo,";
     "    global const real *xloc,";
     "    global const real *xrem,";
     "    global const real *s,";
     "    global real *y,";
     "    real alpha, real beta,";
     "    local real *xbuf";
     "    )";
     "{";
     "    long g_id = get_global_id(0);";
     "    xbuf += lhalo;";
     "    xrem += lhalo;";
     "    if (g_id < lhalo) {";
     "        xbuf[g_id] = xloc[g_id];";
     "        xbuf[g_id + rhalo] = xloc[g_id + rhalo];";
     "        xbuf[g_id - lhalo] = has_left ? xrem[g_id - lhalo] : xloc[0];";
     "    }";
     "    barrier(CLK_LOCAL_MEM_FENCE);";
     "    if (g_id < lhalo) {";
     "        real srow = 0;";
     "        for(int k = 0; k < rows; k++) {";
     "            real scol = 0;";
     "            for(int j = -lhalo; j <= rhalo; j++)";
     "                scol += s[lhalo + j + k * cols] * xbuf[g_id + j];";
     ("            srow += " ++ func ++ "(scol);");
     "        }";
     "        if (alpha)";
     "            y[g_id] = alpha * y[g_id] + beta * srow;";
     "        else";
     "            y[g_id] = beta * srow;";
     "    }";
     "    barrier(CLK_LOCAL_MEM_FENCE);";
     "    if (g_id < rhalo) {";
     "        xbuf[g_id] = xloc[n - rhalo + g_id];";
     "        xbuf[g_id - lhalo] = xloc[n - rhalo + g_id - lhalo];";
     "        xbuf[g_id + rhalo] = has_right ? xrem[g_id] : xloc[n - 1];";
     "    }";
     "    barrier(CLK_LOCAL_MEM_FENCE);";
     "    if (g_id < rhalo) {";
     "        real srow = 0;";
     "        for(int k = 0; k < rows; k++) {";
     "            real scol = 0;";
     "            for(int j = -lhalo; j <= rhalo; j++)";
     "                scol += s[lhalo + j + k * cols] * xbuf[g_id + j];";
     "            srow += sin(scol);";
     "        }";
     "        if (alpha)";
     "            y[n - rhalo + g_id] = alpha * y[n - rhalo + g_id] + beta * srow;";
     "        else";
     "            y[n - rhalo + g_id] = beta * srow;";
     "    }";
     "}"]%string.

Definition source (T : elem_type) (func : builtin) : string :=
  ("1" ++ String.concat nl (gstencil_kernels T (value func)) ++ nl)%string.

(** The block [if (!exdata<func>::compiled[context()]) { ... }] of
    [convolve]. *)
Definition compile (T : elem_type) (func : builtin) (q : CommandQueue)
  (st : process_state) : option process_state :=
  let key := (value func, q_context q) in
  if default false (g_compiled st !! key) then Some st
  else
    '(program, st1) ← build_sources q (source T func) EmptyString st;
    let cl := Stencil.kernel program "conv_local" in
    let cr := Stencil.kernel program "conv_remote" in
    Some {|
      ps_options := ps_options st1;
      s_compiled := s_compiled st1; s_conv_local := s_conv_local st1;
      s_conv_local_big := s_conv_local_big st1;
      s_conv_remote := s_conv_remote st1; s_wgsize := s_wgsize st1;
      g_compiled := <[key := true]> (g_compiled st1);
      g_conv_local := <[key := cl]> (g_conv_local st1);
      g_conv_remote := <[key := cr]> (g_conv_remote st1);
      g_wgsize := <[key := N.min (kernel_workgroup_size cl q)
                                 (kernel_workgroup_size cr q)]> (g_wgsize st1);
      compilations :=
        (GeneralKey (value func) (q_context q), program) :: compilations st1
    |}.

(** The first loop of [convolve]: every device of the queue in turn. *)
Fixpoint compile_all (T : elem_type) (func : builtin)
  (queue : list CommandQueue) (st : process_state) : option process_state :=
  match queue with
  | [] => Some st
  | q :: queue' => st1 ← compile T func q st; compile_all T func queue' st1
  end.

(** [gstencil<T>::init]; [rows], [cols] and [center] are [uint].  The
    three assertions abort, and [hbuf.resize] throws when the halo widths,
    which are [int], add up to a negative number and there is a queue. *)
Definition init (junk : Z) (queue : list CommandQueue) (rows cols : N)
  (center : N) (data : list Z) : option t :=
  if negb ((0 <? rows) && (0 <? cols)
           && (uint (rows * cols) =? N.of_nat (length data))
           && (center <? cols))%N
  then None
  else
    let lhalo := to_int center in
    let rhalo := to_int (sub32 (sub32 cols center) 1) in
    let halo := add_int lhalo rhalo in
    hbuf ← resize (Z.of_nat (length queue) * halo);
    Some {| queue := queue;
            hbuf := hbuf;
            dbuf := map (fun _ => if 0 <? halo
                                  then replicate (Z.to_nat halo) junk
                                  else []) queue;
            S := map (fun _ => data) queue;
            lhalo := lhalo; rhalo := rhalo; rows := rows; cols := cols |}.

Section Kernels.

Variable junk : Z.

(** what the device computes for a builtin, by its name in the kernel
    source *)
Variable call : string -> Z -> Z.

(** The loop nest over the rows and the columns of the matrix [S]:
    [srow] after the loop over [k]; [fname] is the name of the function
    applied to [scol]. *)
Definition rows_sum (fname : string) (rows cols lhalo rhalo : Z)
  (S : Z -> Z) (xbuf : Z -> Z) (id : Z) : Z :=
  fold_left
    (fun srow k =>
       let scol :=
         fold_left (fun scol j =>
                      scol + S (lhalo + j + k * cols) * xbuf (id + j))
           (seqZ (- lhalo) (rhalo + lhalo + 1)) 0 in
       srow + call fname scol)
    (seqZ 0 rows) 0.

(** Kernel [conv_local], up to the barrier. *)
Definition conv_local_stage (n rows cols lhalo rhalo : Z) (x s : list Z)
  (block_size g_id l_id : Z) (loc_buf : Z -> Z) : Z -> Z :=
  let S := 0 in
  let xbuf := rows * cols + lhalo in
  let m1 := if l_id <? rows * cols
            then upd loc_buf (S + l_id) (rd junk s l_id)
            else loc_buf in
  if g_id <? n then
    let m2 := upd m1 (xbuf + l_id) (rd junk x g_id) in
    let m3 := if (l_id <? lhalo) && (lhalo <=? g_id)
              then upd m2 (xbuf + (l_id - lhalo)) (rd junk x (g_id - lhalo))
              else m2 in
    if (l_id + rhalo <? block_size) || (g_id + rhalo <? n)
    then upd m3 (xbuf + (l_id + rhalo)) (rd junk x (g_id + rhalo))
    else m3
  else m1.

(** Kernel [conv_local], after the barrier. *)
Definition conv_local_compute (func : builtin)
  (n rows cols lhalo rhalo alpha beta : Z)
  (g_id l_id : Z) (loc_buf : Z -> Z) (y : list Z) : list Z :=
  let S := 0 in
  let xbuf := rows * cols + lhalo in
  if (lhalo <=? g_id) && (g_id + rhalo <? n) then
    let srow :=
      rows_sum (value func) rows cols lhalo rhalo
        (fun i => loc_buf (S + i)) (fun i => loc_buf (xbuf + i)) l_id in
    wr y g_id (blend alpha beta (rd junk y g_id) srow)
  else y.

(** Kernel [conv_remote], first stage: the left edge is staged. *)
Definition conv_remote_stage_left (has_left : bool) (lhalo rhalo : Z)
  (xloc xrem : list Z) (g_id : Z) (loc : Z -> Z) : Z -> Z :=
  let xbuf := lhalo in
  let xrem_ := lhalo in
  if g_id <? lhalo then
    let m1 := upd loc (xbuf + g_id) (rd junk xloc g_id) in
    let m2 := upd m1 (xbuf + (g_id + rhalo)) (rd junk xloc (g_id + rhalo)) in
    upd m2 (xbuf + (g_id - lhalo))
      (if has_left then rd junk xrem (xrem_ + (g_id - lhalo))
       else rd junk xloc 0)
  else loc.

(** Kernel [conv_remote], second stage: the left edge is computed. *)
Definition conv_remote_left (func : builtin)
  (rows cols lhalo rhalo : Z) (s : list Z) (alpha beta : Z)
  (g_id : Z) (loc : Z -> Z) (y : list Z) : list Z :=
  let xbuf := lhalo in
  if g_id <? lhalo then
    let srow :=
      rows_sum (value func) rows cols lhalo rhalo
        (rd junk s) (fun i => loc (xbuf + i)) g_id in
    wr y g_id (blend alpha beta (rd junk y g_id) srow)
  else y.

(** Kernel [conv_remote], third stage: the right edge is staged. *)
Definition conv_remote_stage_right (n : Z) (has_right : bool)
  (lhalo rhalo : Z) (xloc xrem : list Z) (g_id : Z) (loc : Z -> Z)
  : Z -> Z :=
  let xbuf := lhalo in
  let xrem_ := lhalo in
  if g_id <? rhalo then
    let m1 := upd loc (xbuf + g_id) (rd junk xloc (n - rhalo + g_id)) in
    let m2 := upd m1 (xbuf + (g_id - lhalo))
                (rd junk xloc (n - rhalo + g_id - lhalo)) in
    upd m2 (xbuf + (g_id + rhalo))
      (if has_right then rd junk xrem (xrem_ + g_id)
       else rd junk xloc (n - 1))
  else loc.

(** Kernel [conv_remote], fourth stage: the right edge is computed; the
    source applies [sin] here. *)
Definition conv_remote_right (n rows cols lhalo rhalo : Z) (s : list Z)
  (alpha beta : Z) (g_id : Z) (loc : Z -> Z) (y : list Z) : list Z :=
  let xbuf := lhalo in
  if g_id <? rhalo then
    let srow :=
      rows_sum "sin" rows cols lhalo rhalo
        (rd junk s) (fun i => loc (xbuf + i)) g_id in
    wr y (n - rhalo + g_id)
      (blend alpha beta (rd junk y (n - rhalo + g_id)) srow)
  else y.

(** A launch of [conv_remote] over [g_size] work-items: the four stages, a
    barrier between any two.  The source leaves the work-group size to the
    runtime ([cl::NullRange]); the work-items are taken to form one
    work-group, as they do while [g_size = max(lhalo, rhalo)] is within the
    work-group limit of the device. *)
Definition launch_remote (func : builtin) (n : Z)
  (has_left has_right : bool) (rows cols lhalo rhalo : Z)
  (xloc xrem s : list Z) (alpha beta : Z) (g_size : Z) (y : list Z)
  : list Z :=
  let ids := seqZ 0 g_size in
  let loc1 :=
    fold_left (fun m g_id =>
                 conv_remote_stage_left has_left lhalo rhalo xloc xrem g_id m)
      ids (fresh_local junk) in
  let y1 :=
    fold_left (fun y g_id =>
                 conv_remote_left func rows cols lhalo rhalo s alpha beta
                   g_id loc1 y)
      ids y in
  let loc2 :=
    fold_left (fun m g_id =>
                 conv_remote_stage_right n has_right lhalo rhalo xloc xrem
                   g_id m)
      ids loc1 in
  fold_left (fun y g_id =>
               conv_remote_right n rows cols lhalo rhalo s alpha beta
                 g_id loc2 y)
    ids y1.

(** [convolve], "apply local kernel" on device [d]; the assertion on
    the local memory size aborts. *)
Definition apply_local (T : elem_type) (func : builtin) (f : t)
  (st : process_state) (x : list (list Z)) (alpha beta : Z)
  (d : Z) (yd : list Z) : option (list Z) :=
  q ← queue f !! Z.to_nat d;
  let key := (value func, q_context q) in
  let wgsize := default 0%N (g_wgsize st !! key) in
  conv_local ← g_conv_local st !! key;
  let n := part_size x d in
  let g_size := Z.of_N (alignup (Z.to_N n) wgsize) in
  let l_mem_size :=
    size_t (sizeof T
            * glocal_elems wgsize (lhalo f) (rhalo f) (rows f) (cols f)) in
  if (sub64 (local_mem_size q) (kernel_local_mem_size q conv_local)
      <? l_mem_size)%N
  then None
  else
    Some (launch_groups junk
            (conv_local_stage n (Z.of_N (rows f)) (Z.of_N (cols f))
               (lhalo f) (rhalo f) (part x d) (part (S f) d)
               (Z.of_N wgsize))
            (conv_local_compute func n (Z.of_N (rows f)) (Z.of_N (cols f))
               (lhalo f) (rhalo f) alpha beta)
            g_size (Z.of_N wgsize) yd).

(** [convolve], "apply remote kernel" on device [d]. *)
Definition apply_remote (func : builtin) (f : t) (x : list (list Z))
  (alpha beta : Z) (d : Z) (db yd : list Z) : list Z :=
  let nq := Z.of_nat (length (queue f)) in
  launch_remote func (part_size x d) (0 <? d) (d + 1 <? nq)
    (Z.of_N (rows f)) (Z.of_N (cols f)) (lhalo f) (rhalo f)
    (part x d) db (part (S f) d) alpha beta
    (Z.max (lhalo f) (rhalo f)) yd.

(** [gstencil<T>::convolve<func>] *)
Definition convolve (T : elem_type) (func : builtin) (f : t)
  (x y : list (list Z)) (alpha beta : Z) (st : process_state)
  : option (t * list (list Z) * process_state) :=
  st1 ← compile_all T func (queue f) st;
  let nq := Z.of_nat (length (queue f)) in
  let hb := Stencil.read_halos junk (lhalo f) (rhalo f) nq (hbuf f) x in
  y1 ← mapM (fun d => apply_local T func f st1 x alpha beta d (part y d))
         (seqZ 0 nq);
  if 0 <? lhalo f + rhalo f then
    let db := map (fun d => Stencil.write_halos junk (lhalo f) (rhalo f)
                              nq hb d (part (dbuf f) d)) (seqZ 0 nq) in
    let y2 := map (fun d => apply_remote func f x alpha beta d
                              (part db d) (part y1 d)) (seqZ 0 nq) in
    Some ({| queue := queue f; hbuf := hb; dbuf := db; S := S f;
             lhalo := lhalo f; rhalo := rhalo f;
             rows := rows f; cols := cols f |}, y2, st1)
  else
    Some ({| queue := queue f; hbuf := hb; dbuf := dbuf f; S := S f;
             lhalo := lhalo f; rhalo := rhalo f;
             rows := rows f; cols := cols f |}, y1, st1).

End Kernels.

End GStencil.

(** ** Calls of a process *)

(** The state of a process that has not compiled or configured anything. *)
Definition initial_state : process_state :=
  {| ps_options := {| opt_compile := ∅; opt_header := ∅ |};
     s_compiled := ∅; s_conv_local := ∅; s_conv_local_big := ∅;
     s_conv_remote := ∅; s_wgsize := ∅;
     g_compiled := ∅; g_conv_local := ∅; g_conv_remote := ∅; g_wgsize := ∅;
     compilations := [] |}.

(** The calls by which the host code reaches the compilation service, for
    one numeric type [T]. *)
Inductive call :=
| StencilInit (queue : list CommandQueue) (data : list Z) (center : N)
| GStencilConvolve (func : builtin) (f : GStencil.t) (x y : list (list Z))
    (alpha beta : Z)
| PushCompileOptions (dev : nat) (str : string)
| PopCompileOptions (dev : nat)
| PushProgramHeader (dev : nat) (str : string)
| PopProgramHeader (dev : nat).

Section Calls.

Variable junk : Z.
Variable builtin_call : string -> Z -> Z.
Variable T : elem_type.

Definition run_call (c : call) (st : process_state) : option process_state :=
  match c with
  | StencilInit queue data center =>
      snd <$> Stencil.init junk T queue data center st
  | GStencilConvolve func f x y alpha beta =>
      snd <$> GStencil.convolve junk builtin_call T func f x y alpha beta st
  | PushCompileOptions dev str =>
      Some (with_options (push_compile_options dev str (ps_options st)) st)
  | PopCompileOptions dev =>
      Some (with_options (pop_compile_options dev (ps_options st)) st)
  | PushProgramHeader dev str =>
      Some (with_options (push_program_header dev str (ps_options st)) st)
  | PopProgramHeader dev =>
      Some (with_options (pop_program_header dev (ps_options st)) st)
  end.

Fixpoint run_calls (cs : list call) (st : process_state)
  : option process_state :=
  match cs with
  | [] => Some st
  | c :: cs' => st1 ← run_call c st; run_calls cs' st1
  end.

End Calls.

Definition cache_key_eqb (a b : cache_key) : bool :=
  match a, b with
  | PlainKey c1, PlainKey c2 => Nat.eqb c1 c2
  | GeneralKey f1 c1, GeneralKey f2 c2 => String.eqb f1 f2 && Nat.eqb c1 c2
  | _, _ => false
  end.

(** The compilation counter of a cache key. *)
Definition compile_count (key : cache_key)
  (log : list (cache_key * Program)) : nat :=
  length (filter (fun e => cache_key_eqb key (fst e) = true) log).

(** The cache keys a call looks up. *)
Definition keys_of_call (c : call) : list cache_key :=
  match c with
  | StencilInit queue _ _ => map (fun q => PlainKey (q_context q)) queue
  | GStencilConvolve func f _ _ _ _ =>
      map (fun q => GeneralKey (value func) (q_context q)) (GStencil.queue f)
  | _ => []
  end.

(** Is the entry of a cache key populated. *)
Definition is_compiled (key : cache_key) (st : process_state) : bool :=
  match key with
  | PlainKey c => default false (s_compiled st !! c)
  | GeneralKey f c => default false (g_compiled st !! (f, c))
  end.

(** ** Reference: the clamped convolution *)

(** Modelled from the spec: [X[clamp(i)]], the element at [i], the nearest
    one if [i] is outside. *)
Definition clamped (X : list Z) (i : Z) : Z :=
  nth (Z.to_nat (Z.max 0 (Z.min i (Z.of_nat (length X) - 1)))) X 0.

(** Modelled from the spec: the sum of the weights times the clamped window
    around [i]. *)
Definition conv_ref (weights : list Z) (center : Z) (X : list Z) (i : Z) : Z :=
  fold_left (fun sum k => sum + nth (Z.to_nat (center + k)) weights 0
                                * clamped X (i + k))
    (seqZ (- center) (Z.of_nat (length weights))) 0.

(** ** Sample devices and filters *)

(** A queue on context [ctx] and device [dev] whose runtime reports the
    work-group size [wg] for every kernel, 32 KiB of local memory of which
    the kernels use none, and builds every program. *)
Definition sample_queue (ctx dev : nat) (wg : N) : CommandQueue :=
  {| q_context := ctx; q_device := dev; context_device0 := dev;
     local_mem_size := 32768;
     kernel_work_group_size := fun _ => wg;
     kernel_local_mem_size := fun _ => 0%N;
     build_ok := fun _ _ => true |}.

(** A 64-bit integer element type. *)
Definition cl_long : elem_type := {| type_name := "long"; sizeof := 8 |}.

(** The cached variant of a key: its kernels and its work-group size. *)
Definition cache_entry (key : cache_key) (st : process_state)
  : list (option Kernel) * option N :=
  match key with
  | PlainKey c =>
      ([s_conv_local st !! c; s_conv_local_big st !! c; s_conv_remote st !! c],
       s_wgsize st !! c)
  | GeneralKey f c =>
      ([g_conv_local st !! (f, c); g_conv_remote st !! (f, c)],
       g_wgsize st !! (f, c))
  end.

(** The keys the calls of a history looked up. *)
Definition keys_of_calls (cs : list call) : list cache_key :=
  concat (map keys_of_call cs).

Definition requested (key : cache_key) (keys : list cache_key) : bool :=
  existsb (cache_key_eqb key) keys.

(** The compilation counter agrees with the cache: one compilation for a
    populated key, none for any other. *)
Definition counted (st : process_state) : Prop :=
  forall key,
    compile_count key (compilations st)
    = if is_compiled key st then 1%nat else 0%nat.

(** What a call that looks up [keys] may change in the cache: it populates
    these keys and leaves every populated entry and its counter alone. *)
Definition extends (keys : list cache_key) (st st' : process_state) : Prop :=
  forall key,
    is_compiled key st' = is_compiled key st || requested key keys
    /\ (is_compiled key st = true ->
        cache_entry key st' = cache_entry key st
        /\ compile_count key (compilations st')
           = compile_count key (compilations st)).

(** The generalized filter of the matrix [(1 1)], centred at column 0, on
    one sample device. *)
Definition sample_gstencil : GStencil.t :=
  {| GStencil.queue := [sample_queue 0 0 256];
     GStencil.hbuf := [0];
     GStencil.dbuf := [[0]];
     GStencil.S := [[1; 1]];
     GStencil.lhalo := 0;
     GStencil.rhalo := 1;
     GStencil.rows := 1;
     GStencil.cols := 2 |}.

(** A history: two plain filters are constructed on the same context, then
    the generalized filter is applied twice with [cos] and once with [sin]. *)
Definition sample_history : list call :=
  [StencilInit [sample_queue 0 0 256] [1; -2; 1] 1;
   StencilInit [sample_queue 0 0 256] [1; 1; 1] 2;
   GStencilConvolve cos_name sample_gstencil [[1; 2]] [[0; 0]] 0 1;
   GStencilConvolve cos_name sample_gstencil [[3; 4]] [[0; 0]] 0 1;
   GStencilConvolve sin_name sample_gstencil [[3; 4]] [[0; 0]] 0 1].

(** ** The halo exchange in the words of the specification *)





(** A filter is constructed in the state [st] and applied once: the output
    vector. *)
Definition construct_and_convolve (junk : Z) (T : elem_type)
  (queue : list CommandQueue) (data : list Z) (center : N)
  (st : process_state) (x y : list (list Z)) (alpha beta : Z)
  : option (list (list Z)) :=
  r ← Stencil.init junk T queue data center st;
  Some (snd (Stencil.convolve junk (fst r) x y alpha beta)).

(** ** Sums and windows, as the proofs read the kernels *)

(** The sum of [f] over a list of indices, accumulated from the left. *)
Definition Zsum (f : Z -> Z) (l : list Z) : Z :=
  fold_left (fun acc k => acc + f k) l 0.

(** The window of the stencil around work-item [g_id]: [-lhalo .. rhalo]. *)
Definition window (lhalo rhalo : Z) : list Z :=
  seqZ (- lhalo) (rhalo + lhalo + 1).

(** What the interior kernels add up for [g_id] from the weights [s] and a
    source [src] of the taps inside the partition. *)
Definition interior_sum (n lhalo rhalo : Z) (s src : Z -> Z) (g_id : Z) : Z :=
  Zsum (fun k => if (0 <=? g_id + k) && (g_id + k <? n)
                 then s (lhalo + k) * src (g_id + k) else 0)
    (window lhalo rhalo).

(** What [conv_remote] adds up for the left edge at [g_id] and for the right
    edge at [n - rhalo + g_id]; [left] and [right] give the taps before and
    after the partition. *)
Definition left_sum (lhalo : Z) (s left : Z -> Z) (g_id : Z) : Z :=
  Zsum (fun k => if g_id + k <? 0 then s (lhalo + k) * left (g_id + k) else 0)
    (seqZ (- lhalo) lhalo).

Definition right_sum (lhalo rhalo : Z) (s right : Z -> Z) (g_id : Z) : Z :=
  Zsum (fun k => if 0 <=? g_id + k - rhalo
                 then s (lhalo + k) * right (g_id + k - rhalo) else 0)
    (seqZ 1 rhalo).


(** What a launch of [conv_remote] over [g_size] work-items adds up for the
    element at [i]: the left-edge sum of work-item [i] and the right-edge
    sum of work-item [i - (n - rhalo)], where these work-items exist. *)
Definition remote_total (n lhalo rhalo g_size : Z) (lsum rsum : Z -> Z)
  (i : Z) : Z :=
  (if (0 <=? i) && (i <? lhalo) && (i <? g_size) then lsum i else 0)
  + (if (0 <=? i - (n - rhalo)) && (i - (n - rhalo) <? rhalo)
        && (i - (n - rhalo) <? g_size)
     then rsum (i - (n - rhalo)) else 0).

(** The taps [conv_remote] reads before and after the partition: the halo
    buffer [h] if there is a neighbour, the nearest owned element if not. *)
Definition left_tap (junk : Z) (has_left : bool) (lhalo : Z) (x h : list Z)
  (p : Z) : Z :=
  if has_left then rd junk h (lhalo + p) else rd junk x 0.

Definition right_tap (junk : Z) (has_right : bool) (n lhalo : Z)
  (x h : list Z) (q : Z) : Z :=
  if has_right then rd junk h (lhalo + q) else rd junk x (n - 1).


(** The local memory of work-group [group] when it reaches the barrier. *)
Definition staged_local (junk : Z) (stage : Z -> Z -> (Z -> Z) -> Z -> Z)
  (block_size group : Z) : Z -> Z :=
  fold_left (fun m l_id => stage (group * block_size + l_id) l_id m)
    (seqZ 0 block_size) (fresh_local junk).


(** ** What [convolve] adds up for an element *)

(** A filter whose work-group sizes are those of a device: one per queue,
    positive, within [uint]. *)
Definition wf_wgs (f : Stencil.t) : Prop :=
  length (Stencil.wgs f) = length (Stencil.queue f)
  /\ Forall (fun w => (1 <= w < 2 ^ 32)%N) (Stencil.wgs f).

(** The vectors [x] and [y] are partitioned over the queues of the filter in
    the same way, in partitions whose sizes are far inside [size_t]. *)
Definition same_partitioning (f : Stencil.t) (x y : list (list Z)) : Prop :=
  length x = length (Stencil.queue f)
  /\ length y = length (Stencil.queue f)
  /\ forall d, length (part y d) = length (part x d)
               /\ part_size x d < 2 ^ 62.

(** The halo buffer of device [d] when [conv_remote] is launched. *)
Definition halo_of (junk : Z) (f : Stencil.t) (x : list (list Z)) (d : Z)
  : list Z :=
  let nq := Z.of_nat (length (Stencil.queue f)) in
  Stencil.write_halos junk (Stencil.lhalo f) (Stencil.rhalo f) nq
    (Stencil.read_halos junk (Stencil.lhalo f) (Stencil.rhalo f) nq
       (Stencil.hbuf f) x)
    d (part (Stencil.dbuf f) d).

(** The sum the interior kernel selected for device [d] forms for the
    element at [i]. *)
Definition local_term (junk : Z) (f : Stencil.t) (x : list (list Z))
  (d i : Z) : Z :=
  let n := part_size x d in
  let lh := Stencil.lhalo f in
  let rh := Stencil.rhalo f in
  let w := Z.of_N (nth (Z.to_nat d) (Stencil.wgs f) 0%N) in
  if nth (Z.to_nat d) (Stencil.fast_kernel f) false then
    let loc :=
      staged_local junk
        (Stencil.conv_local_stage junk n lh rh (part x d)
           (part (Stencil.s f) d) w) w (i / w) in
    interior_sum n lh rh loc
      (fun p => loc (lh + rh + 1 + lh + (p - (i - i mod w)))) i
  else
    interior_sum n lh rh (rd junk (part (Stencil.s f) d))
      (rd junk (part x d)) i.

(** The sums the boundary kernel adds for the element at [i] of device
    [d]. *)
Definition remote_term (junk : Z) (f : Stencil.t) (x : list (list Z))
  (d i : Z) : Z :=
  let n := part_size x d in
  let lh := Stencil.lhalo f in
  let rh := Stencil.rhalo f in
  let nq := Z.of_nat (length (Stencil.queue f)) in
  let sd := rd junk (part (Stencil.s f) d) in
  if 0 <? lh + rh then
    remote_total n lh rh (Z.max lh rh)
      (left_sum lh sd (left_tap junk (0 <? d) lh (part x d) (halo_of junk f x d)))
      (right_sum lh rh sd
         (right_tap junk (d + 1 <? nq) n lh (part x d) (halo_of junk f x d)))
      i
  else 0.


(** The Laplacian filter [[1; -2; 1]] centred at 1 as [init] constructs it
    on two sample devices of one context with work-group size 4. *)
Definition sample_stencil : Stencil.t :=
  {| Stencil.queue := [sample_queue 0 0 4; sample_queue 0 1 4];
     Stencil.hbuf := [0; 0; 0; 0];
     Stencil.dbuf := [[0; 0]; [0; 0]];
     Stencil.s := [[1; -2; 1]; [1; -2; 1]];
     Stencil.lhalo := 1;
     Stencil.rhalo := 1;
     Stencil.fast_kernel := [true; true];
     Stencil.wgs := [4%N; 4%N] |}.


(** The buffers of the filter are those [init] allocates, with halo widths
    that are not negative, and every partition of [x] holds at least as
    many elements as the larger halo width. *)
Definition wf_halo (f : Stencil.t) (x : list (list Z)) : Prop :=
  let nq := Z.of_nat (length (Stencil.queue f)) in
  let lh := Stencil.lhalo f in
  let rh := Stencil.rhalo f in
  0 <= lh /\ 0 <= rh
  /\ Z.of_nat (length x) = nq
  /\ Z.of_nat (length (Stencil.hbuf f)) = nq * (lh + rh)
  /\ (forall d, 0 <= d < nq ->
        Z.of_nat (length (part (Stencil.dbuf f) d)) = lh + rh)
  /\ (forall d, 0 <= d < nq -> Z.max lh rh <= part_size x d).


(** The staging of the fast kernel covers what its sum reads on a partition
    of [n] elements in work-groups of [block_size]: the last work-group is
    full, or holds at least [lhalo] elements of the partition, or is the
    only one. *)
Definition staging_covers (n block_size lhalo : Z) : Prop :=
  n mod block_size = 0 \/ lhalo <= n mod block_size \/ n <= block_size.

(** What the local memory of work-group [group] should hold at an address:
    the weights, then the elements of the partition around the group. *)
Definition staged_ideal (junk : Z) (lhalo rhalo : Z) (x s : list Z)
  (block_size group : Z) (a : Z) : Z :=
  if a <? lhalo + rhalo + 1 then rd junk s a
  else rd junk x (group * block_size + (a - (lhalo + rhalo + 1 + lhalo))).


(** The tap at offset [p] from the start of a partition of [n] elements:
    an element of the partition, or what [conv_remote] reads before and
    after it. *)
Definition tap (n : Z) (src left right : Z -> Z) (p : Z) : Z :=
  if p <? 0 then left p else if p <? n then src p else right (p - n).

(** The index of the first element of partition [d] in the whole vector. *)
Definition offset (x : list (list Z)) (d : Z) : Z :=
  Z.of_nat (length (concat (take (Z.to_nat d) x))).

(** A filter as [init] constructs it for the weights [data]: a copy of the
    weights on every device, halo widths that add up to the filter width,
    and the fast kernel only where the work-group holds the filter. *)
Definition wf_stencil (f : Stencil.t) (data : list Z) : Prop :=
  wf_wgs f
  /\ length (Stencil.fast_kernel f) = length (Stencil.queue f)
  /\ Stencil.s f = map (fun _ => data) (Stencil.queue f)
  /\ 0 <= Stencil.lhalo f /\ 0 <= Stencil.rhalo f
  /\ Z.of_nat (length data) = Stencil.lhalo f + Stencil.rhalo f + 1
  /\ forall d, 0 <= d < Z.of_nat (length (Stencil.queue f)) ->
       nth (Z.to_nat d) (Stencil.fast_kernel f) false = true ->
       Stencil.lhalo f + Stencil.rhalo f + 1
       <= Z.of_N (nth (Z.to_nat d) (Stencil.wgs f) 0%N).

(** On every device that runs the fast kernel, the staging covers the
    reads. *)
Definition fast_covered (f : Stencil.t) (x : list (list Z)) : Prop :=
  forall d, 0 <= d < Z.of_nat (length (Stencil.queue f)) ->
    nth (Z.to_nat d) (Stencil.fast_kernel f) false = true ->
    staging_covers (part_size x d)
      (Z.of_N (nth (Z.to_nat d) (Stencil.wgs f) 0%N)) (Stencil.lhalo f).


(** ** What the runtime guarantees *)

(** The runtime reports a work-group size of at least one for every
    kernel. *)
Definition queue_sane (q : CommandQueue) : Prop :=
  forall k, (1 <= uint (kernel_work_group_size q k))%N.

(** The populated entries of the cache of [stencil<T>] hold a kernel and a
    work-group size that [kernel_workgroup_size] can return. *)
Definition cache_sane (st : process_state) : Prop :=
  forall c, default false (s_compiled st !! c) = true ->
    (exists k, s_conv_local st !! c = Some k)
    /\ exists w, s_wgsize st !! c = Some w /\ (1 <= w <= 1024)%N.

(** ** util.hpp: the utilities around the convolution *)

(** [nextpow2]; the decrement and the increment wrap in [size_t]. *)
Definition nextpow2 (x : N) : N :=
  let x := sub64 x 1 in
  let x := N.lor x (N.shiftr x 1) in
  let x := N.lor x (N.shiftr x 2) in
  let x := N.lor x (N.shiftr x 4) in
  let x := N.lor x (N.shiftr x 8) in
  let x := N.lor x (N.shiftr x 16) in
  size_t (x + 1).

(** [binop::kind] with [binop::traits<kind>::oper()] and [::name()] *)
Module binop.

Inductive kind :=
| Add | Subtract | Multiply | Divide | Remainder | Greater | Less
| GreaterEqual | LessEqual | Equal | NotEqual | BitwiseAnd | BitwiseOr
| BitwiseXor | LogicalAnd | LogicalOr | RightShift | LeftShift.

Definition oper (k : kind) : string :=
  match k with
  | Add => "+" | Subtract => "-" | Multiply => "*" | Divide => "/"
  | Remainder => "%" | Greater => ">" | Less => "<" | GreaterEqual => ">="
  | LessEqual => "<=" | Equal => "==" | NotEqual => "!="
  | BitwiseAnd => "&" | BitwiseOr => "|" | BitwiseXor => "^"
  | LogicalAnd => "&&" | LogicalOr => "||" | RightShift => ">>"
  | LeftShift => "<<"
  end.

Definition name (k : kind) : string :=
  match k with
  | Add => "Add_" | Subtract => "Sub_" | Multiply => "Mul_"
  | Divide => "Div_" | Remainder => "Mod_" | Greater => "Gtr_"
  | Less => "Lss_" | GreaterEqual => "Geq_" | LessEqual => "Leq_"
  | Equal => "Equ_" | NotEqual => "Neq_" | BitwiseAnd => "BAnd_"
  | BitwiseOr => "BOr_" | BitwiseXor => "BXor_" | LogicalAnd => "LAnd_"
  | LogicalOr => "LOr_" | RightShift => "Rsh_" | LeftShift => "Lsh_"
  end.

Definition kinds : list kind :=
  [Add; Subtract; Multiply; Divide; Remainder; Greater; Less; GreaterEqual;
   LessEqual; Equal; NotEqual; BitwiseAnd; BitwiseOr; BitwiseXor;
   LogicalAnd; LogicalOr; RightShift; LeftShift].

End binop.

(** [static_for<Begin, End>]: [f i] is the effect of [f.template apply<i>()]
    on the state the functor refers to. *)
Module static_for.

Section Loop.

Context {State : Type}.

Equations? iterate (End : Z) (f : Z -> State -> State) (i : Z) (st : State)
  : State by wf (Z.to_nat (End - i)) lt :=
  iterate End f i st with inspect (i <? End) => {
    | exist _ true _ => iterate End f (i + 1) (f i st)
    | exist _ false _ => st }.
Proof. apply Z.ltb_lt in e. lia. Qed.

Definition loop (Begin End : Z) (f : Z -> State -> State) (st : State)
  : State :=
  iterate End f Begin st.

End Loop.

End static_for.

(** [qctx] and [qdev] *)
Definition qctx (q : CommandQueue) : nat := q_context q.
Definition qdev (q : CommandQueue) : nat := q_device q.

(** The overloads of [push_compile_options], [pop_compile_options],
    [push_program_header] and [pop_program_header] for a list of queues. *)
Definition push_compile_options_queue (queue : list CommandQueue)
  (str : string) (o : options_state) : options_state :=
  fold_left (fun o q => device_options.push compile_options (qdev q) str o)
    queue o.

Definition pop_compile_options_queue (queue : list CommandQueue)
  (o : options_state) : options_state :=
  fold_left (fun o q => device_options.pop compile_options (qdev q) o)
    queue o.

Definition push_program_header_queue (queue : list CommandQueue)
  (str : string) (o : options_state) : options_state :=
  fold_left (fun o q => device_options.push program_header (qdev q) str o)
    queue o.

Definition pop_program_header_queue (queue : list CommandQueue)
  (o : options_state) : options_state :=
  fold_left (fun o q => device_options.pop program_header (qdev q) o)
    queue o.

(** [std::upper_bound(part.begin(), part.end(), c) - part.begin()] on a
    sorted range: the index of the first element greater than [c], the
    length of the range if there is none. *)
Fixpoint upper_bound (part : list N) (c : N) : nat :=
  match part with
  | [] => 0%nat
  | p :: part' => if (c <? p)%N then 0%nat else S (upper_bound part' c)
  end.

(** [column_owner::operator()]; the difference of the iterators less one is
    converted to [size_t]. *)
Definition column_owner (part : list N) (c : N) : N :=
  sub64 (N.of_nat (upper_bound part c)) 1.

(** The switch of [operator<<(std::ostream&, const cl::Error&)]. *)
Definition CL_ERR2TXT (err : Z) : string :=
  match err with
  | 0 => "Success"
  | -1 => "Device not found"
  | -2 => "Device not available"
  | -3 => "Compiler not available"
  | -4 => "Mem object allocation failure"
  | -5 => "Out of resources"
  | -6 => "Out of host memory"
  | -7 => "Profiling info not available"
  | -8 => "Mem copy overlap"
  | -9 => "Image format mismatch"
  | -10 => "Image format not supported"
  | -11 => "Build program failure"
  | -12 => "Map failure"
  | -13 => "Misaligned sub buffer offset"
  | -14 => "Exec status error for events in wait list"
  | -30 => "Invalid value"
  | -31 => "Invalid device type"
  | -32 => "Invalid platform"
  | -33 => "Invalid device"
  | -34 => "Invalid context"
  | -35 => "Invalid queue properties"
  | -36 => "Invalid command queue"
  | -37 => "Invalid host ptr"
  | -38 => "Invalid mem object"
  | -39 => "Invalid image format descriptor"
  | -40 => "Invalid image size"
  | -41 => "Invalid sampler"
  | -42 => "Invalid binary"
  | -43 => "Invalid build options"
  | -44 => "Invalid program"
  | -45 => "Invalid program executable"
  | -46 => "Invalid kernel name"
  | -47 => "Invalid kernel definition"
  | -48 => "Invalid kernel"
  | -49 => "Invalid arg index"
  | -50 => "Invalid arg value"
  | -51 => "Invalid arg size"
  | -52 => "Invalid kernel args"
  | -53 => "Invalid work dimension"
  | -54 => "Invalid work group size"
  | -55 => "Invalid work item size"
  | -56 => "Invalid global offset"
  | -57 => "Invalid event wait list"
  | -58 => "Invalid event"
  | -59 => "Invalid operation"
  | -60 => "Invalid gl object"
  | -61 => "Invalid buffer size"
  | -62 => "Invalid mip level"
  | -63 => "Invalid global work size"
  | -64 => "Invalid property"
  | _ => "Unknown error"
  end%string.

(** [operator<<(std::ostream&, const cl::Error&)]: what the stream
    receives for an error with the text [what] and the code [err]. *)
Definition output_error (what : string) (err : Z) : string :=
  (what ++ "(" ++ CL_ERR2TXT err ++ ")")%string.

(** The codes the switch names. *)
Definition named_error (err : Z) : bool :=
  ((-14 <=? err) && (err <=? 0)) || ((-64 <=? err) && (err <=? -30)).

(** The offsets [part] of the partitions of a vector are in non-decreasing
    order, as [column_owner] expects them. *)
Definition sorted_part (part : list N) : Prop :=
  forall (i j : nat) (a b : N),
    (i <= j)%nat -> part !! i = Some a -> part !! j = Some b -> (a <= b)%N.

(** ** stencil.hpp: the operators of [stencil<T>] *)









(** [(wgs[d] + 2 * (lhalo + rhalo) + 1) * sizeof(T)], the size of the
    local-memory argument [convolve] gives the fast kernel: the sum is
    formed in [unsigned int], the product in [size_t]. *)
Definition local_elems (w : N) (lhalo rhalo : Z) : N :=
  Z.to_N ((Z.of_N w + 2 * (lhalo + rhalo) + 1) mod 2 ^ 32).

Definition local_arg (T : elem_type) (w : N) (lhalo rhalo : Z) : N :=
  size_t (local_elems w lhalo rhalo * sizeof T).

(** ** The generalized filter against its reference *)

(** Modelled from the spec: the generalized convolution of the class
    comment of [gstencil], [y_i = sum_k f(sum_j S_kj * x_(i+j-c))], with the
    taps outside the input clamped to its nearest element; [fname] is the
    device-side name of the transform. *)
Definition gconv_ref (call : string -> Z -> Z) (fname : string)
  (rows cols center : Z) (S X : list Z) (i : Z) : Z :=
  Zsum (fun k =>
          call fname
            (Zsum (fun j => nth (Z.to_nat (center + j + k * cols)) S 0
                            * clamped X (i + j))
               (seqZ (- center) cols)))
    (seqZ 0 rows).

(** The halo buffers of a generalized filter, seen as those of a plain
    filter: [convolve] exchanges the halos of both in the same way. *)
Definition halo_view (g : GStencil.t) : Stencil.t :=
  {| Stencil.queue := GStencil.queue g;
     Stencil.hbuf := GStencil.hbuf g;
     Stencil.dbuf := GStencil.dbuf g;
     Stencil.s := GStencil.S g;
     Stencil.lhalo := GStencil.lhalo g;
     Stencil.rhalo := GStencil.rhalo g;
     Stencil.fast_kernel := [];
     Stencil.wgs := [] |}.

(** A generalized filter as [init] constructs it for the matrix [data]: a
    copy of the matrix on every device, halo widths that add up to the
    number of columns less one, and halo buffers of these widths. *)
Definition wf_gstencil (g : GStencil.t) (data : list Z) : Prop :=
  GStencil.S g = map (fun _ => data) (GStencil.queue g)
  /\ 0 <= GStencil.lhalo g /\ 0 <= GStencil.rhalo g
  /\ Z.of_N (GStencil.cols g) = GStencil.lhalo g + GStencil.rhalo g + 1
  /\ (1 <= GStencil.rows g)%N
  /\ (GStencil.rows g * GStencil.cols g < 2 ^ 32)%N
  /\ N.of_nat (length data) = (GStencil.rows g * GStencil.cols g)%N.

(** The work-group size [convolve] uses on device [d]:
    [exdata<func>::wgsize[context()]]. *)
Definition gstencil_wgsize (func : builtin) (g : GStencil.t)
  (st : process_state) (d : Z) : N :=
  match GStencil.queue g !! Z.to_nat d with
  | Some q => default 0%N (g_wgsize st !! (value func, q_context q))
  | None => 0%N
  end.

(** The staging of the kernels of the generalized filter covers what their
    sums read on a partition of [n] elements in work-groups of
    [block_size]: the matrix fits one work-group, the partition holds both
    halos, the halo widths are equal or one of them is zero, and the last
    work-group of the interior kernel holds at least [lhalo] or at most
    [rhalo] elements of the partition, is full or is the only one. *)
Definition gstaging_covers (n block_size rows cols lhalo rhalo : Z) : Prop :=
  1 <= rows * cols <= block_size /\ block_size < 2 ^ 31
  /\ lhalo + rhalo <= n
  /\ (lhalo = rhalo \/ lhalo = 0 \/ rhalo = 0)
  /\ (staging_covers n block_size lhalo \/ n mod block_size <= rhalo).

Definition gstencil_covered (func : builtin) (g : GStencil.t)
  (st : process_state) (x : list (list Z)) : Prop :=
  forall d, 0 <= d < Z.of_nat (length (GStencil.queue g)) ->
    gstaging_covers (part_size x d) (Z.of_N (gstencil_wgsize func g st d))
      (Z.of_N (GStencil.rows g)) (Z.of_N (GStencil.cols g))
      (GStencil.lhalo g) (GStencil.rhalo g).

(** What the local memory of the generalized [conv_local] should hold at an
    address: the matrix, then the elements of the partition around the
    work-group. *)
Definition gstaged_ideal (junk : Z) (rows cols lhalo : Z) (x s : list Z)
  (block_size group : Z) (a : Z) : Z :=
  if a <? rows * cols then rd junk s a
  else rd junk x (group * block_size + (a - (rows * cols + lhalo))).

(** The generalized filter of the matrix with the rows [(1 0 -1)] and
    [(0 1 0)], centred at column 1, as [init] constructs it on two sample
    devices of one context. *)
Definition sample_gstencil2 : GStencil.t :=
  {| GStencil.queue := [sample_queue 0 0 8; sample_queue 0 1 8];
     GStencil.hbuf := [0; 0; 0; 0];
     GStencil.dbuf := [[0; 0]; [0; 0]];
     GStencil.S := [[1; 0; -1; 0; 1; 0]; [1; 0; -1; 0; 1; 0]];
     GStencil.lhalo := 1;
     GStencil.rhalo := 1;
     GStencil.rows := 2;
     GStencil.cols := 3 |}.

(** ** stencil.hpp: the operators of [gstencil<T>] *)

(** [GStencilProd<T>]: the product of a vector and a generalized stencil. *)
Record GStencilProd := {
  prod_x : list (list Z);
  prod_s : GStencil.t
}.

(** [operator*(const vex::vector<T>&, const gstencil<T>&)] and the
    overload with the operands in the other order *)
Definition vector_times_gstencil (x : list (list Z)) (s : GStencil.t)
  : GStencilProd :=
  {| prod_x := x; prod_s := s |}.

Definition gstencil_times_vector (s : GStencil.t) (x : list (list Z))
  : GStencilProd :=
  vector_times_gstencil x s.

(** [GConv<f, T>]: a builtin applied to a product. *)
Record GConv := {
  gconv_f : builtin;
  gconv_x : list (list Z);
  gconv_s : GStencil.t
}.

(** [OVERLOAD_BUILTIN_FOR_GSTENCIL(name)]: the overload of the builtin
    [name] for a product, [func] standing for [name_name]. *)
Definition overload_builtin (func : builtin) (sp : GStencilProd) : GConv :=
  {| gconv_f := func; gconv_x := prod_x sp; gconv_s := prod_s sp |}.

(** [ExGConv<Expr, func, T>]: an expression plus or minus a transformed
    product.
    Modelled from the spec: the expression belongs to the expression
    templates of vector.hpp, outside the files at hand; [exg_expr] holds the
    values it gives the elements of the vector it is assigned to. *)
Record ExGConv := {
  exg_expr : list (list Z);
  exg_cnv : GConv;
  exg_p : Z
}.

Definition expr_plus_gconv (expr : list (list Z)) (cnv : GConv) : ExGConv :=
  {| exg_expr := expr; exg_cnv := cnv; exg_p := 1 |}.

Definition expr_minus_gconv (expr : list (list Z)) (cnv : GConv) : ExGConv :=
  {| exg_expr := expr; exg_cnv := cnv; exg_p := -1 |}.

(** [vector<T>::operator=(const GConv<func,T>&)] on a vector other than
    the operand of the product *)
Definition assign_gconv (junk : Z) (call : string -> Z -> Z) (T : elem_type)
  (cnv : GConv) (this : list (list Z)) (st : process_state)
  : option (GStencil.t * list (list Z) * process_state) :=
  GStencil.convolve junk call T (gconv_f cnv) (gconv_s cnv) (gconv_x cnv)
    this 0 1 st.

(** [vector<T>::operator=(const ExGConv<Expr,func,T>&)] on a vector other
    than the operand of the product *)
Definition assign_exgconv (junk : Z) (call : string -> Z -> Z)
  (T : elem_type) (xc : ExGConv) (this : list (list Z)) (st : process_state)
  : option (GStencil.t * list (list Z) * process_state) :=
  let this1 := exg_expr xc in
  GStencil.convolve junk call T (gconv_f (exg_cnv xc)) (gconv_s (exg_cnv xc))
    (gconv_x (exg_cnv xc)) this1 1 (exg_p xc) st.

(** ** The local memory the generalized filter asks for *)

(** [l_mem_size] of the generalized [convolve] on a device with the
    work-group size [wgsize], and the local memory the assertion compares
    it with. *)
Definition l_mem_size (T : elem_type) (g : GStencil.t) (wgsize : N) : N :=
  size_t (sizeof T
          * glocal_elems wgsize (GStencil.lhalo g) (GStencil.rhalo g)
              (GStencil.rows g) (GStencil.cols g)).

Definition free_local_mem (q : CommandQueue) (conv_local : Kernel) : N :=
  sub64 (local_mem_size q) (kernel_local_mem_size q conv_local).


(** ** The local memory of the kernels of the generalized filter *)

(** [exdata<func>::wgsize[context()] + lhalo + rhalo], the number of
    elements of the local-memory argument [lmem] of the generalized
    [conv_remote]; the sum is formed in [unsigned int]. *)
Definition gremote_elems (wgsize : N) (lhalo rhalo : Z) : N :=
  Z.to_N ((Z.of_N wgsize + lhalo + rhalo) mod 2 ^ 32).

(** * Properties *)

(** ** Scoped build configuration *)

Lemma options_of_set kind m o : options_of kind (set_options kind m o) = m.
Proof. by destruct kind. Qed.

Lemma stack_of_set kind dev m o :
  stack_of kind dev (set_options kind m o) = default [] (m !! dev).
Proof. unfold stack_of. by rewrite options_of_set. Qed.

Lemma stack_of_get kind dev o :
  stack_of kind dev (snd (device_options.get kind dev o))
  = match stack_of kind dev o with [] => [EmptyString] | v => v end.
Proof.
  unfold device_options.get. simpl. rewrite stack_of_set, lookup_insert_eq.
  simpl. by destruct (stack_of kind dev o).
Qed.

Lemma stack_of_push kind dev str o :
  stack_of kind dev (device_options.push kind dev str o)
  = stack_of kind dev o ++ [str].
Proof.
  unfold device_options.push. by rewrite stack_of_set, lookup_insert_eq.
Qed.

Lemma stack_of_pop kind dev o :
  stack_of kind dev (device_options.pop kind dev o)
  = removelast (stack_of kind dev o).
Proof.
  unfold device_options.pop. rewrite stack_of_set, lookup_insert_eq.
  simpl. by destruct (stack_of kind dev o).
Qed.

Lemma get_value kind dev o :
  fst (device_options.get kind dev o) = List.last (stack_of kind dev o) EmptyString.
Proof.
  unfold device_options.get. simpl. by destruct (stack_of kind dev o).
Qed.

(** C10: [get] on a device whose stack is empty returns the empty string and
    leaves an empty-string entry on the stack, which the next [pop] removes;
    on any stack, empty or not, [push] puts its string on top, and [push]
    followed by [pop] gives back the stack, and so the top, that was there
    before. *)
Theorem get_on_empty_stack_inserts kind dev str o :
  (stack_of kind dev o = [] ->
   fst (device_options.get kind dev o) = EmptyString
   /\ stack_of kind dev (snd (device_options.get kind dev o)) = [EmptyString]
   /\ stack_of kind dev
        (device_options.pop kind dev (snd (device_options.get kind dev o)))
      = [])
  /\ fst (device_options.get kind dev (device_options.push kind dev str o))
     = str
  /\ stack_of kind dev
       (device_options.pop kind dev (device_options.push kind dev str o))
     = stack_of kind dev o
  /\ fst (device_options.get kind dev
            (device_options.pop kind dev (device_options.push kind dev str o)))
     = fst (device_options.get kind dev o).
Proof.
  split; [| split; [| split]].
  - intros Hempty.
    rewrite !get_value, !stack_of_pop, stack_of_get, Hempty. by simpl.
  - rewrite get_value, stack_of_push. apply last_last.
  - rewrite stack_of_pop, stack_of_push. apply removelast_last.
  - rewrite !get_value, stack_of_pop, stack_of_push, removelast_last.
    reflexivity.
Qed.

Lemma get_on_empty_stack_inserts_witness :
  stack_of compile_options 0%nat (ps_options initial_state) = [] /\
  stack_of compile_options 0%nat
    (snd (device_options.get compile_options 0%nat (ps_options initial_state))) = [EmptyString].
Proof.
  split; [reflexivity |].
  apply (proj1 (get_on_empty_stack_inserts compile_options 0%nat "-g"
                  (ps_options initial_state))).
  reflexivity.
Defined.

(** ** Capacity planner *)

Lemma shrink_unfold size smem w :
  Stencil.shrink size smem w
  = if Stencil.shrink_cond size smem w
    then Stencil.shrink size smem (w / 2)%N else w.
Proof.
  funelim (Stencil.shrink size smem w); simp shrink; rewrite e; reflexivity.
Qed.

(** Without overflow the loop condition is the one of the text. *)
Lemma shrink_cond_spec size smem w :
  (size < 2 ^ 62)%N -> (w < 2 ^ 32)%N ->
  Stencil.shrink_cond size smem w = true
  <-> (size <= w /\ smem < w + 2 * size)%N.
Proof.
  intros Hsize Hw. unfold Stencil.shrink_cond, size_t.
  rewrite andb_true_iff, N.leb_le, N.ltb_lt.
  assert (2 ^ 62 = 4611686018427387904)%N as E62 by reflexivity.
  assert (2 ^ 32 = 4294967296)%N as E32 by reflexivity.
  assert (2 ^ 64 = 18446744073709551616)%N as E64 by reflexivity.
  rewrite E62 in Hsize. rewrite E32 in Hw. rewrite E64.
  rewrite (N.mod_small (2 * size)) by lia.
  rewrite (N.mod_small (w + 2 * size)) by lia.
  reflexivity.
Qed.

Lemma halving_step w k : (w / 2 / 2 ^ k = w / 2 ^ N.succ k)%N.
Proof.
  rewrite N.pow_succ_r', N.Div0.div_div. reflexivity.
Qed.

(** The value the loop leaves: the first of [w], [w/2], [w/4], ... at which
    the condition fails. *)
Lemma shrink_spec size smem w :
  (size < 2 ^ 62)%N -> (w < 2 ^ 32)%N ->
  exists k : N,
    Stencil.shrink size smem w = (w / 2 ^ k)%N
    /\ (forall j, (j < k)%N ->
          (size <= w / 2 ^ j /\ smem < w / 2 ^ j + 2 * size)%N)
    /\ ~ (size <= w / 2 ^ k /\ smem < w / 2 ^ k + 2 * size)%N.
Proof.
  intros Hsize. induction w as [w IH] using (well_founded_induction N.lt_wf_0).
  intros Hw. rewrite shrink_unfold.
  destruct (Stencil.shrink_cond size smem w) eqn:Hc.
  - pose proof (proj1 (shrink_cond_spec size smem w Hsize Hw) Hc) as Hcond.
    assert (w <> 0)%N as Hnz.
    { intros ->. destruct Hcond as [H1 H2]. lia. }
    assert (w / 2 < w)%N as Hlt by (apply N.div_lt; lia).
    destruct (IH (w / 2)%N Hlt ltac:(lia)) as (k & Hk & Hbefore & Hat).
    exists (N.succ k). rewrite <- !halving_step. split; [exact Hk |].
    split; [| exact Hat].
    intros j Hj. destruct (N.eq_dec j 0) as [-> | Hj0].
    + rewrite N.pow_0_r, N.div_1_r. exact Hcond.
    + replace j with (N.succ (N.pred j)) by lia.
      rewrite <- halving_step. apply Hbefore. lia.
  - exists 0%N. rewrite N.pow_0_r, N.div_1_r. split; [reflexivity |].
    split; [intros j Hj; lia |].
    intros Hcond. apply (shrink_cond_spec size smem w Hsize Hw) in Hcond.
    congruence.
Qed.

(** The plan for one device: from the default work-group size, the size is
    halved as long as it is at least the filter width and exceeds, with
    twice the filter width added, the available capacity; a result below
    the filter width gives the fallback kernel at the default size, any
    other result the fast kernel at the shrunk size. *)
Lemma plan_spec size smem wgsize :
  (1 <= size < 2 ^ 62)%N -> (wgsize < 2 ^ 32)%N ->
  exists k : N,
    let shrunk := (wgsize / 2 ^ k)%N in
    (forall j, (j < k)%N ->
       (size <= wgsize / 2 ^ j /\ smem < wgsize / 2 ^ j + 2 * size)%N)
    /\ ~ (size <= shrunk /\ smem < shrunk + 2 * size)%N
    /\ ((shrunk < size)%N -> Stencil.plan size smem wgsize = (false, wgsize))
    /\ ((size <= shrunk)%N -> Stencil.plan size smem wgsize = (true, shrunk)).
Proof.
  intros [_ Hsize] Hw.
  destruct (shrink_spec size smem wgsize Hsize Hw) as (k & Hk & Hbefore & Hat).
  exists k. simpl. split; [exact Hbefore |]. split; [exact Hat |].
  unfold Stencil.plan. rewrite Hk. split; intros H.
  - apply N.ltb_lt in H. by rewrite H.
  - apply N.ltb_ge in H. by rewrite H.
Qed.

Example plan_fast : Stencil.plan 3 10 16 = (true, 4%N).
Proof. reflexivity. Qed.

Example plan_fallback : Stencil.plan 9 10 16 = (false, 16%N).
Proof. reflexivity. Qed.

(** ** Halo widths *)

(** the powers of two of the integer types, as numerals for [lia] *)
Ltac pow_consts :=
  change (2 ^ 31)%N with 2147483648%N in *;
  change (2 ^ 32)%N with 4294967296%N in *;
  change (2 ^ 62)%N with 4611686018427387904%N in *;
  change (2 ^ 64)%N with 18446744073709551616%N in *;
  change (2 ^ 31) with 2147483648 in *;
  change (2 ^ 32) with 4294967296 in *;
  change (2 ^ 64) with 18446744073709551616 in *.

Lemma init_inv junk T queue data center st f st' :
  Stencil.init junk T queue data center st = Some (f, st') ->
  ((0 < N.of_nat (length queue))%N /\ (0 < N.of_nat (length data))%N
   /\ (center < N.of_nat (length data))%N)
  /\ Stencil.queue f = queue
  /\ Stencil.lhalo f = to_int center
  /\ Stencil.rhalo f = to_int (sub64 (sub64 (N.of_nat (length data)) center) 1)
  /\ Stencil.s f = map (fun _ => data) queue
  /\ Stencil.init_devices T data queue st
     = Some (Stencil.fast_kernel f, Stencil.wgs f, st').
Proof.
  unfold Stencil.init. intros H.
  destruct (_ && _ && _)%N eqn:Hassert in H; simpl in H; [| discriminate].
  apply andb_true_iff in Hassert as [Hassert H3].
  apply andb_true_iff in Hassert as [H1 H2].
  apply N.ltb_lt in H1, H2, H3.
  destruct (Stencil.init_devices T data queue st) as [[[fks ws] st1] |];
    simpl in H; [| discriminate].
  destruct (resize _) as [hb |]; simpl in H; [| discriminate].
  injection H as <- <-. simpl. tauto.
Qed.

Lemma resize_Some n hb :
  resize n = Some hb <-> 0 <= n /\ hb = replicate (Z.to_nat n) 0.
Proof.
  unfold resize. destruct (Z.ltb_spec n 0); split.
  - discriminate.
  - intros [H' _]. lia.
  - intros E. injection E as <-. split; [lia | reflexivity].
  - intros [_ ->]. reflexivity.
Qed.

Lemma add_int_small a b :
  - 2 ^ 31 <= a + b < 2 ^ 31 -> add_int a b = a + b.
Proof.
  intros H. unfold add_int.
  change (2 ^ 31) with 2147483648 in *. change (2 ^ 32) with 4294967296.
  rewrite Z.mod_small; lia.
Qed.

(** The halo buffers [init] leaves. *)
Lemma init_buffers junk T queue data center st f st' :
  Stencil.init junk T queue data center st = Some (f, st') ->
  let halo := add_int (Stencil.lhalo f) (Stencil.rhalo f) in
  0 <= halo
  /\ Stencil.hbuf f
     = replicate (Z.to_nat (Z.of_nat (length queue) * halo)) 0
  /\ Stencil.dbuf f
     = map (fun _ => if 0 <? halo then replicate (Z.to_nat halo) junk else [])
         queue.
Proof.
  unfold Stencil.init. intros H.
  destruct (_ && _ && _)%N eqn:Hassert in H; simpl in H; [| discriminate].
  apply andb_true_iff in Hassert as [Hassert _].
  apply andb_true_iff in Hassert as [H1 _]. apply N.ltb_lt in H1.
  destruct (Stencil.init_devices T data queue st) as [[[fks ws] st1] |];
    simpl in H; [| discriminate].
  destruct (resize _) as [hb |] eqn:Hr; simpl in H; [| discriminate].
  apply resize_Some in Hr as [Hn ->].
  injection H as <- <-. simpl. split; [nia | auto].
Qed.

Lemma to_int_small n : (n < 2 ^ 31)%N -> to_int n = Z.of_N n.
Proof.
  intros H. unfold to_int. pow_consts. rewrite Z.mod_small; lia.
Qed.

Lemma sub64_small a b : (b <= a)%N -> (a < 2 ^ 64)%N -> sub64 a b = (a - b)%N.
Proof.
  intros H1 H2. unfold sub64. pow_consts. rewrite Z.mod_small; lia.
Qed.

Lemma sub32_small a b : (b <= a)%N -> (a < 2 ^ 32)%N -> sub32 a b = (a - b)%N.
Proof.
  intros H1 H2. unfold sub32. pow_consts. rewrite Z.mod_small; lia.
Qed.

Lemma halo_widths_small size center :
  (center < size)%N -> (size <= 2 ^ 31)%N ->
  to_int center = Z.of_N center
  /\ to_int center + to_int (sub64 (sub64 size center) 1) = Z.of_N size - 1.
Proof.
  intros Hc Hs.
  rewrite (sub64_small size center) by (pow_consts; lia).
  rewrite sub64_small by (pow_consts; lia).
  rewrite !to_int_small by (pow_consts; lia). lia.
Qed.

Lemma convolve_halos junk f x y alpha beta :
  Stencil.lhalo (fst (Stencil.convolve junk f x y alpha beta)) = Stencil.lhalo f
  /\ Stencil.rhalo (fst (Stencil.convolve junk f x y alpha beta))
     = Stencil.rhalo f.
Proof.
  unfold Stencil.convolve.
  destruct (0 <? Stencil.lhalo f + Stencil.rhalo f); simpl; auto.
Qed.

Lemma ginit_inv junk queue rows cols center data g :
  GStencil.init junk queue rows cols center data = Some g ->
  ((0 < rows)%N /\ (0 < cols)%N
   /\ uint (rows * cols) = N.of_nat (length data) /\ (center < cols)%N)
  /\ GStencil.queue g = queue
  /\ GStencil.lhalo g = to_int center
  /\ GStencil.rhalo g = to_int (sub32 (sub32 cols center) 1)
  /\ GStencil.rows g = rows /\ GStencil.cols g = cols
  /\ GStencil.S g = map (fun _ => data) queue.
Proof.
  unfold GStencil.init. intros H.
  destruct (_ && _ && _ && _)%N eqn:Hassert in H; simpl in H; [| discriminate].
  apply andb_true_iff in Hassert as [Hassert H4].
  apply andb_true_iff in Hassert as [Hassert H3].
  apply andb_true_iff in Hassert as [H1 H2].
  apply N.ltb_lt in H1, H2, H4. apply N.eqb_eq in H3.
  destruct (resize _) as [hb |]; simpl in H; [| discriminate].
  injection H as <-. simpl. tauto.
Qed.

(** The halo buffers the generalized [init] leaves. *)
Lemma ginit_halo_buffers junk queue rows cols center data g :
  GStencil.init junk queue rows cols center data = Some g ->
  let halo := add_int (GStencil.lhalo g) (GStencil.rhalo g) in
  0 <= Z.of_nat (length queue) * halo
  /\ GStencil.hbuf g
     = replicate (Z.to_nat (Z.of_nat (length queue) * halo)) 0
  /\ GStencil.dbuf g
     = map (fun _ => if 0 <? halo then replicate (Z.to_nat halo) junk else [])
         queue.
Proof.
  unfold GStencil.init. intros H.
  destruct (negb _) in H; [discriminate |].
  destruct (resize _) as [hb |] eqn:Hr; simpl in H; [| discriminate].
  apply resize_Some in Hr as [Hn ->].
  injection H as <-. simpl. auto.
Qed.

(** The sum of two converted values is the converted sum. *)
Lemma add_int_to_int a b :
  add_int (to_int a) (to_int b)
  = (Z.of_N a + Z.of_N b + 2 ^ 31) mod 2 ^ 32 - 2 ^ 31.
Proof.
  unfold add_int, to_int. f_equal.
  replace ((Z.of_N a + 2 ^ 31) mod 2 ^ 32 - 2 ^ 31
           + ((Z.of_N b + 2 ^ 31) mod 2 ^ 32 - 2 ^ 31) + 2 ^ 31)
    with ((Z.of_N a + 2 ^ 31) mod 2 ^ 32
          + ((Z.of_N b + 2 ^ 31) mod 2 ^ 32 - 2 ^ 31)) by lia.
  rewrite Zplus_mod_idemp_l.
  replace (Z.of_N a + 2 ^ 31 + ((Z.of_N b + 2 ^ 31) mod 2 ^ 32 - 2 ^ 31))
    with ((Z.of_N b + 2 ^ 31) mod 2 ^ 32 + Z.of_N a) by lia.
  rewrite Zplus_mod_idemp_l. f_equal. lia.
Qed.

(** A halo sum that is not negative after the conversions is the true
    one as long as the width is an [unsigned int]. *)
Lemma halo_sum_nonneg a b :
  Z.of_N a + Z.of_N b < 2 ^ 32 ->
  0 <= add_int (to_int a) (to_int b) ->
  Z.of_N a + Z.of_N b < 2 ^ 31.
Proof.
  rewrite add_int_to_int. intros Hsum H.
  change (2 ^ 31) with 2147483648 in *. change (2 ^ 32) with 4294967296 in *.
  destruct (Z.lt_ge_cases (Z.of_N a + Z.of_N b) 2147483648) as [| Hge];
    [assumption |].
  replace (Z.of_N a + Z.of_N b + 2147483648)
    with (Z.of_N a + Z.of_N b - 2147483648 + 1 * 4294967296) in H by lia.
  rewrite Z_mod_plus_full, Z.mod_small in H; lia.
Qed.

Lemma gconvolve_halos junk call T func g x y alpha beta st g' y' st' :
  GStencil.convolve junk call T func g x y alpha beta st = Some (g', y', st') ->
  GStencil.lhalo g' = GStencil.lhalo g /\ GStencil.rhalo g' = GStencil.rhalo g.
Proof.
  unfold GStencil.convolve. intros H.
  destruct (GStencil.compile_all T func (GStencil.queue g) st) as [st1 |];
    simpl in H; [| discriminate].
  destruct (mapM _ _) as [y1 |]; simpl in H; [| discriminate].
  destruct (0 <? GStencil.lhalo g + GStencil.rhalo g);
    injection H as <- _ _; simpl; auto.
Qed.

(** C9, as amended: for a weight sequence of length [L] with
    [1 <= L <= 2^32] (for a matrix of [L] columns in the generalized
    filter, [L <= 2^31] when it is constructed on no queue) and a center
    [c < L], a filter that is constructed has [left_halo = c] and
    [left_halo + right_halo = L - 1], and [convolve] leaves both widths as
    they are. *)
Theorem halo_widths_after_init :
  (forall junk T queue data center st f st',
      (N.of_nat (length data) <= 2 ^ 32)%N ->
      Stencil.init junk T queue data center st = Some (f, st') ->
      Stencil.lhalo f = Z.of_N center
      /\ Stencil.lhalo f + Stencil.rhalo f = Z.of_nat (length data) - 1
      /\ forall x y alpha beta,
          Stencil.lhalo (fst (Stencil.convolve junk f x y alpha beta))
          = Stencil.lhalo f
          /\ Stencil.rhalo (fst (Stencil.convolve junk f x y alpha beta))
             = Stencil.rhalo f)
  /\ (forall junk queue rows cols center data g,
         (cols < 2 ^ 32)%N -> (cols <= 2 ^ 31)%N \/ queue <> [] ->
         GStencil.init junk queue rows cols center data = Some g ->
         GStencil.lhalo g = Z.of_N center
         /\ GStencil.lhalo g + GStencil.rhalo g = Z.of_N cols - 1
         /\ forall call T func x y alpha beta st g' y' st',
             GStencil.convolve junk call T func g x y alpha beta st
             = Some (g', y', st') ->
             GStencil.lhalo g' = GStencil.lhalo g
             /\ GStencil.rhalo g' = GStencil.rhalo g).
Proof.
  split.
  - intros junk T queue data center st f st' Hsize Hinit.
    destruct (init_buffers junk T queue data center st f st' Hinit)
      as (Hhalo & _).
    apply init_inv in Hinit as ((_ & _ & Hc) & _ & Hl & Hr & _).
    assert (N.of_nat (length data) <= 2 ^ 31)%N as Hsmall.
    { rewrite Hl, Hr in Hhalo.
      rewrite (sub64_small _ center) in Hhalo by (pow_consts; lia).
      rewrite sub64_small in Hhalo by (pow_consts; lia).
      apply halo_sum_nonneg in Hhalo; pow_consts; lia. }
    destruct (halo_widths_small _ _ Hc Hsmall) as [H1 H2].
    split; [congruence |]. split; [rewrite Hl, Hr; lia |].
    intros. apply convolve_halos.
  - intros junk queue rows cols center data g Hcols Hqueue Hinit.
    destruct (ginit_halo_buffers junk queue rows cols center data g Hinit)
      as (Hhalo & _).
    apply ginit_inv in Hinit as ((_ & _ & _ & Hc) & _ & Hl & Hr & _).
    assert (cols <= 2 ^ 31)%N as Hsmall.
    { destruct Hqueue as [H | Hne]; [exact H |].
      assert (0 < Z.of_nat (length queue)) as Hq
        by (destruct queue; [congruence | simpl; lia]).
      assert (0 <= add_int (GStencil.lhalo g) (GStencil.rhalo g)) as Hsum
        by nia.
      rewrite Hl, Hr in Hsum.
      rewrite (sub32_small cols center) in Hsum by (pow_consts; lia).
      rewrite sub32_small in Hsum by (pow_consts; lia).
      apply halo_sum_nonneg in Hsum; pow_consts; lia. }
    split; [| split]; [| | intros; eapply gconvolve_halos; eauto].
    + rewrite Hl. apply to_int_small. pow_consts. lia.
    + rewrite Hl, Hr.
      rewrite (sub32_small cols center) by (pow_consts; lia).
      rewrite sub32_small by (pow_consts; lia).
      rewrite !to_int_small by (pow_consts; lia). lia.
Qed.

Lemma halo_widths_after_init_witness :
  exists f st',
    Stencil.init 0 cl_long [sample_queue 0 0 256] [1; -2; 1] 1 initial_state
    = Some (f, st')
    /\ Stencil.lhalo f = 1 /\ Stencil.lhalo f + Stencil.rhalo f = 2.
Proof.
  destruct (Stencil.init 0 cl_long [sample_queue 0 0 256] [1; -2; 1] 1
              initial_state) as [[f st'] |] eqn:Hinit;
    [| vm_compute in Hinit; discriminate].
  exists f, st'. split; [reflexivity |].
  destruct (proj1 halo_widths_after_init 0 cl_long [sample_queue 0 0 256]
              [1; -2; 1] 1%N initial_state f st') as (H1 & H2 & _).
  - vm_compute. discriminate.
  - exact Hinit.
  - split; [exact H1 | exact H2].
Defined.

Lemma sub64_mod32 a b :
  Z.of_N (sub64 a b) mod 2 ^ 32 = (Z.of_N a - Z.of_N b) mod 2 ^ 32.
Proof.
  unfold sub64. rewrite Z2N.id by (apply Z.mod_pos_bound; reflexivity).
  apply Z.mod_mod_divide. exists (2 ^ 32). reflexivity.
Qed.

(** The halo sum of [init] as [hbuf.resize] receives it: the width less
    one, reduced to the range of [int]. *)
Lemma init_halo_sum size center :
  add_int (to_int center) (to_int (sub64 (sub64 size center) 1))
  = (Z.of_N size - 1 + 2 ^ 31) mod 2 ^ 32 - 2 ^ 31.
Proof.
  rewrite add_int_to_int. f_equal.
  replace (Z.of_N center + Z.of_N (sub64 (sub64 size center) 1) + 2 ^ 31)
    with (Z.of_N (sub64 (sub64 size center) 1) + (Z.of_N center + 2 ^ 31))
    by lia.
  rewrite <- Zplus_mod_idemp_l, sub64_mod32, Zplus_mod_idemp_l.
  replace (Z.of_N (sub64 size center) - Z.of_N 1 + (Z.of_N center + 2 ^ 31))
    with (Z.of_N (sub64 size center) + (Z.of_N center + 2 ^ 31 - 1))
    by lia.
  rewrite <- Zplus_mod_idemp_l, sub64_mod32, Zplus_mod_idemp_l.
  f_equal. lia.
Qed.

Lemma int_sign z :
  0 <= (z + 2 ^ 31) mod 2 ^ 32 - 2 ^ 31 <-> z mod 2 ^ 32 < 2 ^ 31.
Proof.
  rewrite <- (Zplus_mod_idemp_l z).
  pose proof (Z.mod_pos_bound z (2 ^ 32) eq_refl) as Hr.
  change (2 ^ 31) with 2147483648 in *. change (2 ^ 32) with 4294967296 in *.
  destruct (Z.lt_ge_cases (z mod 4294967296) 2147483648) as [Hlt | Hge].
  - rewrite Z.mod_small by lia. lia.
  - replace (z mod 4294967296 + 2147483648)
      with (z mod 4294967296 - 2147483648 + 1 * 4294967296) by lia.
    rewrite Z_mod_plus_full, Z.mod_small by lia. lia.
Qed.

Lemma init_device_some T data q st st1 k :
  Stencil.compile T q st = Some st1 ->
  s_conv_local st1 !! q_context q = Some k ->
  Stencil.init_device T data q st
  = Some (Stencil.plan (N.of_nat (length data)) (Stencil.smem T q k)
            (default 0%N (s_wgsize st1 !! q_context q)), st1).
Proof.
  intros Hc Hk. unfold Stencil.init_device. rewrite Hc. simpl.
  rewrite Hk. reflexivity.
Qed.

Lemma init_some junk T queue data center st fks ws st1 :
  (0 < N.of_nat (length queue))%N -> (center < N.of_nat (length data))%N ->
  0 <= add_int (to_int center)
         (to_int (sub64 (sub64 (N.of_nat (length data)) center) 1)) ->
  Stencil.init_devices T data queue st = Some (fks, ws, st1) ->
  exists f, Stencil.init junk T queue data center st = Some (f, st1).
Proof.
  intros Hq Hc Hhalo Hd. unfold Stencil.init.
  assert ((0 <? N.of_nat (length queue)) && (0 <? N.of_nat (length data))
          && (center <? N.of_nat (length data)) = true)%N as ->.
  { rewrite !andb_true_iff, !N.ltb_lt. lia. }
  simpl. rewrite Hd. simpl.
  destruct (resize _) as [hb |] eqn:Hr; simpl; [eauto |].
  unfold resize in Hr.
  destruct (Z.ltb_spec
              (Z.of_nat (length queue)
               * add_int (to_int center)
                   (to_int (sub64 (sub64 (N.of_nat (length data)) center)
                              1))) 0); [nia | discriminate].
Qed.

(** C9 as stated fails beyond the range of [unsigned int]: a filter of
    [2^32 + 2] weights centred at [1] is constructed, and its halo widths
    are [1] and [0]. *)
Lemma halo_widths_counterexample :
  exists f st',
    Stencil.init 0 cl_long [sample_queue 0 0 256]
      (replicate (N.to_nat (2 ^ 32 + 2)) 0) 1 initial_state
    = Some (f, st')
    /\ Stencil.lhalo f = 1 /\ Stencil.rhalo f = 0
    /\ ~ (Stencil.lhalo f = Z.of_N 1
          /\ Stencil.lhalo f + Stencil.rhalo f = Z.of_N (2 ^ 32 + 2) - 1).
Proof.
  remember (replicate (N.to_nat (2 ^ 32 + 2)) 0) as data eqn:Hdata.
  assert (N.of_nat (length data) = 2 ^ 32 + 2)%N as Hlen.
  { subst data. rewrite length_replicate. apply N2Nat.id. }
  assert (exists st1 k,
             Stencil.compile cl_long (sample_queue 0 0 256) initial_state
             = Some st1
             /\ s_conv_local st1 !! q_context (sample_queue 0 0 256) = Some k)
    as (st1 & k & Hc & Hk) by (vm_compute; eauto).
  destruct (init_some 0 cl_long [sample_queue 0 0 256] data 1
              initial_state
              [fst (Stencil.plan (N.of_nat (length data))
                      (Stencil.smem cl_long (sample_queue 0 0 256) k)
                      (default 0%N (s_wgsize st1 !! 0%nat)))]
              [snd (Stencil.plan (N.of_nat (length data))
                      (Stencil.smem cl_long (sample_queue 0 0 256) k)
                      (default 0%N (s_wgsize st1 !! 0%nat)))]
              st1) as [f Hf].
  - reflexivity.
  - rewrite Hlen. reflexivity.
  - rewrite Hlen. vm_compute. discriminate.
  - cbn [Stencil.init_devices].
    rewrite (init_device_some _ _ _ _ _ _ Hc Hk).
    destruct (Stencil.plan _ _ _). reflexivity.
  - exists f, st1. split; [exact Hf |].
    apply init_inv in Hf as (_ & _ & Hl & Hr & _).
    rewrite Hlen in Hr.
    assert (Stencil.lhalo f = 1) as Hl1 by (rewrite Hl; reflexivity).
    assert (Stencil.rhalo f = 0) as Hr0 by (rewrite Hr; reflexivity).
    split; [exact Hl1 |]. split; [exact Hr0 |].
    intros [_ H]. rewrite Hl1, Hr0 in H. vm_compute in H. discriminate.
Qed.

(** ** Compilation service *)

Lemma cache_key_eqb_eq a b : cache_key_eqb a b = true <-> a = b.
Proof.
  destruct a as [c1 | f1 c1], b as [c2 | f2 c2]; simpl;
    rewrite ?andb_true_iff, ?Nat.eqb_eq, ?String.eqb_eq;
    split; intros H; try discriminate; try congruence.
  - destruct H. congruence.
  - injection H as -> ->. auto.
Qed.

Lemma cache_key_eqb_refl a : cache_key_eqb a a = true.
Proof. by apply cache_key_eqb_eq. Qed.

Lemma compile_count_cons key e log :
  compile_count key (e :: log)
  = ((if cache_key_eqb key (fst e) then 1 else 0) + compile_count key log)%nat.
Proof.
  unfold compile_count. rewrite filter_cons.
  destruct (decide (cache_key_eqb key e.1 = true)) as [-> | Hne]; simpl.
  - reflexivity.
  - destruct (cache_key_eqb key e.1); [congruence | reflexivity].
Qed.

Lemma requested_app key k1 k2 :
  requested key (k1 ++ k2) = requested key k1 || requested key k2.
Proof. unfold requested. apply existsb_app. Qed.

Lemma extends_refl st : extends [] st st.
Proof. intros key. simpl. rewrite orb_false_r. auto. Qed.

Lemma extends_trans k1 k2 st st1 st2 :
  extends k1 st st1 -> extends k2 st1 st2 -> extends (k1 ++ k2) st st2.
Proof.
  intros H1 H2 key. destruct (H1 key) as [E1 F1], (H2 key) as [E2 F2].
  rewrite requested_app, E2, E1, orb_assoc. split; [reflexivity |].
  intros Hc. destruct (F1 Hc) as [A1 B1].
  destruct F2 as [A2 B2]; [rewrite E1, Hc; reflexivity |].
  split; congruence.
Qed.

Lemma extends_with_options o st : extends [] (with_options o st) st.
Proof. intros [c | f c]; simpl; rewrite orb_false_r; auto. Qed.

Lemma extends_with_options' o st : extends [] st (with_options o st).
Proof. intros [c | f c]; simpl; rewrite orb_false_r; auto. Qed.

Lemma counted_with_options o st : counted st -> counted (with_options o st).
Proof. intros H [c | f c]; [apply (H (PlainKey c)) | apply (H (GeneralKey f c))]. Qed.

Lemma build_sources_inv q source options st program st' :
  build_sources q source options st = Some (program, st') ->
  exists o,
    st' = with_options o st
    /\ p_context program = q_context q /\ p_source program = source
    /\ p_options program
       = (options ++ " " ++
          fst (get_compile_options (context_device0 q) (ps_options st)))%string
    /\ o = snd (get_compile_options (context_device0 q) (ps_options st)).
Proof.
  unfold build_sources.
  destruct (get_compile_options _ _) as [co o]. simpl.
  destruct (build_ok q source _); [| discriminate].
  intros H. injection H as <- <-. exists o. simpl. auto.
Qed.

Lemma stencil_compile_inv T q st st' :
  Stencil.compile T q st = Some st' ->
  (is_compiled (PlainKey (q_context q)) st = true /\ st' = st)
  \/ (is_compiled (PlainKey (q_context q)) st = false
      /\ exists program st1,
          build_sources q (Stencil.source T) EmptyString st
          = Some (program, st1)
          /\ compilations st'
             = (PlainKey (q_context q), program) :: compilations st
          /\ s_compiled st' = <[q_context q := true]> (s_compiled st)
          /\ g_compiled st' = g_compiled st
          /\ g_conv_local st' = g_conv_local st
          /\ g_conv_remote st' = g_conv_remote st
          /\ g_wgsize st' = g_wgsize st
          /\ ps_options st' = ps_options st1
          /\ (forall c, c <> q_context q ->
                cache_entry (PlainKey c) st' = cache_entry (PlainKey c) st)).
Proof.
  unfold Stencil.compile. simpl.
  destruct (default false (s_compiled st !! q_context q)) eqn:Hc.
  - intros H. injection H as <-. auto.
  - destruct (build_sources q (Stencil.source T) EmptyString st)
      as [[program st1] |] eqn:Hb; simpl; [| discriminate].
    intros H. injection H as <-. right. split; [reflexivity |].
    apply build_sources_inv in Hb as Hb'.
    destruct Hb' as (o & -> & _).
    exists program, (with_options o st). simpl.
    repeat split; try reflexivity.
    intros c Hne. simpl. by rewrite !lookup_insert_ne.
Qed.

Lemma stencil_compile_extends T q st st' :
  Stencil.compile T q st = Some st' ->
  extends [PlainKey (q_context q)] st st' /\ (counted st -> counted st').
Proof.
  intros H. apply stencil_compile_inv in H as [[Hc ->] | (Hc & program & st1 & _ & Hlog & Hs & Hg & Hgl & Hgr & Hgw & _ & Hframe)].
  - split; [| auto]. intros key. split; [| auto].
    unfold requested. simpl. rewrite orb_false_r.
    destruct (cache_key_eqb key _) eqn:E; [| by rewrite orb_false_r].
    apply cache_key_eqb_eq in E as ->. by rewrite Hc.
  - assert (forall key, is_compiled key st'
                        = is_compiled key st
                          || cache_key_eqb key (PlainKey (q_context q))) as Hcomp.
    { intros [c | f c]; simpl.
      - rewrite Hs. destruct (Nat.eqb_spec c (q_context q)) as [-> | Hne].
        + rewrite lookup_insert_eq. simpl. by rewrite orb_true_r.
        + rewrite lookup_insert_ne by auto. by rewrite orb_false_r.
      - rewrite Hg. by rewrite orb_false_r. }
    split.
    + intros key. unfold requested. simpl. rewrite orb_false_r.
      split; [apply Hcomp |]. intros Hk.
      assert (cache_key_eqb key (PlainKey (q_context q)) = false) as Hne.
      { destruct (cache_key_eqb key _) eqn:E; [| reflexivity].
        apply cache_key_eqb_eq in E as ->. congruence. }
      rewrite Hlog, compile_count_cons. simpl. rewrite Hne. split; [| reflexivity].
      destruct key as [c | f c]; simpl.
      * apply Hframe. intros ->. simpl in Hne. by rewrite Nat.eqb_refl in Hne.
      * by rewrite Hgl, Hgr, Hgw.
    + intros Hcnt key. rewrite Hcomp, Hlog, compile_count_cons, Hcnt. simpl.
      destruct (cache_key_eqb key (PlainKey (q_context q))) eqn:E.
      * apply cache_key_eqb_eq in E as ->. rewrite Hc. reflexivity.
      * rewrite orb_false_r. reflexivity.
Qed.

Lemma gstencil_compile_inv T func q st st' :
  GStencil.compile T func q st = Some st' ->
  (is_compiled (GeneralKey (value func) (q_context q)) st = true /\ st' = st)
  \/ (is_compiled (GeneralKey (value func) (q_context q)) st = false
      /\ exists program st1,
          build_sources q (GStencil.source T func) EmptyString st
          = Some (program, st1)
          /\ compilations st'
             = (GeneralKey (value func) (q_context q), program)
               :: compilations st
          /\ g_compiled st'
             = <[(value func, q_context q) := true]> (g_compiled st)
          /\ s_compiled st' = s_compiled st
          /\ s_conv_local st' = s_conv_local st
          /\ s_conv_local_big st' = s_conv_local_big st
          /\ s_conv_remote st' = s_conv_remote st
          /\ s_wgsize st' = s_wgsize st
          /\ ps_options st' = ps_options st1
          /\ (forall k, k <> (value func, q_context q) ->
                cache_entry (GeneralKey k.1 k.2) st'
                = cache_entry (GeneralKey k.1 k.2) st)).
Proof.
  unfold GStencil.compile. simpl.
  destruct (default false (g_compiled st !! (value func, q_context q))) eqn:Hc.
  - intros H. injection H as <-. auto.
  - destruct (build_sources q (GStencil.source T func) EmptyString st)
      as [[program st1] |] eqn:Hb; simpl; [| discriminate].
    intros H. injection H as <-. right. split; [reflexivity |].
    apply build_sources_inv in Hb as Hb'.
    destruct Hb' as (o & -> & _).
    exists program, (with_options o st). simpl.
    repeat split; try reflexivity.
    intros [f c] Hne. simpl. by rewrite !lookup_insert_ne.
Qed.

Lemma gstencil_compile_extends T func q st st' :
  GStencil.compile T func q st = Some st' ->
  extends [GeneralKey (value func) (q_context q)] st st'
  /\ (counted st -> counted st').
Proof.
  intros H.
  apply gstencil_compile_inv in H
    as [[Hc ->] | (Hc & program & st1 & _ & Hlog & Hg & Hs & Hsl & Hsb & Hsr
                   & Hsw & _ & Hframe)].
  - split; [| auto]. intros key. split; [| auto].
    unfold requested. simpl. rewrite orb_false_r.
    destruct (cache_key_eqb key _) eqn:E; [| by rewrite orb_false_r].
    apply cache_key_eqb_eq in E as ->. by rewrite Hc.
  - assert (forall key,
               is_compiled key st'
               = is_compiled key st
                 || cache_key_eqb key (GeneralKey (value func) (q_context q)))
      as Hcomp.
    { intros [c | f c]; simpl.
      - rewrite Hs. by rewrite orb_false_r.
      - rewrite Hg.
        destruct (String.eqb_spec f (value func)) as [-> | Hne]; simpl.
        + destruct (Nat.eqb_spec c (q_context q)) as [-> | Hne].
          * rewrite lookup_insert_eq. simpl. by rewrite orb_true_r.
          * rewrite lookup_insert_ne by congruence. by rewrite orb_false_r.
        + rewrite lookup_insert_ne by congruence. by rewrite orb_false_r. }
    split.
    + intros key. unfold requested. simpl. rewrite orb_false_r.
      split; [apply Hcomp |]. intros Hk.
      assert (cache_key_eqb key (GeneralKey (value func) (q_context q)) = false)
        as Hne.
      { destruct (cache_key_eqb key _) eqn:E; [| reflexivity].
        apply cache_key_eqb_eq in E as ->. congruence. }
      rewrite Hlog, compile_count_cons. simpl. rewrite Hne.
      split; [| reflexivity].
      destruct key as [c | f c]; simpl.
      * by rewrite Hsl, Hsb, Hsr, Hsw.
      * apply (Hframe (f, c)). intros E. injection E as -> ->.
        by rewrite cache_key_eqb_refl in Hne.
    + intros Hcnt key. rewrite Hcomp, Hlog, compile_count_cons, Hcnt. simpl.
      destruct (cache_key_eqb key _) eqn:E.
      * apply cache_key_eqb_eq in E as ->. rewrite Hc. reflexivity.
      * rewrite orb_false_r. reflexivity.
Qed.

Lemma init_devices_extends T data queue st fks ws st' :
  Stencil.init_devices T data queue st = Some (fks, ws, st') ->
  extends (map (fun q => PlainKey (q_context q)) queue) st st'
  /\ (counted st -> counted st').
Proof.
  revert st fks ws st'. induction queue as [| q queue IH]; simpl;
    intros st fks ws st' H.
  - injection H as _ _ <-. split; [apply extends_refl | auto].
  - unfold Stencil.init_device in H.
    destruct (Stencil.compile T q st) as [st1 |] eqn:Hc; simpl in H;
      [| discriminate].
    destruct (s_conv_local st1 !! q_context q); simpl in H; [| discriminate].
    destruct (Stencil.plan _ _ _) as [fk w]. simpl in H.
    destruct (Stencil.init_devices T data queue st1) as [[[fks' ws'] st2] |]
      eqn:Hd; simpl in H; [| discriminate].
    injection H as _ _ <-.
    apply stencil_compile_extends in Hc as [E1 C1].
    apply IH in Hd as [E2 C2].
    split; [| auto].
    apply (extends_trans [_] _ _ _ _ E1 E2).
Qed.

Lemma compile_all_extends T func queue st st' :
  GStencil.compile_all T func queue st = Some st' ->
  extends (map (fun q => GeneralKey (value func) (q_context q)) queue) st st'
  /\ (counted st -> counted st').
Proof.
  revert st st'. induction queue as [| q queue IH]; simpl; intros st st' H.
  - injection H as <-. split; [apply extends_refl | auto].
  - destruct (GStencil.compile T func q st) as [st1 |] eqn:Hc; simpl in H;
      [| discriminate].
    apply gstencil_compile_extends in Hc as [E1 C1].
    apply IH in H as [E2 C2].
    split; [| auto].
    apply (extends_trans [_] _ _ _ _ E1 E2).
Qed.

Lemma run_call_extends junk bc T c st st' :
  run_call junk bc T c st = Some st' ->
  extends (keys_of_call c) st st' /\ (counted st -> counted st').
Proof.
  destruct c as [queue data center | func f x y alpha beta | dev str | dev
                 | dev str | dev]; simpl; intros H;
    try (injection H as <-;
         split; [apply extends_with_options' | apply counted_with_options]).
  - destruct (Stencil.init junk T queue data center st) as [[f st1] |] eqn:Hi;
      simpl in H; [| discriminate].
    injection H as <-.
    unfold Stencil.init in Hi.
    destruct (negb _); [discriminate |].
    destruct (Stencil.init_devices T data queue st) as [[[fks ws] st2] |] eqn:Hd;
      simpl in Hi; [| discriminate].
    destruct (resize _) as [hb |]; simpl in Hi; [| discriminate].
    injection Hi as _ <-. by apply init_devices_extends in Hd.
  - destruct (GStencil.convolve junk bc T func f x y alpha beta st)
      as [[[f' y'] st1] |] eqn:Hi; simpl in H; [| discriminate].
    injection H as <-.
    unfold GStencil.convolve in Hi.
    destruct (GStencil.compile_all T func (GStencil.queue f) st) as [st2 |]
      eqn:Hd; simpl in Hi; [| discriminate].
    destruct (mapM _ _); simpl in Hi; [| discriminate].
    destruct (0 <? _); injection Hi as _ _ <-;
      by apply compile_all_extends in Hd.
Qed.

Lemma run_calls_extends junk bc T cs st st' :
  run_calls junk bc T cs st = Some st' ->
  extends (keys_of_calls cs) st st' /\ (counted st -> counted st').
Proof.
  revert st st'. induction cs as [| c cs IH]; simpl; intros st st' H.
  - injection H as <-. split; [apply extends_refl | auto].
  - destruct (run_call junk bc T c st) as [st1 |] eqn:Hc; simpl in H;
      [| discriminate].
    apply run_call_extends in Hc as [E1 C1].
    apply IH in H as [E2 C2].
    split; [| auto].
    apply (extends_trans _ _ _ _ _ E1 E2).
Qed.

Lemma counted_initial : counted initial_state.
Proof. intros [c | f c]; reflexivity. Qed.

(** C8: in every history of calls of a process, the compilation counter of
    a cache key (the context for the plain filter, the transform and the
    context for the generalized filter) is one if a call looked the key up
    and zero otherwise; and a call made once the key is populated leaves its
    counter and its cached kernels and work-group size as they are. *)
Theorem compile_once junk bc T :
  (forall cs st,
      run_calls junk bc T cs initial_state = Some st ->
      forall key,
        compile_count key (compilations st)
        = if requested key (keys_of_calls cs) then 1%nat else 0%nat)
  /\ (forall c st st' key,
         is_compiled key st = true ->
         run_call junk bc T c st = Some st' ->
         compile_count key (compilations st')
         = compile_count key (compilations st)
         /\ cache_entry key st' = cache_entry key st
         /\ is_compiled key st' = true).
Proof.
  split.
  - intros cs st H key.
    apply run_calls_extends in H as [E C].
    rewrite (C counted_initial key). destruct (E key) as [-> _].
    destruct key; reflexivity.
  - intros c st st' key Hk H.
    apply run_call_extends in H as [E _].
    destruct (E key) as [E1 E2]. destruct (E2 Hk) as [A B].
    rewrite E1, Hk. auto.
Qed.

Lemma compile_once_witness :
  exists st,
    run_calls 0 (fun _ z => z) cl_long sample_history initial_state = Some st
    /\ compile_count (PlainKey 0) (compilations st) = 1%nat
    /\ compile_count (GeneralKey "cos" 0) (compilations st) = 1%nat
    /\ compile_count (GeneralKey "tan" 0) (compilations st) = 0%nat.
Proof.
  destruct (run_calls 0 (fun _ z => z) cl_long sample_history initial_state)
    as [st |] eqn:H; [| vm_compute in H; discriminate].
  exists st. split; [reflexivity |].
  rewrite !(proj1 (compile_once 0 (fun _ z => z) cl_long) sample_history st H).
  vm_compute. auto.
Defined.

(** C7 at a failing input: a header and compile flags are pushed for the
    device before the first filter of its context is constructed.  The
    program is built with the flags on top of the stack, but its source is
    the text generated without any header: it starts with the [1] the stream
    prints for the name of [standard_kernel_header], never with the header
    that was pushed. *)
Theorem program_header_not_applied (header flags : string) :
  option_map compilations
    (run_calls 0 (fun _ z => z) cl_long
       [PushProgramHeader 0 header; PushCompileOptions 0 flags;
        StencilInit [sample_queue 0 0 256] [1; -2; 1] 1]
       initial_state)
  = Some [(PlainKey 0,
           {| p_context := 0; p_source := Stencil.source cl_long;
              p_options := (" " ++ flags)%string |})]
  /\ String.prefix "1typedef long real;" (Stencil.source cl_long) = true
  /\ String.prefix fp64_pragmas (Stencil.source cl_long) = false.
Proof.
  split; [| split]; reflexivity.
Qed.

(** ** Generalized filter: the transform at the edges *)

(** C4 at a failing input: the one-row matrix [(1 1)] centred at column 0 on
    one device, input [[1; 2]], [alpha = 0], [beta = 1].  The interior
    output at index 0 passes its windowed sum [3] through the selected
    transform; the right-edge output at index 1 passes its windowed sum [4]
    through [sin], whatever transform was selected. *)
Theorem right_edge_applies_sin (junk : Z) (call : string -> Z -> Z)
  (func : builtin) :
  option_map (fun r => snd (fst r))
    (GStencil.convolve junk call cl_long func sample_gstencil
       [[1; 2]] [[0; 0]] 0 1 initial_state)
  = Some [[call (value func) 3; call "sin" 4]].
Proof.
  destruct func; vm_compute;
    repeat f_equal;
    match goal with |- context [call ?f ?v] => destruct (call f v); reflexivity end.
Qed.

(** ** The scenarios of the specification *)

(** C2 as stated fails at index 1: the interior output there is
    [1*1 - 2*2 + 1*4], which is [1] and not [-1]. *)
Lemma laplacian_index_1_counterexample :
  exists f st',
    Stencil.init 0 cl_long [sample_queue 0 0 256] [1; -2; 1] 1 initial_state
    = Some (f, st')
    /\ rd 0 (part (snd (Stencil.convolve 0 f [[1; 2; 4; 8; 16]]
                          [[0; 0; 0; 0; 0]] 0 1)) 0) 1
       <> -1.
Proof.
  destruct (Stencil.init 0 cl_long [sample_queue 0 0 256] [1; -2; 1] 1
              initial_state) as [[f st'] |] eqn:Hinit;
    [| vm_compute in Hinit; discriminate].
  exists f, st'. split; [reflexivity |].
  vm_compute in Hinit. injection Hinit as <- _.
  vm_compute. discriminate.
Qed.

(** C1 at a failing input: weights [[1; 1; 1]] centred at 2, work-group size
    4, input [[1; 2; 4; 8; 16]].  On one device the fast kernel computes the
    last output from a local-memory slot that no work-item staged, where two
    devices holding [[1; 2; 4]] and [[8; 16]] compute [4 + 8 + 16]. *)
Theorem fast_kernel_unstaged_halo (junk : Z) :
  construct_and_convolve junk cl_long [sample_queue 0 0 4] [1; 1; 1] 2
    initial_state [[1; 2; 4; 8; 16]] [[0; 0; 0; 0; 0]] 0 1
  = Some [[3; 4; 7; 14; 4 + junk + 16]]
  /\ construct_and_convolve junk cl_long
       [sample_queue 0 0 4; sample_queue 0 1 4] [1; 1; 1] 2
       initial_state [[1; 2; 4]; [8; 16]] [[0; 0; 0]; [0; 0]] 0 1
     = Some [[3; 4; 7]; [14; 28]].
Proof.
  split; [| vm_compute; reflexivity].
  transitivity (Some [[3; 4; 7; 14; 1 * (4 + 1 * junk + 16)]]).
  - vm_compute. reflexivity.
  - replace (1 * (4 + 1 * junk + 16)) with (4 + junk + 16) by lia.
    reflexivity.
Qed.


(** ** Buffers *)

Section Buffers.

Variable junk : Z.

Lemma length_wr y i v : length (wr y i v) = length y.
Proof. unfold wr. destruct (_ && _); [apply length_insert | reflexivity]. Qed.

Lemma in_range_true (y : list Z) i :
  0 <= i < Z.of_nat (length y) ->
  (0 <=? i) && (i <? Z.of_nat (length y)) = true.
Proof. intros H. apply andb_true_iff. split; [apply Z.leb_le | apply Z.ltb_lt]; lia. Qed.

Lemma in_range_false (y : list Z) i :
  ~ 0 <= i < Z.of_nat (length y) ->
  (0 <=? i) && (i <? Z.of_nat (length y)) = false.
Proof.
  intros H. apply andb_false_iff.
  destruct (Z.leb_spec 0 i); [right; apply Z.ltb_ge; lia | left; reflexivity].
Qed.

Lemma rd_wr_eq y i v :
  0 <= i < Z.of_nat (length y) -> rd junk (wr y i v) i = v.
Proof.
  intros H. unfold rd, wr. rewrite (in_range_true y i H).
  rewrite length_insert, (in_range_true y i H).
  apply nth_lookup_Some. apply list_lookup_insert_eq. lia.
Qed.

Lemma rd_wr_ne y i j v : i <> j -> rd junk (wr y i v) j = rd junk y j.
Proof.
  intros Hne. unfold rd, wr.
  destruct ((0 <=? i) && (i <? Z.of_nat (length y))) eqn:Hi; [| reflexivity].
  rewrite length_insert.
  destruct ((0 <=? j) && (j <? Z.of_nat (length y))) eqn:Hj; [| reflexivity].
  apply andb_true_iff in Hi as [Hi1 Hi2]. apply andb_true_iff in Hj as [Hj1 Hj2].
  apply Z.leb_le in Hi1, Hj1. apply Z.ltb_lt in Hi2, Hj2.
  rewrite !nth_lookup. rewrite list_lookup_insert_ne by lia. reflexivity.
Qed.

Lemma rd_wr y i j v :
  0 <= j < Z.of_nat (length y) ->
  rd junk (wr y i v) j = if j =? i then v else rd junk y j.
Proof.
  intros H. destruct (Z.eqb_spec j i) as [-> | Hne].
  - by apply rd_wr_eq.
  - apply rd_wr_ne. congruence.
Qed.

Lemma rd_in_range (y : list Z) i :
  0 <= i < Z.of_nat (length y) -> rd junk y i = nth (Z.to_nat i) y junk.
Proof. intros H. unfold rd. by rewrite in_range_true. Qed.

Lemma rd_outside (y : list Z) i :
  ~ 0 <= i < Z.of_nat (length y) -> rd junk y i = junk.
Proof. intros H. unfold rd. by rewrite in_range_false. Qed.

(** Two buffers of the same length with the same content are equal. *)
Lemma buffer_ext (y y' : list Z) :
  length y = length y' ->
  (forall i, 0 <= i < Z.of_nat (length y) -> rd junk y i = rd junk y' i) ->
  y = y'.
Proof.
  intros Hlen H. apply list_eq_same_length with (n := length y); auto.
  intros i a b Hi Ha Hb.
  specialize (H (Z.of_nat i) ltac:(lia)).
  rewrite !rd_in_range in H by lia. rewrite Nat2Z.id in H.
  rewrite (nth_lookup_Some _ _ _ _ Ha), (nth_lookup_Some _ _ _ _ Hb) in H.
  exact H.
Qed.

(** ** Launches *)

(** case analysis on the comparisons of the goal *)
Ltac zcases :=
  repeat match goal with
    | |- context [?a <? ?b] => destruct (Z.ltb_spec a b)
    | |- context [?a <=? ?b] => destruct (Z.leb_spec a b)
    | |- context [?a =? ?b] => destruct (Z.eqb_spec a b)
    end;
  simpl; try lia; try reflexivity.

(** A launch of a kernel whose work-item [g] rewrites the element at
    [base + g] and nothing else. *)
Lemma launch_single_cell (cond : Z -> bool) (base : Z) (F : Z -> Z -> Z)
  (kernel : Z -> list Z -> list Z) :
  (forall g y, kernel g y
               = if cond g then wr y (base + g) (F g (rd junk y (base + g)))
                 else y) ->
  forall m y,
    length (launch kernel m y) = length y
    /\ forall i, 0 <= i < Z.of_nat (length y) ->
         rd junk (launch kernel m y) i
         = if (0 <=? i - base) && (i - base <? m) && cond (i - base)
           then F (i - base) (rd junk y i) else rd junk y i.
Proof.
  intros Hk m y. unfold launch.
  destruct (Z.le_gt_cases m 0) as [Hm | Hm].
  { rewrite seqZ_nil by lia. simpl. split; [reflexivity |]. intros i Hi.
    zcases. }
  rewrite <- (Z2Nat.id m) by lia. clear Hm.
  induction (Z.to_nat m) as [| k IH].
  - simpl. split; [reflexivity |]. intros i Hi. zcases.
  - rewrite seqZ_S, fold_left_app. simpl. destruct IH as [IHlen IH].
    rewrite Hk. split.
    + destruct (cond _); [rewrite length_wr |]; exact IHlen.
    + intros i Hi. specialize (IH i Hi).
      destruct (cond (0 + Z.of_nat k)) eqn:Hc.
      * rewrite rd_wr by lia.
        destruct (Z.eqb_spec i (base + (0 + Z.of_nat k))) as [-> | Hne].
        -- rewrite IH.
           replace (base + (0 + Z.of_nat k) - base) with (0 + Z.of_nat k) by lia.
           rewrite Hc. zcases.
        -- rewrite IH. zcases.
      * rewrite IH.
        destruct (Z.eq_dec (i - base) (0 + Z.of_nat k)) as [E | E].
        -- rewrite E, Hc, !andb_false_r. reflexivity.
        -- zcases.
Qed.

(** ** Sums *)

Lemma fold_add_acc (f : Z -> Z) l a :
  fold_left (fun acc k => acc + f k) l a = a + Zsum f l.
Proof.
  unfold Zsum. revert a. induction l as [| k l IH] using rev_ind; intros a.
  - simpl. lia.
  - rewrite !fold_left_app. simpl. rewrite IH. lia.
Qed.

Lemma Zsum_nil f : Zsum f [] = 0.
Proof. reflexivity. Qed.

Lemma Zsum_app f l1 l2 : Zsum f (l1 ++ l2) = Zsum f l1 + Zsum f l2.
Proof. unfold Zsum at 1. rewrite fold_left_app. apply fold_add_acc. Qed.

Lemma Zsum_cons f k l : Zsum f (k :: l) = f k + Zsum f l.
Proof. apply (Zsum_app f [k] l). Qed.

Lemma Zsum_snoc f k l : Zsum f (l ++ [k]) = Zsum f l + f k.
Proof. rewrite Zsum_app, Zsum_cons, Zsum_nil. lia. Qed.

Lemma Zsum_ext f g l :
  (forall k, k ∈ l -> f k = g k) -> Zsum f l = Zsum g l.
Proof.
  induction l as [| k l IH]; intros H; [reflexivity |].
  rewrite !Zsum_cons, IH, (H k); [reflexivity | left |].
  intros k' Hk'. apply H. by right.
Qed.

Lemma Zsum_zero f l : (forall k, k ∈ l -> f k = 0) -> Zsum f l = 0.
Proof.
  induction l as [| k l IH]; intros H; [reflexivity |].
  rewrite Zsum_cons, IH, (H k); [reflexivity | left |].
  intros k' Hk'. apply H. by right.
Qed.

Lemma Zsum_plus f g l :
  Zsum (fun k => f k + g k) l = Zsum f l + Zsum g l.
Proof.
  induction l as [| k l IH]; [reflexivity |]. rewrite !Zsum_cons, IH. lia.
Qed.

(** A conditional accumulation loop is the sum of the guarded terms. *)
Lemma fold_guarded (c : Z -> bool) (f : Z -> Z) l a :
  fold_left (fun sum k => if c k then sum + f k else sum) l a
  = a + Zsum (fun k => if c k then f k else 0) l.
Proof.
  revert a. induction l as [| k l IH]; intros a; simpl.
  - rewrite Zsum_nil. lia.
  - rewrite IH, Zsum_cons. destruct (c k); lia.
Qed.

(** ** The kernels as single-cell updates *)

Lemma conv_local_big_eq n lhalo rhalo x s alpha beta g_id y :
  Stencil.conv_local_big junk n lhalo rhalo x s alpha beta g_id y
  = if g_id <? n
    then wr y g_id
           (blend alpha beta (rd junk y g_id)
              (interior_sum n lhalo rhalo (rd junk s) (rd junk x) g_id))
    else y.
Proof.
  unfold Stencil.conv_local_big, interior_sum, window.
  destruct (g_id <? n); [| reflexivity].
  rewrite (fold_guarded (fun k => (0 <=? g_id + k) && (g_id + k <? n))
             (fun k => rd junk s (lhalo + k) * rd junk x (g_id + k))).
  reflexivity.
Qed.

Lemma conv_local_compute_eq n lhalo rhalo alpha beta g_id l_id loc y :
  Stencil.conv_local_compute junk n lhalo rhalo alpha beta g_id l_id loc y
  = if g_id <? n
    then wr y g_id
           (blend alpha beta (rd junk y g_id)
              (interior_sum n lhalo rhalo loc
                 (fun p => loc (lhalo + rhalo + 1 + lhalo + (p - (g_id - l_id))))
                 g_id))
    else y.
Proof.
  unfold Stencil.conv_local_compute, interior_sum, window.
  destruct (g_id <? n); [| reflexivity].
  rewrite (fold_guarded (fun k => (0 <=? g_id + k) && (g_id + k <? n))
             (fun k => loc (0 + lhalo + k)
                       * loc (lhalo + rhalo + 1 + lhalo + (l_id + k)))).
  simpl. do 2 f_equal. apply Zsum_ext. intros k _.
  destruct (_ && _); [| reflexivity].
  do 2 f_equal; lia.
Qed.

Lemma conv_remote_eq n has_left has_right lhalo rhalo x h s beta g_id y :
  Stencil.conv_remote junk n has_left has_right lhalo rhalo x h s beta g_id y
  = let y1 :=
      if g_id <? lhalo
      then wr y g_id
             (rd junk y g_id
              + beta * left_sum lhalo (rd junk s)
                         (left_tap junk has_left lhalo x h) g_id)
      else y in
    if g_id <? rhalo
    then wr y1 (n - rhalo + g_id)
           (rd junk y1 (n - rhalo + g_id)
            + beta * right_sum lhalo rhalo (rd junk s)
                       (right_tap junk has_right n lhalo x h) g_id)
    else y1.
Proof.
  unfold Stencil.conv_remote, left_sum, right_sum, left_tap, right_tap.
  rewrite (fold_guarded (fun k => g_id + k <? 0)
             (fun k => rd junk s (lhalo + k)
                       * (if has_left then rd junk h (lhalo + (g_id + k))
                          else rd junk x 0))).
  rewrite (fold_guarded (fun k => 0 <=? g_id + k - rhalo)
             (fun k => rd junk s (lhalo + k)
                       * (if has_right
                          then rd junk h (lhalo + (g_id + k - rhalo))
                          else rd junk x (n - 1)))).
  reflexivity.
Qed.

(** ** Launches of the three kernels *)

(** A launch in work-groups of a kernel whose work-item [g] rewrites, after
    the barrier, the element at [g] and nothing else. *)
Lemma launch_groups_single_cell (n : Z) (F : (Z -> Z) -> Z -> Z -> Z -> Z)
  (stage : Z -> Z -> (Z -> Z) -> Z -> Z)
  (compute : Z -> Z -> (Z -> Z) -> list Z -> list Z) (block_size : Z) :
  0 < block_size ->
  (forall g l loc y,
      compute g l loc y
      = if g <? n then wr y g (F loc g l (rd junk y g)) else y) ->
  forall groups y,
    let y' := fold_left (fun y group =>
                           run_group junk stage compute block_size group y)
                (seqZ 0 groups) y in
    length y' = length y
    /\ forall i, 0 <= i < Z.of_nat (length y) ->
         rd junk y' i
         = if (i <? groups * block_size) && (i <? n)
           then F (staged_local junk stage block_size (i / block_size)) i
                  (i mod block_size) (rd junk y i)
           else rd junk y i.
Proof.
  intros HB Hc groups y.
  destruct (Z.le_gt_cases groups 0) as [Hg | Hg].
  { rewrite seqZ_nil by lia. simpl. split; [reflexivity |]. intros i Hi.
    destruct (Z.ltb_spec i (groups * block_size)); [nia | reflexivity]. }
  rewrite <- (Z2Nat.id groups) by lia. clear Hg.
  induction (Z.to_nat groups) as [| k IH].
  - simpl. split; [reflexivity |]. intros i Hi. zcases.
  - rewrite seqZ_S, fold_left_app. simpl. destruct IH as [IHlen IH].
    set (y1 := fold_left _ (seqZ 0 (Z.of_nat k)) y) in *.
    pose proof (launch_single_cell
                  (fun l => (0 + Z.of_nat k) * block_size + l <? n)
                  ((0 + Z.of_nat k) * block_size)
                  (fun l v =>
                     F (staged_local junk stage block_size (0 + Z.of_nat k))
                       ((0 + Z.of_nat k) * block_size + l) l v)
                  (fun l y =>
                     compute ((0 + Z.of_nat k) * block_size + l) l
                       (staged_local junk stage block_size (0 + Z.of_nat k)) y))
      as Hl.
    destruct (Hl ltac:(intros; apply Hc) block_size y1) as [Hlen Hrd].
    unfold launch in Hlen, Hrd. unfold run_group.
    fold (staged_local junk stage block_size (0 + Z.of_nat k)).
    split; [congruence |].
    intros i Hi. rewrite Hrd by lia. rewrite IH by lia.
    assert (Z.of_nat (S k) * block_size
            = Z.of_nat k * block_size + block_size) as E by lia.
    rewrite E. clear Hl Hlen Hrd E.
    change (0 + Z.of_nat k) with (Z.of_nat k).
    destruct (Z.ltb_spec i (Z.of_nat k * block_size)) as [H1 | H1].
    + (* an earlier group *)
      replace (0 <=? i - Z.of_nat k * block_size) with false
        by (symmetry; apply Z.leb_gt; lia).
      replace (i <? Z.of_nat k * block_size + block_size) with true
        by (symmetry; apply Z.ltb_lt; lia).
      reflexivity.
    + replace (0 <=? i - Z.of_nat k * block_size) with true
        by (symmetry; apply Z.leb_le; lia).
      destruct (Z.ltb_spec i (Z.of_nat k * block_size + block_size)) as [H2 | H2].
      * (* this group *)
        replace (i - Z.of_nat k * block_size <? block_size) with true
          by (symmetry; apply Z.ltb_lt; lia).
        replace (Z.of_nat k * block_size + (i - Z.of_nat k * block_size))
          with i by lia.
        assert (i / block_size = Z.of_nat k) as Hdiv.
        { symmetry. apply (Z.div_unique i block_size (Z.of_nat k)
                             (i - Z.of_nat k * block_size)); lia. }
        assert (i mod block_size = i - Z.of_nat k * block_size) as Hmod.
        { symmetry. apply (Z.mod_unique i block_size (Z.of_nat k)); lia. }
        rewrite Hdiv, Hmod. simpl. reflexivity.
      * replace (i - Z.of_nat k * block_size <? block_size) with false
          by (symmetry; apply Z.ltb_ge; lia).
        reflexivity.
Qed.

Lemma launch_conv_local_big n lhalo rhalo x s alpha beta g_size y :
  let y' := launch (Stencil.conv_local_big junk n lhalo rhalo x s alpha beta)
              g_size y in
  length y' = length y
  /\ forall i, 0 <= i < Z.of_nat (length y) ->
       rd junk y' i
       = if (i <? g_size) && (i <? n)
         then blend alpha beta (rd junk y i)
                (interior_sum n lhalo rhalo (rd junk s) (rd junk x) i)
         else rd junk y i.
Proof.
  destruct (launch_single_cell (fun g => g <? n) 0
              (fun g v => blend alpha beta v
                            (interior_sum n lhalo rhalo (rd junk s)
                               (rd junk x) g))
              (Stencil.conv_local_big junk n lhalo rhalo x s alpha beta))
    with (m := g_size) (y := y) as [Hlen Hrd].
  { intros g y0. rewrite conv_local_big_eq. reflexivity. }
  split; [exact Hlen |]. intros i Hi. rewrite Hrd by lia.
  rewrite Z.sub_0_r.
  replace (0 <=? i) with true by (symmetry; apply Z.leb_le; lia).
  reflexivity.
Qed.

(** the sum the fast kernel forms for [g_id] out of the staged local
    memory of its work-group *)
Lemma launch_conv_local n lhalo rhalo x s alpha beta g_size block_size y :
  0 < block_size ->
  let stage := Stencil.conv_local_stage junk n lhalo rhalo x s block_size in
  let y' := launch_groups junk stage
              (Stencil.conv_local_compute junk n lhalo rhalo alpha beta)
              g_size block_size y in
  length y' = length y
  /\ forall i, 0 <= i < Z.of_nat (length y) ->
       rd junk y' i
       = if (i <? g_size / block_size * block_size) && (i <? n)
         then
           let loc := staged_local junk stage block_size (i / block_size) in
           blend alpha beta (rd junk y i)
             (interior_sum n lhalo rhalo loc
                (fun p => loc (lhalo + rhalo + 1 + lhalo
                               + (p - (i - i mod block_size))))
                i)
         else rd junk y i.
Proof.
  intros HB stage. unfold launch_groups.
  apply (launch_groups_single_cell n
           (fun loc g l v =>
              blend alpha beta v
                (interior_sum n lhalo rhalo loc
                   (fun p => loc (lhalo + rhalo + 1 + lhalo + (p - (g - l))))
                   g))
           stage _ block_size HB).
  intros g l loc y0. apply conv_local_compute_eq.
Qed.

Lemma conv_remote_item n has_left has_right lhalo rhalo x h s beta g y :
  let y' := Stencil.conv_remote junk n has_left has_right lhalo rhalo x h s
              beta g y in
  let lsum := left_sum lhalo (rd junk s) (left_tap junk has_left lhalo x h) in
  let rsum := right_sum lhalo rhalo (rd junk s)
                (right_tap junk has_right n lhalo x h) in
  length y' = length y
  /\ forall i, 0 <= i < Z.of_nat (length y) ->
       rd junk y' i
       = rd junk y i
         + beta * ((if (i =? g) && (g <? lhalo) then lsum g else 0)
                   + (if (i =? n - rhalo + g) && (g <? rhalo)
                      then rsum g else 0)).
Proof.
  intros y' lsum rsum. subst y'. rewrite conv_remote_eq.
  fold lsum. fold rsum. simpl. split.
  - destruct (g <? rhalo), (g <? lhalo); rewrite ?length_wr; reflexivity.
  - intros i Hi.
    destruct (Z.eqb_spec i (n - rhalo + g)) as [E1 | E1];
      [rewrite <- E1 |];
      (destruct (Z.eqb_spec i g) as [E2 | E2]; [rewrite <- E2 |]);
      destruct (i <? lhalo) eqn:El', (i <? rhalo) eqn:Er';
      destruct (g <? lhalo) eqn:El, (g <? rhalo) eqn:Er; simpl;
      repeat first [ rewrite rd_wr_eq by (rewrite ?length_wr; lia)
                   | rewrite rd_wr_ne by lia ];
      try ring; subst; congruence.
Qed.

Lemma remote_total_step n lhalo rhalo k lsum rsum i :
  0 <= k ->
  remote_total n lhalo rhalo (k + 1) lsum rsum i
  = remote_total n lhalo rhalo k lsum rsum i
    + ((if (i =? k) && (k <? lhalo) then lsum k else 0)
       + (if (i =? n - rhalo + k) && (k <? rhalo) then rsum k else 0)).
Proof.
  intros Hk. unfold remote_total.
  assert ((if (0 <=? i) && (i <? lhalo) && (i <? k + 1) then lsum i else 0)
          = (if (0 <=? i) && (i <? lhalo) && (i <? k) then lsum i else 0)
            + (if (i =? k) && (k <? lhalo) then lsum k else 0)) as ->.
  { destruct (Z.eqb_spec i k) as [-> | Hne]; zcases. }
  assert ((if (0 <=? i - (n - rhalo)) && (i - (n - rhalo) <? rhalo)
              && (i - (n - rhalo) <? k + 1)
           then rsum (i - (n - rhalo)) else 0)
          = (if (0 <=? i - (n - rhalo)) && (i - (n - rhalo) <? rhalo)
                && (i - (n - rhalo) <? k)
             then rsum (i - (n - rhalo)) else 0)
            + (if (i =? n - rhalo + k) && (k <? rhalo) then rsum k else 0))
    as ->.
  { destruct (Z.eqb_spec i (n - rhalo + k)) as [-> | Hne].
    - replace (n - rhalo + k - (n - rhalo)) with k by lia. zcases.
    - zcases. }
  ring.
Qed.

Lemma launch_conv_remote n has_left has_right lhalo rhalo x h s beta g_size y :
  let y' := launch (Stencil.conv_remote junk n has_left has_right lhalo rhalo
                      x h s beta) g_size y in
  let lsum := left_sum lhalo (rd junk s) (left_tap junk has_left lhalo x h) in
  let rsum := right_sum lhalo rhalo (rd junk s)
                (right_tap junk has_right n lhalo x h) in
  length y' = length y
  /\ forall i, 0 <= i < Z.of_nat (length y) ->
       rd junk y' i
       = rd junk y i + beta * remote_total n lhalo rhalo g_size lsum rsum i.
Proof.
  intros y' lsum rsum. subst y'. unfold launch.
  destruct (Z.le_gt_cases g_size 0) as [Hg | Hg].
  { rewrite seqZ_nil by lia. simpl. split; [reflexivity |]. intros i Hi.
    unfold remote_total.
    destruct (Z.leb_spec 0 (i - (n - rhalo))),
      (Z.ltb_spec (i - (n - rhalo)) g_size), (Z.ltb_spec i g_size);
      try lia; rewrite ?andb_false_r; simpl; ring. }
  rewrite <- (Z2Nat.id g_size) by lia. clear Hg.
  induction (Z.to_nat g_size) as [| k IH].
  - simpl. split; [reflexivity |]. intros i Hi. unfold remote_total.
    destruct (Z.leb_spec 0 (i - (n - rhalo))),
      (Z.ltb_spec (i - (n - rhalo)) (Z.of_nat 0)), (Z.ltb_spec i (Z.of_nat 0));
      try lia; rewrite ?andb_false_r; simpl; ring.
  - rewrite seqZ_S, fold_left_app. simpl. destruct IH as [IHlen IH].
    destruct (conv_remote_item n has_left has_right lhalo rhalo x h s beta
                (0 + Z.of_nat k)
                (fold_left (fun y g_id =>
                              Stencil.conv_remote junk n has_left has_right
                                lhalo rhalo x h s beta g_id y)
                   (seqZ 0 (Z.of_nat k)) y)) as [Hlen Hrd].
    split; [congruence |]. intros i Hi.
    rewrite Hrd by lia. rewrite IH by lia.
    replace (Z.of_nat (S k)) with (Z.of_nat k + 1) by lia.
    rewrite remote_total_step by lia.
    change (0 + Z.of_nat k) with (Z.of_nat k). fold lsum. fold rsum. ring.
Qed.

End Buffers.

(** ** The output of [convolve], element by element *)

Lemma alignup_covers n w :
  0 <= n < 2 ^ 62 -> (1 <= w < 2 ^ 32)%N ->
  exists q, Z.of_N (alignup (Z.to_N n) w) = q * Z.of_N w
            /\ n <= q * Z.of_N w.
Proof.
  intros Hn Hw. unfold alignup, size_t, sub64. pow_consts.
  change (2 ^ 62) with 4611686018427387904 in *.
  rewrite (N.mod_small (Z.to_N n + w)) by lia.
  rewrite Z.mod_small by lia.
  assert (0 < w)%N as Hw0 by lia.
  pose proof (N.Div0.mul_div_le (Z.to_N (Z.of_N (Z.to_N n + w) - 1)) w) as Hle.
  pose proof (N.mod_upper_bound (Z.to_N (Z.of_N (Z.to_N n + w) - 1)) w
                ltac:(lia)) as Hmod.
  pose proof (N.Div0.div_mod (Z.to_N (Z.of_N (Z.to_N n + w) - 1)) w) as Hdm.
  rewrite N.mod_small by lia.
  exists (Z.of_N (Z.to_N (Z.of_N (Z.to_N n + w) - 1) / w)).
  split; [lia |]. nia.
Qed.

Lemma part_map_seqZ (g : Z -> list Z) nq d :
  0 <= d < nq -> part (map g (seqZ 0 nq)) d = g d.
Proof.
  intros Hd. unfold part.
  change (map g (seqZ 0 nq)) with (g <$> seqZ 0 nq).
  apply nth_lookup_Some with (d := []).
  rewrite list_lookup_fmap, lookup_seqZ_lt by lia. simpl.
  f_equal. f_equal. lia.
Qed.

Lemma length_map_seqZ (g : Z -> list Z) nq :
  0 <= nq -> Z.of_nat (length (map g (seqZ 0 nq))) = nq.
Proof. intros H. rewrite length_map, length_seqZ. lia. Qed.

Section Formula.

Variable junk : Z.

Lemma wgs_nth f d :
  wf_wgs f -> 0 <= d < Z.of_nat (length (Stencil.queue f)) ->
  (1 <= nth (Z.to_nat d) (Stencil.wgs f) 0 < 2 ^ 32)%N.
Proof.
  intros [Hlen Hall] Hd.
  rewrite Forall_forall in Hall. apply Hall.
  apply list_elem_of_In, nth_In. lia.
Qed.

Lemma apply_local_formula f x alpha beta d yd :
  wf_wgs f -> 0 <= d < Z.of_nat (length (Stencil.queue f)) ->
  length yd = length (part x d) -> part_size x d < 2 ^ 62 ->
  let y' := Stencil.apply_local junk f x alpha beta d yd in
  length y' = length yd
  /\ forall i, 0 <= i < Z.of_nat (length yd) ->
       rd junk y' i = blend alpha beta (rd junk yd i) (local_term junk f x d i).
Proof.
  intros Hwf Hd Hlen Hsize. simpl.
  unfold Stencil.apply_local, local_term.
  pose proof (wgs_nth f d Hwf Hd) as Hw.
  set (w := nth (Z.to_nat d) (Stencil.wgs f) 0%N) in *.
  destruct (alignup_covers (part_size x d) w) as (q & Hq & Hcover);
    [split; [unfold part_size; lia | exact Hsize] | exact Hw |].
  rewrite Hq.
  assert (0 < Z.of_N w) as HB by lia.
  destruct (nth (Z.to_nat d) (Stencil.fast_kernel f) false).
  - destruct (launch_conv_local junk (part_size x d) (Stencil.lhalo f)
                (Stencil.rhalo f) (part x d) (part (Stencil.s f) d)
                alpha beta (q * Z.of_N w) (Z.of_N w) yd HB) as [Hl Hrd].
    split; [exact Hl |]. intros i Hi. rewrite Hrd by lia.
    rewrite Z.div_mul by lia.
    replace (i <? q * Z.of_N w) with true by (symmetry; apply Z.ltb_lt; unfold part_size in *; lia).
    replace (i <? part_size x d) with true
      by (symmetry; apply Z.ltb_lt; unfold part_size; lia).
    reflexivity.
  - destruct (launch_conv_local_big junk (part_size x d) (Stencil.lhalo f)
                (Stencil.rhalo f) (part x d) (part (Stencil.s f) d)
                alpha beta (q * Z.of_N w) yd) as [Hl Hrd].
    split; [exact Hl |]. intros i Hi. rewrite Hrd by lia.
    replace (i <? q * Z.of_N w) with true by (symmetry; apply Z.ltb_lt; unfold part_size in *; lia).
    replace (i <? part_size x d) with true
      by (symmetry; apply Z.ltb_lt; unfold part_size; lia).
    reflexivity.
Qed.

Lemma apply_remote_formula f x beta d db yd :
  let y' := Stencil.apply_remote junk f x beta d db yd in
  let sd := rd junk (part (Stencil.s f) d) in
  let nq := Z.of_nat (length (Stencil.queue f)) in
  length y' = length yd
  /\ forall i, 0 <= i < Z.of_nat (length yd) ->
       rd junk y' i
       = rd junk yd i
         + beta * remote_total (part_size x d) (Stencil.lhalo f)
                    (Stencil.rhalo f)
                    (Z.max (Stencil.lhalo f) (Stencil.rhalo f))
                    (left_sum (Stencil.lhalo f) sd
                       (left_tap junk (0 <? d) (Stencil.lhalo f) (part x d) db))
                    (right_sum (Stencil.lhalo f) (Stencil.rhalo f) sd
                       (right_tap junk (d + 1 <? nq) (part_size x d)
                          (Stencil.lhalo f) (part x d) db))
                    i.
Proof. apply launch_conv_remote. Qed.

(** Every element of the output is the blend of its prior value with the
    interior sum, plus [beta] times the boundary sums. *)
Lemma convolve_formula f x y alpha beta d i :
  wf_wgs f -> same_partitioning f x y ->
  0 <= d < Z.of_nat (length (Stencil.queue f)) ->
  0 <= i < part_size x d ->
  length (part (snd (Stencil.convolve junk f x y alpha beta)) d)
  = length (part x d)
  /\ rd junk (part (snd (Stencil.convolve junk f x y alpha beta)) d) i
     = blend alpha beta (rd junk (part y d) i) (local_term junk f x d i)
       + beta * remote_term junk f x d i.
Proof.
  intros Hwf (Hx & Hy & Hparts) Hd Hi. destruct (Hparts d) as [Hlen Hsize].
  destruct (apply_local_formula f x alpha beta d (part y d) Hwf Hd Hlen Hsize)
    as [Hl1 Hrd1].
  unfold Stencil.convolve, remote_term.
  destruct (0 <? Stencil.lhalo f + Stencil.rhalo f); simpl.
  - rewrite !part_map_seqZ by lia.
    match goal with
    | |- context [Stencil.apply_remote junk f x beta d ?db ?yd] =>
        destruct (apply_remote_formula f x beta d db yd) as [Hl2 Hrd2]
    end.
    split; [congruence |].
    rewrite Hrd2 by (unfold part_size in Hi; lia).
    rewrite Hrd1 by (unfold part_size in Hi; lia).
    reflexivity.
  - rewrite !part_map_seqZ by lia.
    split; [congruence |].
    rewrite Hrd1 by (unfold part_size in Hi; lia). ring.
Qed.

End Formula.


Example sample_stencil_init :
  fst <$> Stencil.init 0 cl_long [sample_queue 0 0 4; sample_queue 0 1 4]
            [1; -2; 1] 1 initial_state
  = Some sample_stencil.
Proof. reflexivity. Qed.



(** ** Halo exchange *)

Section Halo.

Variable junk : Z.

Lemma length_read_buffer b off len :
  length (read_buffer junk b off len) = Z.to_nat len.
Proof. unfold read_buffer. by rewrite length_map, length_seqZ. Qed.

Lemma rd_read_buffer b off len j :
  0 <= j < len -> rd junk (read_buffer junk b off len) j = rd junk b (off + j).
Proof.
  intros Hj. rewrite rd_in_range by (rewrite length_read_buffer; lia).
  unfold read_buffer. change (map ?f ?l) with (f <$> l).
  apply nth_lookup_Some.
  rewrite list_lookup_fmap, lookup_seqZ_lt by lia. simpl.
  do 2 f_equal. lia.
Qed.




Lemma length_copy_in dst pos src : length (copy_in dst pos src) = length dst.
Proof. unfold copy_in. destruct (0 <=? pos); [apply length_inserts | done]. Qed.

Lemma rd_copy_in dst pos src i :
  0 <= pos -> pos + Z.of_nat (length src) <= Z.of_nat (length dst) ->
  rd junk (copy_in dst pos src) i
  = if (pos <=? i) && (i <? pos + Z.of_nat (length src))
    then rd junk src (i - pos) else rd junk dst i.
Proof.
  intros Hpos Hfit. unfold copy_in.
  replace (0 <=? pos) with true by (symmetry; apply Z.leb_le; lia).
  destruct (Z.leb_spec pos i) as [H1 | H1]; simpl.
  - destruct (Z.ltb_spec i (pos + Z.of_nat (length src))) as [H2 | H2].
    + rewrite !rd_in_range by (rewrite ?length_inserts; lia).
      rewrite !nth_lookup. rewrite list_lookup_inserts by lia.
      do 2 f_equal. lia.
    + unfold rd. rewrite length_inserts.
      destruct (_ && _) eqn:E; [| reflexivity].
      apply andb_true_iff in E as [E1 E2]. apply Z.ltb_lt in E2.
      rewrite !nth_lookup. rewrite list_lookup_inserts_ge by lia.
      reflexivity.
  - unfold rd. rewrite length_inserts.
    destruct (_ && _) eqn:E; [| reflexivity].
    apply andb_true_iff in E as [E1 E2]. apply Z.leb_le in E1.
    rewrite !nth_lookup. rewrite list_lookup_inserts_lt by lia.
    reflexivity.
Qed.

(** The transfers of one device: what the staging buffer holds after them. *)
Lemma device_reads lhalo rhalo nq x d hb :
  0 <= lhalo -> 0 <= rhalo -> 0 <= d ->
  (d + 1) * (rhalo + lhalo) <= Z.of_nat (length hb) ->
  let hb' := fold_left (fun hb r => copy_in hb (fst r) (snd r))
               (Stencil.halo_reads junk lhalo rhalo nq x d) hb in
  length hb' = length hb
  /\ forall i,
      rd junk hb' i
      = if (d + 1 <? nq) && (0 <? lhalo)
           && (d * (rhalo + lhalo) + rhalo <=? i)
           && (i <? (d + 1) * (rhalo + lhalo))
        then rd junk (part x d)
               (part_size x d - lhalo + (i - (d * (rhalo + lhalo) + rhalo)))
        else if (0 <? d) && (0 <? rhalo)
                && (d * (rhalo + lhalo) <=? i)
                && (i <? d * (rhalo + lhalo) + rhalo)
             then rd junk (part x d) (i - d * (rhalo + lhalo))
             else rd junk hb i.
Proof.
  intros Hl Hr Hd Hfit. unfold Stencil.halo_reads.
  assert (forall i, 0 <= i < rhalo ->
            rd junk (read_buffer junk (part x d) 0 rhalo) i
            = rd junk (part x d) i) as HA.
  { intros i Hi. rewrite rd_read_buffer by lia. f_equal. }
  assert (forall i, 0 <= i < lhalo ->
            rd junk (read_buffer junk (part x d) (part_size x d - lhalo) lhalo) i
            = rd junk (part x d) (part_size x d - lhalo + i)) as HB.
  { intros i Hi. by rewrite rd_read_buffer by lia. }
  destruct ((0 <? d) && (0 <? rhalo)) eqn:C1;
    destruct ((d + 1 <? nq) && (0 <? lhalo)) eqn:C2; simpl;
    (split; [rewrite ?length_copy_in; reflexivity |]); intros i;
    rewrite ?rd_copy_in
      by (rewrite ?length_copy_in, ?length_read_buffer; nia);
    rewrite ?length_read_buffer, ?Z2Nat.id by lia.
  all: repeat match goal with
         | |- context [Z.leb ?a ?b] => destruct (Z.leb_spec a b)
         | |- context [Z.ltb ?a ?b] => destruct (Z.ltb_spec a b)
         end; simpl; try nia; try reflexivity;
    try (rewrite HA by nia; f_equal; nia);
    try (rewrite HB by nia; f_equal; nia).
Qed.

(** The staging buffer after the transfers of all devices: the slot of
    device [d] holds its head fragment and then its tail fragment. *)
Lemma read_halos_slots lhalo rhalo nq x hb :
  0 <= lhalo -> 0 <= rhalo ->
  nq * (rhalo + lhalo) <= Z.of_nat (length hb) ->
  let hb' := Stencil.read_halos junk lhalo rhalo nq hb x in
  length hb' = length hb
  /\ forall d j, 0 <= d < nq ->
       (d + 1 < nq -> 0 <= j < lhalo ->
        rd junk hb' (d * (rhalo + lhalo) + rhalo + j)
        = rd junk (part x d) (part_size x d - lhalo + j))
       /\ (0 < d -> 0 <= j < rhalo ->
           rd junk hb' (d * (rhalo + lhalo) + j) = rd junk (part x d) j).
Proof.
  intros Hl Hr Hfit. unfold Stencil.read_halos.
  destruct ((1 <? nq) && (0 <? lhalo + rhalo)) eqn:Hguard; simpl.
  2:{ split; [reflexivity |]. intros d j Hd.
      apply andb_false_iff in Hguard as [Hg | Hg];
        [apply Z.ltb_ge in Hg | apply Z.ltb_ge in Hg]; split; intros; lia. }
  apply andb_true_iff in Hguard as [Hnq _]. apply Z.ltb_lt in Hnq.
  assert (forall m : nat,
             Z.of_nat m <= nq ->
             let hbm :=
               fold_left
                 (fun hb d =>
                    fold_left (fun hb r => copy_in hb (fst r) (snd r))
                      (Stencil.halo_reads junk lhalo rhalo nq x d) hb)
                 (seqZ 0 (Z.of_nat m)) hb in
             length hbm = length hb
             /\ forall d j, 0 <= d < Z.of_nat m ->
                  (d + 1 < nq -> 0 <= j < lhalo ->
                   rd junk hbm (d * (rhalo + lhalo) + rhalo + j)
                   = rd junk (part x d) (part_size x d - lhalo + j))
                  /\ (0 < d -> 0 <= j < rhalo ->
                      rd junk hbm (d * (rhalo + lhalo) + j)
                      = rd junk (part x d) j)) as Hind.
  { induction m as [| m IH]; intros Hm; simpl.
    - split; [reflexivity |]. intros d j Hd. lia.
    - rewrite seqZ_S, fold_left_app. simpl.
      destruct IH as [IHlen IH]; [lia |].
      match goal with
      | |- context [fold_left _ (Stencil.halo_reads _ _ _ _ _ _) ?hbm] =>
          destruct (device_reads lhalo rhalo nq x (Z.of_nat m) hbm)
            as [Hlen Hrd]; [lia | lia | lia | rewrite IHlen; nia |]
      end.
      change (0 + Z.of_nat m) with (Z.of_nat m).
      split; [congruence |].
      intros d j Hd. rewrite !Hrd.
      destruct (Z.eq_dec d (Z.of_nat m)) as [-> | Hne].
      + split; intros H1 H2.
        * replace (Z.of_nat m + 1 <? nq) with true
            by (symmetry; apply Z.ltb_lt; lia).
          replace (0 <? lhalo) with true by (symmetry; apply Z.ltb_lt; lia).
          replace (Z.of_nat m * (rhalo + lhalo) + rhalo
                   <=? Z.of_nat m * (rhalo + lhalo) + rhalo + j) with true
            by (symmetry; apply Z.leb_le; lia).
          replace (Z.of_nat m * (rhalo + lhalo) + rhalo + j
                   <? (Z.of_nat m + 1) * (rhalo + lhalo)) with true
            by (symmetry; apply Z.ltb_lt; lia).
          simpl. f_equal. lia.
        * replace (Z.of_nat m * (rhalo + lhalo) + rhalo
                   <=? Z.of_nat m * (rhalo + lhalo) + j) with false
            by (symmetry; apply Z.leb_gt; lia).
          rewrite andb_false_r. simpl.
          replace (0 <? Z.of_nat m) with true by (symmetry; apply Z.ltb_lt; lia).
          replace (0 <? rhalo) with true by (symmetry; apply Z.ltb_lt; lia).
          replace (Z.of_nat m * (rhalo + lhalo)
                   <=? Z.of_nat m * (rhalo + lhalo) + j) with true
            by (symmetry; apply Z.leb_le; lia).
          replace (Z.of_nat m * (rhalo + lhalo) + j
                   <? Z.of_nat m * (rhalo + lhalo) + rhalo) with true
            by (symmetry; apply Z.ltb_lt; lia).
          simpl. f_equal. lia.
      + assert (d < Z.of_nat m) as Hlt by lia.
        assert ((d + 1) * (rhalo + lhalo) <= Z.of_nat m * (rhalo + lhalo))
          as Hslot by nia.
        destruct (IH d j ltac:(lia)) as [IH1 IH2].
        split; intros H1 H2.
        * replace (Z.of_nat m * (rhalo + lhalo) + rhalo
                   <=? d * (rhalo + lhalo) + rhalo + j) with false
            by (symmetry; apply Z.leb_gt; lia).
          replace (Z.of_nat m * (rhalo + lhalo)
                   <=? d * (rhalo + lhalo) + rhalo + j) with false
            by (symmetry; apply Z.leb_gt; lia).
          rewrite !andb_false_r. simpl. auto.
        * replace (Z.of_nat m * (rhalo + lhalo) + rhalo
                   <=? d * (rhalo + lhalo) + j) with false
            by (symmetry; apply Z.leb_gt; lia).
          replace (Z.of_nat m * (rhalo + lhalo)
                   <=? d * (rhalo + lhalo) + j) with false
            by (symmetry; apply Z.leb_gt; lia).
          rewrite !andb_false_r. simpl. auto. }
  specialize (Hind (Z.to_nat nq)). rewrite Z2Nat.id in Hind by lia.
  apply Hind. lia.
Qed.

(** The halo buffer of device [d] after the two writes. *)
Lemma write_halos_slots lhalo rhalo nq hb d db :
  0 <= lhalo -> 0 <= rhalo -> Z.of_nat (length db) = lhalo + rhalo ->
  let h := Stencil.write_halos junk lhalo rhalo nq hb d db in
  length h = length db
  /\ forall j,
       (0 < d -> 0 <= j < lhalo ->
        rd junk h j = rd junk hb ((d - 1) * (rhalo + lhalo) + rhalo + j))
       /\ (d + 1 < nq -> 0 <= j < rhalo ->
           rd junk h (lhalo + j) = rd junk hb ((d + 1) * (rhalo + lhalo) + j)).
Proof.
  intros Hl Hr Hlen. unfold Stencil.write_halos. simpl.
  split.
  { destruct (_ && _), (_ && _); rewrite ?length_copy_in; reflexivity. }
  intros j. split; intros H1 H2.
  - replace ((0 <? d) && (0 <? lhalo)) with true
      by (symmetry; apply andb_true_iff; split; apply Z.ltb_lt; lia).
    destruct ((d + 1 <? nq) && (0 <? rhalo)).
    + rewrite rd_copy_in
        by (rewrite ?length_copy_in, ?length_read_buffer; lia).
      rewrite length_read_buffer.
      replace (lhalo <=? j) with false by (symmetry; apply Z.leb_gt; lia).
      simpl. rewrite rd_copy_in by (rewrite ?length_read_buffer; lia).
      rewrite length_read_buffer.
      replace (0 <=? j) with true by (symmetry; apply Z.leb_le; lia).
      replace (j <? 0 + Z.of_nat (Z.to_nat lhalo)) with true
        by (symmetry; apply Z.ltb_lt; lia).
      simpl. rewrite rd_read_buffer by lia. f_equal. lia.
    + rewrite rd_copy_in by (rewrite ?length_read_buffer; lia).
      rewrite length_read_buffer.
      replace (0 <=? j) with true by (symmetry; apply Z.leb_le; lia).
      replace (j <? 0 + Z.of_nat (Z.to_nat lhalo)) with true
        by (symmetry; apply Z.ltb_lt; lia).
      simpl. rewrite rd_read_buffer by lia. f_equal. lia.
  - replace ((d + 1 <? nq) && (0 <? rhalo)) with true
      by (symmetry; apply andb_true_iff; split; apply Z.ltb_lt; lia).
    rewrite rd_copy_in.
    + rewrite length_read_buffer.
      replace (lhalo <=? lhalo + j) with true by (symmetry; apply Z.leb_le; lia).
      replace (lhalo + j <? lhalo + Z.of_nat (Z.to_nat rhalo)) with true
        by (symmetry; apply Z.ltb_lt; lia).
      simpl. rewrite rd_read_buffer by lia. f_equal. lia.
    + lia.
    + destruct (_ && _); rewrite ?length_copy_in, ?length_read_buffer; lia.
Qed.

(** What the halo buffer of device [d] holds when [conv_remote] runs. *)
Lemma halo_content f x d :
  wf_halo f x -> 0 <= d < Z.of_nat (length (Stencil.queue f)) ->
  Z.of_nat (length (halo_of junk f x d)) = Stencil.lhalo f + Stencil.rhalo f
  /\ forall j,
       (0 < d -> 0 <= j < Stencil.lhalo f ->
        rd junk (halo_of junk f x d) j
        = rd junk (part x (d - 1))
            (part_size x (d - 1) - Stencil.lhalo f + j))
       /\ (d + 1 < Z.of_nat (length (Stencil.queue f)) ->
           0 <= j < Stencil.rhalo f ->
           rd junk (halo_of junk f x d) (Stencil.lhalo f + j)
           = rd junk (part x (d + 1)) j).
Proof.
  intros (Hl & Hr & Hx & Hhb & Hdb & Hparts) Hd. unfold halo_of.
  destruct (read_halos_slots (Stencil.lhalo f) (Stencil.rhalo f)
              (Z.of_nat (length (Stencil.queue f))) x (Stencil.hbuf f))
    as [Hlen Hslots]; [lia | lia | lia |].
  destruct (write_halos_slots (Stencil.lhalo f) (Stencil.rhalo f)
              (Z.of_nat (length (Stencil.queue f)))
              (Stencil.read_halos junk (Stencil.lhalo f) (Stencil.rhalo f)
                 (Z.of_nat (length (Stencil.queue f))) (Stencil.hbuf f) x)
              d (part (Stencil.dbuf f) d))
    as [Hlen' Hw]; [lia | lia | apply Hdb; lia |].
  split; [rewrite Hlen'; apply Hdb; lia |].
  intros j. destruct (Hw j) as [Hw1 Hw2]. split; intros H1 H2.
  - rewrite Hw1 by lia.
    destruct (Hslots (d - 1) j ltac:(lia)) as [Hs _].
    apply Hs; lia.
  - rewrite Hw2 by lia.
    destruct (Hslots (d + 1) j ltac:(lia)) as [_ Hs].
    apply Hs; lia.
Qed.




End Halo.



(** ** The staging of the fast kernel *)

Section Staging.

Variable junk : Z.
Variables (n lhalo rhalo : Z) (x s : list Z) (block_size group : Z).
Hypothesis Hlhalo : 0 <= lhalo.
Hypothesis Hrhalo : 0 <= rhalo.

Let stage := Stencil.conv_local_stage junk n lhalo rhalo x s block_size.
Let ideal := staged_ideal junk lhalo rhalo x s block_size group.

(** the comparisons of the context as propositions *)
Ltac bool_hyps :=
  repeat match goal with
    | H : (_ <? _) = true |- _ => apply Z.ltb_lt in H
    | H : (_ <? _) = false |- _ => apply Z.ltb_ge in H
    | H : (_ <=? _) = true |- _ => apply Z.leb_le in H
    | H : (_ <=? _) = false |- _ => apply Z.leb_gt in H
    | H : (_ =? _) = true |- _ => apply Z.eqb_eq in H
    | H : (_ =? _) = false |- _ => apply Z.eqb_neq in H
    | H : (_ && _) = true |- _ => apply andb_true_iff in H as [? ?]
    | H : (_ || _) = false |- _ => apply orb_false_iff in H as [? ?]
    | H : (_ || _) = true |- _ => apply orb_true_iff in H as [? | ?]
    | H : (_ && _) = false |- _ => apply andb_false_iff in H as [? | ?]
    end.

Ltac stage_cases :=
  unfold Stencil.conv_local_stage, staged_ideal, upd in *;
  repeat match goal with
    | |- context [if ?c then _ else _] => destruct c eqn:?
    end;
  bool_hyps; try lia; try (f_equal; lia).

(** every write of a work-item of the group stores what the address
    should hold *)
Lemma stage_ideal l m a :
  0 <= l -> m a = ideal a -> stage (group * block_size + l) l m a = ideal a.
Proof.
  intros Hl Hm. unfold stage, ideal in *. stage_cases; exact Hm.
Qed.

(** the weight a work-item stages *)
Lemma stage_weight l m :
  0 <= l < lhalo + rhalo + 1 ->
  stage (group * block_size + l) l m l = ideal l.
Proof. intros Hl. unfold stage, ideal. stage_cases. Qed.

(** the element a work-item stages for itself *)
Lemma stage_own l m :
  0 <= l -> group * block_size + l < n ->
  stage (group * block_size + l) l m (lhalo + rhalo + 1 + lhalo + l)
  = ideal (lhalo + rhalo + 1 + lhalo + l).
Proof. intros Hl Hg. unfold stage, ideal. stage_cases. Qed.

(** the element a work-item stages for the left halo of the group *)
Lemma stage_left l m :
  0 <= l < lhalo -> group * block_size + l < n ->
  lhalo <= group * block_size + l ->
  stage (group * block_size + l) l m (lhalo + rhalo + 1 + lhalo + (l - lhalo))
  = ideal (lhalo + rhalo + 1 + lhalo + (l - lhalo)).
Proof. intros Hl Hg Hg'. unfold stage, ideal. stage_cases. Qed.

(** the element a work-item stages for the right halo of the group *)
Lemma stage_right l m :
  0 <= l -> group * block_size + l + rhalo < n ->
  stage (group * block_size + l) l m (lhalo + rhalo + 1 + lhalo + (l + rhalo))
  = ideal (lhalo + rhalo + 1 + lhalo + (l + rhalo)).
Proof. intros Hl Hg. unfold stage, ideal. stage_cases. Qed.

(** once an address holds what it should, it keeps it *)
Lemma stage_fold_keeps items m a :
  (forall l, l ∈ items -> 0 <= l) -> m a = ideal a ->
  fold_left (fun m l => stage (group * block_size + l) l m) items m a = ideal a.
Proof.
  revert m. induction items as [| l items IH]; intros m Hpos Hm; [exact Hm |].
  simpl. apply IH.
  - intros l' Hl'. apply Hpos. by right.
  - apply stage_ideal; [apply Hpos; left | exact Hm].
Qed.

(** an address that some work-item of the group stages holds what it
    should when the group reaches the barrier *)
Lemma staged_by l0 a :
  0 <= l0 < block_size ->
  (forall m, stage (group * block_size + l0) l0 m a = ideal a) ->
  staged_local junk stage block_size group a = ideal a.
Proof.
  intros Hl0 Hw. unfold staged_local.
  assert (seqZ 0 block_size
          = seqZ 0 l0 ++ [l0] ++ seqZ (l0 + 1) (block_size - l0 - 1)) as ->.
  { replace block_size with (l0 + (1 + (block_size - l0 - 1))) at 1 by lia.
    rewrite seqZ_app by lia. f_equal.
    rewrite seqZ_app by lia.
    rewrite (seqZ_cons (0 + l0) 1), seqZ_nil by lia.
    simpl. do 2 f_equal. }
  rewrite !fold_left_app. simpl. apply stage_fold_keeps.
  - intros l Hl. apply elem_of_seqZ in Hl. lia.
  - apply Hw.
Qed.

Hypothesis Hblock : lhalo + rhalo + 1 <= block_size.
Hypothesis Hcovers : staging_covers n block_size lhalo.

(** What the sum of a work-item reads behind the barrier is the weight and
    the element of the partition it expects there. *)
Lemma staged_reads l k :
  0 <= l < block_size -> group * block_size + l < n ->
  - lhalo <= k <= rhalo ->
  0 <= group * block_size + l + k < n ->
  let loc := staged_local junk stage block_size group in
  loc (lhalo + k) = rd junk s (lhalo + k)
  /\ loc (lhalo + rhalo + 1 + lhalo + (l + k))
     = rd junk x (group * block_size + l + k).
Proof.
  intros Hl Hg Hk Hgk. simpl. split.
  - rewrite (staged_by (lhalo + k) (lhalo + k)); [| lia |].
    + unfold ideal, staged_ideal.
      replace (lhalo + k <? lhalo + rhalo + 1) with true
        by (symmetry; apply Z.ltb_lt; lia).
      reflexivity.
    + intros m. apply stage_weight. lia.
  - assert (ideal (lhalo + rhalo + 1 + lhalo + (l + k))
            = rd junk x (group * block_size + l + k)) as Hideal.
    { unfold ideal, staged_ideal.
      replace (lhalo + rhalo + 1 + lhalo + (l + k) <? lhalo + rhalo + 1)
        with false by (symmetry; apply Z.ltb_ge; lia).
      f_equal. lia. }
    rewrite <- Hideal.
    destruct (Z.lt_ge_cases (l + k) 0) as [Hneg | Hpos].
    + (* the left halo of the group *)
      assert (group * block_size + (l + k + lhalo) < n) as Hstaged.
      { pose proof (Z.div_mod n block_size ltac:(lia)) as Hdm.
        pose proof (Z.mod_pos_bound n block_size ltac:(lia)) as Hmod.
        assert (1 <= group) by nia.
        destruct Hcovers as [H0 | [Hlast | Hone]].
        - assert (group < n / block_size) by nia. nia.
        - assert (group <= n / block_size) by nia.
          destruct (Z.eq_dec group (n / block_size)) as [-> | Hne]; nia.
        - nia. }
      apply (staged_by (l + k + lhalo)); [lia |].
      intros m.
      replace (lhalo + rhalo + 1 + lhalo + (l + k))
        with (lhalo + rhalo + 1 + lhalo + (l + k + lhalo - lhalo)) by lia.
      apply stage_left; lia.
    + destruct (Z.lt_ge_cases (l + k) block_size) as [Hin | Hout].
      * (* an element of the group itself *)
        apply (staged_by (l + k)); [lia |].
        intros m. apply stage_own; lia.
      * (* the right halo of the group *)
        apply (staged_by (l + k - rhalo)); [lia |].
        intros m.
        replace (lhalo + rhalo + 1 + lhalo + (l + k))
          with (lhalo + rhalo + 1 + lhalo + (l + k - rhalo + rhalo)) by lia.
        apply stage_right; lia.
Qed.

End Staging.

(** Where its staging covers the reads, the fast kernel forms the sum of
    the fallback kernel. *)
Lemma fast_interior_sum junk n lhalo rhalo x s block_size i :
  0 <= lhalo -> 0 <= rhalo -> lhalo + rhalo + 1 <= block_size ->
  staging_covers n block_size lhalo -> 0 <= i < n ->
  let loc :=
    staged_local junk
      (Stencil.conv_local_stage junk n lhalo rhalo x s block_size)
      block_size (i / block_size) in
  interior_sum n lhalo rhalo loc
    (fun p => loc (lhalo + rhalo + 1 + lhalo + (p - (i - i mod block_size)))) i
  = interior_sum n lhalo rhalo (rd junk s) (rd junk x) i.
Proof.
  intros Hl Hr HB Hcov Hi. simpl. unfold interior_sum.
  apply Zsum_ext. intros k Hk. unfold window in Hk.
  apply elem_of_seqZ in Hk.
  destruct ((0 <=? i + k) && (i + k <? n)) eqn:Hguard; [| reflexivity].
  apply andb_true_iff in Hguard as [H1 H2].
  apply Z.leb_le in H1. apply Z.ltb_lt in H2.
  pose proof (Z.div_mod i block_size ltac:(lia)) as Hdm.
  pose proof (Z.mod_pos_bound i block_size ltac:(lia)) as Hmod.
  destruct (staged_reads junk n lhalo rhalo x s block_size (i / block_size)
              Hl Hr HB Hcov (i mod block_size) k) as [Hw Hx]; try lia.
  rewrite Hw.
  replace (lhalo + rhalo + 1 + lhalo + (i + k - (i - i mod block_size)))
    with (lhalo + rhalo + 1 + lhalo + (i mod block_size + k)) by lia.
  rewrite Hx. do 2 f_equal. lia.
Qed.

(** ** The sums of the two phases, tap by tap *)

Lemma window_split lhalo rhalo :
  0 <= lhalo -> 0 <= rhalo ->
  window lhalo rhalo = seqZ (- lhalo) lhalo ++ [0] ++ seqZ 1 rhalo.
Proof.
  intros Hl Hr. unfold window.
  replace (rhalo + lhalo + 1) with (lhalo + (1 + rhalo)) by lia.
  rewrite seqZ_app by lia. f_equal.
  replace (- lhalo + lhalo) with 0 by lia.
  rewrite seqZ_app by lia. rewrite (seqZ_cons 0 1), seqZ_nil by lia.
  reflexivity.
Qed.

(** The interior sum and the two boundary sums of an element add up to the
    sum over the whole window of the weights times the taps. *)
Lemma sums_by_tap n lhalo rhalo (s src left right : Z -> Z) i :
  0 <= lhalo -> 0 <= rhalo -> 0 <= i < n ->
  interior_sum n lhalo rhalo s src i
  + remote_total n lhalo rhalo (Z.max lhalo rhalo)
      (left_sum lhalo s left) (right_sum lhalo rhalo s right) i
  = Zsum (fun k => s (lhalo + k) * tap n src left right (i + k))
      (window lhalo rhalo).
Proof.
  intros Hl Hr Hi. unfold interior_sum, remote_total.
  (* the left-edge sum vanishes where no work-item forms it *)
  assert ((if (0 <=? i) && (i <? lhalo) && (i <? Z.max lhalo rhalo)
           then left_sum lhalo s left i else 0)
          = left_sum lhalo s left i) as ->.
  { destruct (Z.ltb_spec i lhalo) as [H | H].
    - replace (0 <=? i) with true by (symmetry; apply Z.leb_le; lia).
      replace (i <? Z.max lhalo rhalo) with true
        by (symmetry; apply Z.ltb_lt; lia).
      reflexivity.
    - rewrite andb_false_r. simpl. symmetry. apply Zsum_zero.
      intros k Hk. apply elem_of_seqZ in Hk.
      replace (i + k <? 0) with false by (symmetry; apply Z.ltb_ge; lia).
      reflexivity. }
  assert ((if (0 <=? i - (n - rhalo)) && (i - (n - rhalo) <? rhalo)
              && (i - (n - rhalo) <? Z.max lhalo rhalo)
           then right_sum lhalo rhalo s right (i - (n - rhalo)) else 0)
          = right_sum lhalo rhalo s right (i - (n - rhalo))) as ->.
  { destruct (Z.leb_spec 0 (i - (n - rhalo))) as [H | H].
    - replace (i - (n - rhalo) <? rhalo) with true
        by (symmetry; apply Z.ltb_lt; lia).
      replace (i - (n - rhalo) <? Z.max lhalo rhalo) with true
        by (symmetry; apply Z.ltb_lt; lia).
      reflexivity.
    - simpl. symmetry. apply Zsum_zero.
      intros k Hk. apply elem_of_seqZ in Hk.
      replace (0 <=? i - (n - rhalo) + k - rhalo) with false
        by (symmetry; apply Z.leb_gt; lia).
      reflexivity. }
  unfold left_sum, right_sum.
  rewrite window_split by lia. rewrite !Zsum_app, !Zsum_cons, !Zsum_nil.
  assert (forall a b c a' c' : Z, a + (b + 0 + c) + (a' + c') = (a + a') + (b + 0 + (c + c')))
    as E by (intros; ring).
  rewrite E. clear E. rewrite <- !Zsum_plus.
  f_equal; [| f_equal; [f_equal |]].
  - apply Zsum_ext. intros k Hk. apply elem_of_seqZ in Hk. unfold tap.
    destruct (Z.ltb_spec (i + k) 0) as [H | H].
    + replace (0 <=? i + k) with false by (symmetry; apply Z.leb_gt; lia).
      simpl. ring.
    + replace (0 <=? i + k) with true by (symmetry; apply Z.leb_le; lia).
      replace (i + k <? n) with true by (symmetry; apply Z.ltb_lt; lia).
      simpl. ring.
  - unfold tap. rewrite Z.add_0_r.
    replace (0 <=? i) with true by (symmetry; apply Z.leb_le; lia).
    replace (i <? n) with true by (symmetry; apply Z.ltb_lt; lia).
    replace (i <? 0) with false by (symmetry; apply Z.ltb_ge; lia).
    reflexivity.
  - apply Zsum_ext. intros k Hk. apply elem_of_seqZ in Hk. unfold tap.
    replace (i + k <? 0) with false by (symmetry; apply Z.ltb_ge; lia).
    replace (0 <=? i + k) with true by (symmetry; apply Z.leb_le; lia).
    destruct (Z.ltb_spec (i + k) n) as [H | H].
    + replace (0 <=? i - (n - rhalo) + k - rhalo) with false
        by (symmetry; apply Z.leb_gt; lia).
      simpl. ring.
    + replace (0 <=? i - (n - rhalo) + k - rhalo) with true
        by (symmetry; apply Z.leb_le; lia).
      simpl. replace (i - (n - rhalo) + k - rhalo) with (i + k - n) by lia.
      ring.
Qed.

(** ** Partitions and the whole vector *)

Lemma part_lookup (x : list (list Z)) d :
  0 <= d < Z.of_nat (length x) -> x !! Z.to_nat d = Some (part x d).
Proof.
  intros Hd. unfold part.
  destruct (lookup_lt_is_Some_2 x (Z.to_nat d) ltac:(lia)) as [p Hp].
  rewrite Hp. f_equal. symmetry. by apply nth_lookup_Some.
Qed.

Lemma offset_0 x : offset x 0 = 0.
Proof. reflexivity. Qed.

Lemma offset_succ x d :
  0 <= d < Z.of_nat (length x) -> offset x (d + 1) = offset x d + part_size x d.
Proof.
  intros Hd. unfold offset, part_size.
  replace (Z.to_nat (d + 1)) with (S (Z.to_nat d)) by lia.
  rewrite (take_S_r x (Z.to_nat d) (part x d)) by (by apply part_lookup).
  rewrite concat_app, length_app. simpl. rewrite app_nil_r. lia.
Qed.

Lemma offset_total x : offset x (Z.of_nat (length x)) = Z.of_nat (length (concat x)).
Proof. unfold offset. rewrite Nat2Z.id, firstn_all. reflexivity. Qed.

Lemma offset_nonneg x d : 0 <= offset x d.
Proof. unfold offset. lia. Qed.

Lemma concat_split (x : list (list Z)) d :
  0 <= d < Z.of_nat (length x) ->
  concat x
  = concat (take (Z.to_nat d) x) ++ part x d ++ concat (drop (S (Z.to_nat d)) x).
Proof.
  intros Hd.
  rewrite <- (take_drop_middle x (Z.to_nat d) (part x d)) at 1
    by (by apply part_lookup).
  rewrite concat_app. reflexivity.
Qed.

Lemma offset_fits x d :
  0 <= d < Z.of_nat (length x) ->
  offset x d + part_size x d <= Z.of_nat (length (concat x)).
Proof.
  intros Hd. pose proof (f_equal length (concat_split x d Hd)) as E.
  rewrite !length_app in E. unfold offset, part_size. lia.
Qed.

Lemma clamped_inside X i :
  0 <= i < Z.of_nat (length X) -> clamped X i = nth (Z.to_nat i) X 0.
Proof. intros H. unfold clamped. do 2 f_equal. lia. Qed.

Lemma clamped_before X i :
  i < 0 -> 0 < Z.of_nat (length X) -> clamped X i = nth 0 X 0.
Proof.
  intros H HX. unfold clamped.
  replace (Z.max 0 (Z.min i (Z.of_nat (length X) - 1))) with 0 by lia.
  reflexivity.
Qed.

Lemma clamped_after X i :
  Z.of_nat (length X) <= i -> 0 < Z.of_nat (length X) ->
  clamped X i = nth (Z.to_nat (Z.of_nat (length X) - 1)) X 0.
Proof.
  intros H HX. unfold clamped. do 2 f_equal. lia.
Qed.

(** An element of a partition is the element at its offset in the whole
    vector. *)
Lemma rd_concat junk (x : list (list Z)) d p :
  0 <= d < Z.of_nat (length x) -> 0 <= p < part_size x d ->
  rd junk (part x d) p = nth (Z.to_nat (offset x d + p)) (concat x) 0.
Proof.
  intros Hd Hp. unfold part_size in Hp.
  rewrite rd_in_range by lia. rewrite (concat_split x d Hd).
  unfold offset.
  replace (Z.to_nat (Z.of_nat (length (concat (take (Z.to_nat d) x))) + p))
    with (length (concat (take (Z.to_nat d) x)) + Z.to_nat p)%nat by lia.
  rewrite !nth_lookup.
  rewrite lookup_app_r by lia.
  replace (length (concat (take (Z.to_nat d) x)) + Z.to_nat p
           - length (concat (take (Z.to_nat d) x)))%nat
    with (Z.to_nat p) by lia.
  rewrite lookup_app_l by lia.
  destruct (lookup_lt_is_Some_2 (part x d) (Z.to_nat p) ltac:(lia)) as [v Hv].
  rewrite Hv. reflexivity.
Qed.

(** ** The output of [convolve] against the clamped convolution *)

Section Clamped.

Variable junk : Z.

(** Every tap the two phases read is the element of the whole vector at
    the clamped position. *)
Lemma taps_clamped f x d i k :
  wf_halo f x -> 0 <= d < Z.of_nat (length (Stencil.queue f)) ->
  0 <= i < part_size x d ->
  - Stencil.lhalo f <= k <= Stencil.rhalo f ->
  tap (part_size x d) (rd junk (part x d))
    (left_tap junk (0 <? d) (Stencil.lhalo f) (part x d) (halo_of junk f x d))
    (right_tap junk (d + 1 <? Z.of_nat (length (Stencil.queue f)))
       (part_size x d) (Stencil.lhalo f) (part x d) (halo_of junk f x d))
    (i + k)
  = clamped (concat x) (offset x d + i + k).
Proof.
  intros Hwf Hd Hi Hk.
  destruct (halo_content junk f x d Hwf Hd) as [Hlen Hh].
  destruct Hwf as (Hl & Hr & Hx & Hhb & Hdb & Hparts).
  set (nq := Z.of_nat (length (Stencil.queue f))) in *.
  set (lh := Stencil.lhalo f) in *. set (rh := Stencil.rhalo f) in *.
  assert (0 <= d < Z.of_nat (length x)) as Hdx by lia.
  pose proof (offset_fits x d Hdx) as Hfit.
  pose proof (offset_nonneg x d) as Hoff.
  unfold tap.
  destruct (Z.ltb_spec (i + k) 0) as [Hneg | Hpos].
  - (* before the partition *)
    unfold left_tap. destruct (Z.ltb_spec 0 d) as [Hleft | Hfirst].
    + destruct (Hh (lh + (i + k))) as [Hh1 _]. rewrite Hh1 by lia.
      pose proof (Hparts (d - 1) ltac:(lia)) as Hsz.
      rewrite (rd_concat junk x (d - 1)) by lia.
      pose proof (offset_succ x (d - 1) ltac:(lia)) as Hs.
      pose proof (offset_nonneg x (d - 1)) as Hoff'.
      replace (d - 1 + 1) with d in Hs by lia.
      rewrite clamped_inside by lia. do 2 f_equal. lia.
    + assert (d = 0) as -> by lia. rewrite offset_0 in *.
      rewrite (rd_concat junk x 0) by lia. rewrite offset_0.
      rewrite clamped_before by lia. reflexivity.
  - destruct (Z.ltb_spec (i + k) (part_size x d)) as [Hin | Hafter].
    + (* inside the partition *)
      rewrite (rd_concat junk x d) by lia.
      rewrite clamped_inside by lia. do 2 f_equal. lia.
    + (* after the partition *)
      unfold right_tap. destruct (Z.ltb_spec (d + 1) nq) as [Hright | Hlast].
      * destruct (Hh (i + k - part_size x d)) as [_ Hh2]. rewrite Hh2 by lia.
        pose proof (Hparts (d + 1) ltac:(lia)) as Hsz.
        rewrite (rd_concat junk x (d + 1)) by lia.
        pose proof (offset_succ x d ltac:(lia)) as Hs.
        pose proof (offset_fits x (d + 1) ltac:(lia)) as Hfit'.
        rewrite clamped_inside by lia. do 2 f_equal. lia.
      * assert (d + 1 = Z.of_nat (length x)) as Hend by lia.
        pose proof (offset_succ x d ltac:(lia)) as Hs.
        rewrite Hend, offset_total in Hs.
        rewrite (rd_concat junk x d) by lia.
        rewrite clamped_after by lia. do 2 f_equal. lia.
Qed.

Lemma part_copies (data : list Z) (queue : list CommandQueue) d :
  0 <= d < Z.of_nat (length queue) ->
  part (map (fun _ => data) queue) d = data.
Proof.
  intros Hd. unfold part. change (map ?g ?l) with (g <$> l).
  apply nth_lookup_Some.
  destruct (lookup_lt_is_Some_2 queue (Z.to_nat d) ltac:(lia)) as [q Hq].
  by rewrite list_lookup_fmap, Hq.
Qed.

(** The sums of the two phases add up to the clamped convolution. *)
Lemma terms_clamped f data x d i :
  wf_stencil f data -> wf_halo f x -> fast_covered f x ->
  0 <= d < Z.of_nat (length (Stencil.queue f)) ->
  0 <= i < part_size x d ->
  local_term junk f x d i + remote_term junk f x d i
  = conv_ref data (Stencil.lhalo f) (concat x) (offset x d + i).
Proof.
  intros (Hwgs & Hfk & Hs & Hl & Hr & Hdata & Hfast) Hhalo Hcov Hd Hi.
  assert (local_term junk f x d i
          = interior_sum (part_size x d) (Stencil.lhalo f) (Stencil.rhalo f)
              (rd junk (part (Stencil.s f) d)) (rd junk (part x d)) i) as ->.
  { unfold local_term.
    destruct (nth (Z.to_nat d) (Stencil.fast_kernel f) false) eqn:Hfd;
      [| reflexivity].
    apply fast_interior_sum; auto. }
  assert (remote_term junk f x d i
          = remote_total (part_size x d) (Stencil.lhalo f) (Stencil.rhalo f)
              (Z.max (Stencil.lhalo f) (Stencil.rhalo f))
              (left_sum (Stencil.lhalo f) (rd junk (part (Stencil.s f) d))
                 (left_tap junk (0 <? d) (Stencil.lhalo f) (part x d)
                    (halo_of junk f x d)))
              (right_sum (Stencil.lhalo f) (Stencil.rhalo f)
                 (rd junk (part (Stencil.s f) d))
                 (right_tap junk
                    (d + 1 <? Z.of_nat (length (Stencil.queue f)))
                    (part_size x d) (Stencil.lhalo f) (part x d)
                    (halo_of junk f x d)))
              i) as ->.
  { unfold remote_term.
    destruct (Z.ltb_spec 0 (Stencil.lhalo f + Stencil.rhalo f)) as [H | H];
      [reflexivity |].
    unfold remote_total.
    replace (i <? Stencil.lhalo f) with false by (symmetry; apply Z.ltb_ge; lia).
    replace (0 <=? i - (part_size x d - Stencil.rhalo f))
      with false by (symmetry; apply Z.leb_gt; lia).
    rewrite !andb_false_r. reflexivity. }
  rewrite sums_by_tap by lia.
  unfold conv_ref. fold (Zsum (fun k => nth (Z.to_nat (Stencil.lhalo f + k)) data 0
                                        * clamped (concat x) (offset x d + i + k))
                           (seqZ (- Stencil.lhalo f) (Z.of_nat (length data)))).
  rewrite Hdata. unfold window.
  replace (Stencil.rhalo f + Stencil.lhalo f + 1)
    with (Stencil.lhalo f + Stencil.rhalo f + 1) by lia.
  apply Zsum_ext. intros k Hk. apply elem_of_seqZ in Hk.
  rewrite taps_clamped by (auto; lia).
  rewrite Hs, part_copies by lia.
  rewrite rd_in_range by lia.
  f_equal. apply nth_indep. lia.
Qed.

End Clamped.

(** ** Convolution against the reference *)

(** Where the staging of the fast kernel covers its reads, every output
    element is the blend of its prior value with the clamped convolution of
    the whole input at its position. *)
Theorem convolve_clamped junk f data x y alpha beta d i :
  wf_stencil f data -> wf_halo f x -> same_partitioning f x y ->
  fast_covered f x ->
  0 <= d < Z.of_nat (length (Stencil.queue f)) ->
  0 <= i < part_size x d ->
  rd junk (part (snd (Stencil.convolve junk f x y alpha beta)) d) i
  = blend alpha beta (rd junk (part y d) i)
      (conv_ref data (Stencil.lhalo f) (concat x) (offset x d + i)).
Proof.
  intros Hwf Hhalo Hpart Hcov Hd Hi.
  destruct (convolve_formula junk f x y alpha beta d i) as [_ ->]; auto.
  { apply Hwf. }
  rewrite <- (terms_clamped junk f data x d i) by auto.
  unfold blend. destruct (alpha =? 0); ring.
Qed.

(** ** The filters [init] constructs *)

Lemma halve_until_step dev w :
  halve_until dev w
  = if (dev <? w)%N then halve_until dev (w / 2)%N else w.
Proof.
  funelim (halve_until dev w); simp halve_until; rewrite e; reflexivity.
Qed.

Lemma halve_until_bounds dev :
  (1 <= dev)%N -> (1 <= halve_until dev 1024 <= 1024)%N.
Proof.
  intros Hdev.
  do 11 (rewrite halve_until_step;
         match goal with
         | |- context [if (dev <? ?w)%N then _ else _] =>
             destruct (N.ltb_spec dev w); [| lia]
         end;
         match goal with
         | |- context [(?a / 2)%N] =>
             let v := eval vm_compute in (a / 2)%N in
             change (a / 2)%N with v
         end).
  lia.
Qed.

Lemma kernel_workgroup_size_bounds k q :
  queue_sane q -> (1 <= kernel_workgroup_size k q <= 1024)%N.
Proof.
  intros Hq. unfold kernel_workgroup_size.
  pose proof (halve_until_bounds _ (Hq k)) as H.
  set (v := halve_until _ 1024) in *. unfold uint. pow_consts.
  rewrite N.mod_small; lia.
Qed.

Lemma shrink_le size smem w : (Stencil.shrink size smem w <= w)%N.
Proof.
  induction w as [w IH] using (well_founded_induction N.lt_wf_0).
  rewrite shrink_unfold.
  destruct (Stencil.shrink_cond size smem w) eqn:Hc; [| lia].
  destruct (N.eq_dec w 0) as [-> | Hnz].
  - rewrite shrink_unfold.
    change (0 / 2)%N with 0%N. rewrite Hc.
    unfold Stencil.shrink_cond in Hc.
    apply andb_true_iff in Hc as [H1 H2].
    apply N.leb_le in H1. apply N.ltb_lt in H2.
    assert (size = 0)%N by lia. subst size.
    change (size_t (0 + size_t (2 * 0)))%N with 0%N in H2. lia.
  - assert (w / 2 < w)%N as Hlt by (apply N.div_lt; lia).
    specialize (IH _ Hlt). lia.
Qed.

Lemma plan_bounds size smem wgsize fk w :
  (1 <= size)%N -> (1 <= wgsize <= 1024)%N ->
  Stencil.plan size smem wgsize = (fk, w) ->
  (1 <= w <= 1024)%N /\ (fk = true -> (size <= w)%N).
Proof.
  intros Hsize Hw. unfold Stencil.plan.
  pose proof (shrink_le size smem wgsize) as Hle.
  destruct (N.ltb_spec (Stencil.shrink size smem wgsize) size) as [H | H];
    intros E; injection E as <- <-.
  - split; [lia | discriminate].
  - split; [lia | auto].
Qed.

Lemma compile_sane T q st st1 :
  cache_sane st -> queue_sane q ->
  Stencil.compile T q st = Some st1 ->
  cache_sane st1 /\ default false (s_compiled st1 !! q_context q) = true.
Proof.
  intros Hst Hq. unfold Stencil.compile. simpl.
  destruct (default false (s_compiled st !! q_context q)) eqn:Hc.
  - intros E. injection E as <-. auto.
  - destruct (build_sources q (Stencil.source T) EmptyString st)
      as [[program st0] |] eqn:Hb; simpl; [| discriminate].
    apply build_sources_inv in Hb as (o & -> & _).
    intros E. injection E as <-. simpl. split.
    + intros c. simpl.
      destruct (Nat.eq_dec c (q_context q)) as [-> | Hne].
      * rewrite !lookup_insert_eq. intros _. split; [eauto |].
        eexists. split; [reflexivity |].
        pose proof (kernel_workgroup_size_bounds
                      (Stencil.kernel program "conv_local") q Hq).
        pose proof (kernel_workgroup_size_bounds
                      (Stencil.kernel program "conv_remote") q Hq).
        pose proof (kernel_workgroup_size_bounds
                      (Stencil.kernel program "conv_local_big") q Hq).
        lia.
      * rewrite !lookup_insert_ne by auto. apply Hst.
    + by rewrite lookup_insert_eq.
Qed.

Lemma init_device_sane T data q st fk w st1 :
  cache_sane st -> queue_sane q -> (1 <= N.of_nat (length data))%N ->
  Stencil.init_device T data q st = Some (fk, w, st1) ->
  cache_sane st1 /\ (1 <= w <= 1024)%N
  /\ (fk = true -> (N.of_nat (length data) <= w)%N).
Proof.
  intros Hst Hq Hsize. unfold Stencil.init_device.
  destruct (Stencil.compile T q st) as [st2 |] eqn:Hc; simpl; [| discriminate].
  apply compile_sane in Hc as [Hst2 Hcomp]; auto.
  destruct (Hst2 _ Hcomp) as [[k Hk] (w0 & Hw0 & Hbound)].
  rewrite Hk, Hw0. simpl. intros E. injection E as Hplan <-.
  split; [exact Hst2 |].
  apply (plan_bounds _ _ _ _ _ Hsize Hbound Hplan).
Qed.

Lemma init_devices_sane T data queue st fks ws st' :
  cache_sane st -> Forall queue_sane queue ->
  (1 <= N.of_nat (length data))%N ->
  Stencil.init_devices T data queue st = Some (fks, ws, st') ->
  cache_sane st'
  /\ length fks = length queue /\ length ws = length queue
  /\ Forall (fun w => (1 <= w <= 1024)%N) ws
  /\ Forall2 (fun fk w => fk = true -> (N.of_nat (length data) <= w)%N)
       fks ws.
Proof.
  intros Hst Hq Hsize. revert st fks ws st' Hst.
  induction Hq as [| q queue Hq1 Hq IH]; simpl; intros st fks ws st' Hst H.
  - injection H as <- <- <-. split; [exact Hst |]. repeat split; constructor.
  - destruct (Stencil.init_device T data q st) as [[[fk w] st1] |] eqn:Hd;
      simpl in H; [| discriminate].
    destruct (Stencil.init_devices T data queue st1) as [[[fks' ws'] st2] |]
      eqn:Hds; simpl in H; [| discriminate].
    injection H as <- <- <-.
    apply init_device_sane in Hd as (Hst1 & Hw & Hfk); auto.
    destruct (IH _ _ _ _ Hst1 Hds) as (Hst2 & Hl1 & Hl2 & Hws & Hfks).
    split; [exact Hst2 |]. repeat split; simpl; auto.
Qed.

Lemma Forall2_nth_fast (size : N) fks ws d :
  Forall2 (fun (fk : bool) (w : N) => fk = true -> (size <= w)%N) fks ws ->
  nth d fks false = true -> (size <= nth d ws 0)%N.
Proof.
  intros H. revert d. induction H as [| fk w fks ws H1 H IH]; intros d Hd.
  - destruct d; discriminate.
  - destruct d as [| d]; simpl in *; auto.
Qed.

(** A filter that [init] constructs in a sane process on sane devices for
    at most [2^31] weights is well formed, and its buffers are those of
    [wf_halo]. *)
Lemma init_wf junk T queue data center st f st' :
  cache_sane st -> Forall queue_sane queue ->
  (N.of_nat (length data) <= 2 ^ 31)%N ->
  Stencil.init junk T queue data center st = Some (f, st') ->
  wf_stencil f data
  /\ Stencil.queue f = queue
  /\ Stencil.lhalo f = Z.of_N center
  /\ Z.of_nat (length (Stencil.hbuf f))
     = Z.of_nat (length queue) * (Stencil.lhalo f + Stencil.rhalo f)
  /\ (forall d, 0 <= d < Z.of_nat (length queue) ->
        Z.of_nat (length (part (Stencil.dbuf f) d))
        = Stencil.lhalo f + Stencil.rhalo f)
  /\ cache_sane st'.
Proof.
  intros Hst Hq Hsize Hinit.
  pose proof (init_inv _ _ _ _ _ _ _ _ Hinit)
    as ((Hnq & Hdata & Hc) & Hqueue & Hl & Hr & Hs & Hdev).
  destruct (halo_widths_small _ _ Hc Hsize) as [Hl' Hsum].
  rewrite <- Hl in Hl', Hsum. rewrite <- Hr in Hsum.
  apply init_devices_sane in Hdev as (Hst' & Hf1 & Hf2 & Hws & Hfks);
    auto; [| lia].
  assert (0 <= Stencil.rhalo f) as Hr0.
  { rewrite Hr. rewrite (sub64_small _ center) by (pow_consts; lia).
    rewrite sub64_small by (pow_consts; lia).
    rewrite to_int_small by (pow_consts; lia). lia. }
  assert (add_int (Stencil.lhalo f) (Stencil.rhalo f)
          = Stencil.lhalo f + Stencil.rhalo f) as Hadd
    by (apply add_int_small; pow_consts; lia).
  unfold Stencil.init in Hinit.
  destruct (negb _); [discriminate |].
  destruct (Stencil.init_devices T data queue st) as [[[fks ws] st1] |];
    simpl in Hinit; [| discriminate].
  destruct (resize _) as [hb |] eqn:Hres; simpl in Hinit; [| discriminate].
  apply resize_Some in Hres as [Hn ->].
  injection Hinit as <- <-. simpl in *. rewrite Hadd in *.
  split; [| split; [| split; [| split; [| split]]]];
    [| reflexivity | exact Hl' | | | exact Hst'].
  - unfold wf_stencil, wf_wgs. simpl.
    split; [split; [exact Hf2 |] |
            split; [exact Hf1 |
                    split; [reflexivity |
                            split; [lia | split; [lia | split; [lia |]]]]]].
    + eapply Forall_impl; [exact Hws |]. simpl. intros w Hw. pow_consts. lia.
    + intros d Hd Hfast.
      pose proof (Forall2_nth_fast _ _ _ (Z.to_nat d) Hfks Hfast). lia.
  - rewrite length_replicate. nia.
  - intros d Hd. unfold part.
    change (map ?g ?l) with (g <$> l).
    destruct (lookup_lt_is_Some_2 queue (Z.to_nat d) ltac:(lia)) as [q Hq'].
    erewrite nth_lookup_Some; [| rewrite list_lookup_fmap, Hq'; reflexivity].
    destruct (Z.ltb_spec 0 (to_int center
                            + to_int (sub64 (sub64 (N.of_nat (length data))
                                               center) 1))) as [H | H].
    + rewrite length_replicate. lia.
    + simpl. lia.
Qed.

Lemma staging_covers_small n block_size lhalo :
  lhalo <= 1 -> 0 < block_size -> staging_covers n block_size lhalo.
Proof.
  intros Hl HB. unfold staging_covers.
  pose proof (Z.mod_pos_bound n block_size HB). lia.
Qed.

Lemma length_convolve junk f x y alpha beta :
  length (snd (Stencil.convolve junk f x y alpha beta))
  = length (Stencil.queue f).
Proof.
  unfold Stencil.convolve.
  destruct (0 <? _); simpl; rewrite length_map, length_seqZ; lia.
Qed.

Lemma cache_sane_initial : cache_sane initial_state.
Proof. intros c H. discriminate. Qed.

Lemma sample_queue_sane ctx dev wg :
  (1 <= wg < 2 ^ 32)%N -> queue_sane (sample_queue ctx dev wg).
Proof.
  intros H k. simpl. unfold uint. pow_consts. rewrite N.mod_small; lia.
Qed.

(** C2, as amended: the Laplacian [[1; -2; 1]] centred at 1, constructed on
    a single device, applied to [[1; 2; 4; 8; 16]] with [alpha = 0] and
    [beta = 1]: the interior outputs at the indices 1, 2 and 3 are
    [1*1 - 2*2 + 1*4 = 1], [1*2 - 2*4 + 1*8 = 2] and [1*4 - 2*8 + 1*16 = 4],
    and the boundary outputs at the indices 0 and 4 are the same formula
    with the taps outside clamped to the nearest element:
    [1*1 - 2*1 + 1*2 = 1] and [1*8 - 2*16 + 1*16 = -8]. *)
Theorem laplacian_scenario junk T q st f st' y0 :
  cache_sane st -> queue_sane q ->
  Stencil.init junk T [q] [1; -2; 1] 1 st = Some (f, st') ->
  length y0 = 5%nat ->
  snd (Stencil.convolve junk f [[1; 2; 4; 8; 16]] [y0] 0 1)
  = [[1 * 1 - 2 * 1 + 1 * 2; 1 * 1 - 2 * 2 + 1 * 4;
      1 * 2 - 2 * 4 + 1 * 8; 1 * 4 - 2 * 8 + 1 * 16;
      1 * 8 - 2 * 16 + 1 * 16]]
  /\ [1 * 1 - 2 * 1 + 1 * 2; 1 * 1 - 2 * 2 + 1 * 4;
      1 * 2 - 2 * 4 + 1 * 8; 1 * 4 - 2 * 8 + 1 * 16; 1 * 8 - 2 * 16 + 1 * 16]
     = [1; 1; 2; 4; -8]
  /\ map (conv_ref [1; -2; 1] 1 [1; 2; 4; 8; 16]) [0; 1; 2; 3; 4]
     = [1; 1; 2; 4; -8].
Proof.
  intros Hst Hq Hinit Hy0. split; [| split; reflexivity].
  destruct (init_wf junk T [q] [1; -2; 1] 1 st f st' Hst)
    as (Hwf & Hqueue & Hl & Hhb & Hdb & _); auto.
  { vm_compute. discriminate. }
  pose proof Hwf as (Hwgs & _ & _ & _ & Hr0 & Hsum & Hfast).
  simpl in Hsum, Hl. assert (Stencil.rhalo f = 1) as Hr by lia.
  set (x := [[1; 2; 4; 8; 16]]).
  assert (wf_halo f x) as Hhalo.
  { unfold wf_halo. rewrite Hqueue, Hl, Hr. simpl.
    repeat split; try lia.
    - rewrite Hhb, Hl, Hr. simpl. lia.
    - intros d Hd. rewrite (Hdb d) by (simpl; lia). lia.
    - intros d Hd. assert (d = 0) as -> by lia. vm_compute. discriminate. }
  assert (same_partitioning f x [y0]) as Hpart.
  { unfold same_partitioning. rewrite Hqueue. simpl.
    split; [reflexivity |]. split; [reflexivity |].
    intros d. unfold part_size, part. subst x.
    change (2 ^ 62) with 4611686018427387904.
    destruct (Z.to_nat d) as [| [| d']]; simpl; rewrite ?Hy0; split; lia. }
  assert (fast_covered f x) as Hcov.
  { intros d Hd Hfd. apply staging_covers_small; [lia |].
    pose proof (wgs_nth f d Hwgs Hd). lia. }
  pose proof (length_convolve junk f x [y0] 0 1) as Hlen.
  rewrite Hqueue in Hlen. simpl in Hlen.
  destruct (snd (Stencil.convolve junk f x [y0] 0 1)) as [| p0 [| p1 rest]] eqn:E;
    try discriminate.
  f_equal.
  assert (p0 = part (snd (Stencil.convolve junk f x [y0] 0 1)) 0) as Hp0
    by (rewrite E; reflexivity).
  assert (0 <= 0 < Z.of_nat (length (Stencil.queue f))) as Hd0
    by (rewrite Hqueue; simpl; lia).
  apply (buffer_ext junk).
  - rewrite Hp0.
    destruct (convolve_formula junk f x [y0] 0 1 0 0 Hwgs Hpart Hd0)
      as [Hl0 _]; [vm_compute; split; congruence |].
    rewrite Hl0. reflexivity.
  - intros i Hi.
    assert (length p0 = 5%nat) as Hl5.
    { rewrite Hp0.
      destruct (convolve_formula junk f x [y0] 0 1 0 0 Hwgs Hpart Hd0)
        as [Hl0 _]; [vm_compute; split; congruence |].
      rewrite Hl0. reflexivity. }
    rewrite Hl5 in Hi. rewrite Hp0.
    rewrite (convolve_clamped junk f [1; -2; 1] x [y0] 0 1 0 i)
      by (auto; unfold part_size; simpl; lia).
    rewrite Hl. unfold blend. simpl (0 =? 0).
    assert (i = 0 \/ i = 1 \/ i = 2 \/ i = 3 \/ i = 4) as Hcases by lia.
    destruct Hcases as [-> | [-> | [-> | [-> | ->]]]]; reflexivity.
Qed.

Lemma laplacian_scenario_witness :
  construct_and_convolve 0 cl_long [sample_queue 0 0 256] [1; -2; 1] 1
    initial_state [[1; 2; 4; 8; 16]] [[0; 0; 0; 0; 0]] 0 1
  = Some [[1; 1; 2; 4; -8]].
Proof.
  unfold construct_and_convolve.
  destruct (Stencil.init 0 cl_long [sample_queue 0 0 256] [1; -2; 1] 1
              initial_state) as [[f st'] |] eqn:Hinit;
    [| vm_compute in Hinit; discriminate].
  simpl. f_equal.
  apply (laplacian_scenario 0 cl_long (sample_queue 0 0 256) initial_state
           f st' [0; 0; 0; 0; 0]).
  - exact cache_sane_initial.
  - apply sample_queue_sane. vm_compute. split; congruence.
  - exact Hinit.
  - reflexivity.
Defined.

(** ** One device against many *)



(** Where the staging of the fast kernels covers their reads, the pure
    convolution, which [convolve] writes with [alpha = 0] and [beta = 1],
    is the clamped convolution of the whole input. *)
Corollary pure_is_clamped junk f data x y0 d i :
  wf_stencil f data -> wf_halo f x -> same_partitioning f x y0 ->
  fast_covered f x ->
  0 <= d < Z.of_nat (length (Stencil.queue f)) ->
  0 <= i < part_size x d ->
  rd junk (part (snd (Stencil.convolve junk f x y0 0 1)) d) i
  = conv_ref data (Stencil.lhalo f) (concat x) (offset x d + i).
Proof.
  intros. rewrite (convolve_clamped junk f data x y0 0 1 d i) by auto.
  unfold blend. simpl. apply Z.mul_1_l.
Qed.

(** ** The utilities of util.hpp *)

(** One step of the bit smearing of [nextpow2]: after the shift by [r + 1]
    a bit is set if one of the [2 * r + 2] bits from it upwards was set in
    the start value [y]. *)
Lemma smear_step (y a r : N) :
  (forall i, N.testbit a i = true
             <-> exists c, (c <= r)%N /\ N.testbit y (i + c) = true) ->
  forall i, N.testbit (N.lor a (N.shiftr a (r + 1))) i = true
            <-> exists c, (c <= 2 * r + 1)%N /\ N.testbit y (i + c) = true.
Proof.
  intros H i. rewrite N.lor_spec, N.shiftr_spec', orb_true_iff, !H. split.
  - intros [(c & Hc & Hb) | (c & Hc & Hb)].
    + exists c. split; [lia | exact Hb].
    + exists (r + 1 + c)%N. split; [lia |].
      replace (i + (r + 1 + c))%N with (i + (r + 1) + c)%N by lia. exact Hb.
  - intros (c & Hc & Hb). destruct (N.le_gt_cases c r) as [Hle | Hgt].
    + left. exists c. split; [exact Hle | exact Hb].
    + right. exists (c - (r + 1))%N. split; [lia |].
      replace (i + (r + 1) + (c - (r + 1)))%N with (i + c)%N by lia. exact Hb.
Qed.

Lemma smear_bits (y : N) :
  let x1 := N.lor y (N.shiftr y 1) in
  let x2 := N.lor x1 (N.shiftr x1 2) in
  let x3 := N.lor x2 (N.shiftr x2 4) in
  let x4 := N.lor x3 (N.shiftr x3 8) in
  let x5 := N.lor x4 (N.shiftr x4 16) in
  forall i, N.testbit x5 i = true
            <-> exists c, (c <= 31)%N /\ N.testbit y (i + c) = true.
Proof.
  intros x1 x2 x3 x4 x5.
  assert (forall i, N.testbit y i = true
                    <-> exists c, (c <= 0)%N /\ N.testbit y (i + c) = true)
    as H0.
  { intros i. split.
    - intros H. exists 0%N. rewrite N.add_0_r. split; [lia | exact H].
    - intros (c & Hc & Hb). replace (i + c)%N with i in Hb by lia. exact Hb. }
  pose proof (smear_step y y 0 H0) as H1.
  pose proof (smear_step y x1 1 H1) as H2.
  pose proof (smear_step y x2 3 H2) as H3.
  pose proof (smear_step y x3 7 H3) as H4.
  exact (smear_step y x4 15 H4).
Qed.

Lemma smear_ones (y : N) :
  (0 < y < 2 ^ 32)%N ->
  let x1 := N.lor y (N.shiftr y 1) in
  let x2 := N.lor x1 (N.shiftr x1 2) in
  let x3 := N.lor x2 (N.shiftr x2 4) in
  let x4 := N.lor x3 (N.shiftr x3 8) in
  let x5 := N.lor x4 (N.shiftr x4 16) in
  x5 = N.ones (N.log2 y + 1).
Proof.
  intros Hy x1 x2 x3 x4 x5.
  pose proof (smear_bits y) as Hb. cbv zeta in Hb. fold x1 x2 x3 x4 x5 in Hb.
  assert (N.log2 y < 32)%N as Hlog by (apply N.log2_lt_pow2; lia).
  apply N.bits_inj. intros i.
  destruct (N.lt_ge_cases i (N.log2 y + 1)) as [Hlt | Hge].
  - rewrite N.ones_spec_low by exact Hlt. apply Hb.
    exists (N.log2 y - i)%N. split; [lia |].
    replace (i + (N.log2 y - i))%N with (N.log2 y) by lia.
    apply N.bit_log2. lia.
  - rewrite N.ones_spec_high by exact Hge.
    destruct (N.testbit x5 i) eqn:E; [| reflexivity].
    apply Hb in E as (c & _ & E).
    rewrite N.bits_above_log2 in E by lia. discriminate.
Qed.

(** [nextpow2] on the arguments up to [2^32]: zero gives zero, and an
    [x >= 1] gives the least power of two that is not below [x]. *)
Theorem nextpow2_least (x : N) :
  (x <= 2 ^ 32)%N ->
  (x = 0%N -> nextpow2 x = 0%N)
  /\ ((1 <= x)%N ->
      exists k, nextpow2 x = (2 ^ k)%N /\ (x <= 2 ^ k)%N /\ (2 ^ k < 2 * x)%N).
Proof.
  intros Hx. split; [intros ->; reflexivity |].
  intros H1. unfold nextpow2.
  rewrite sub64_small by (pow_consts; lia).
  destruct (N.eq_dec x 1) as [-> | Hne].
  { exists 0%N. split; [reflexivity | split; [reflexivity | reflexivity]]. }
  set (y := (x - 1)%N). cbv zeta.
  assert (0 < y < 2 ^ 32)%N as Hy by (unfold y; pow_consts; lia).
  rewrite (smear_ones y Hy).
  assert (N.log2 y < 32)%N as Hlog by (apply N.log2_lt_pow2; lia).
  destruct (N.log2_spec y ltac:(lia)) as [Hlo Hhi].
  rewrite N.ones_equiv.
  assert (0 < 2 ^ (N.log2 y + 1))%N as Hpos by (apply N.neq_0_lt_0, N.pow_nonzero; lia).
  replace (N.pred (2 ^ (N.log2 y + 1)) + 1)%N with (2 ^ (N.log2 y + 1))%N by lia.
  assert (2 ^ (N.log2 y + 1) <= 2 ^ 32)%N as Hle by (apply N.pow_le_mono_r; lia).
  exists (N.log2 y + 1)%N. split.
  - unfold size_t. apply N.mod_small. pow_consts. lia.
  - rewrite N.add_1_r in *. rewrite N.pow_succ_r' in *. unfold y in *. lia.
Qed.

Lemma nextpow2_least_witness :
  exists k, nextpow2 1000 = (2 ^ k)%N /\ (1000 <= 2 ^ k)%N
            /\ (2 ^ k < 2 * 1000)%N.
Proof.
  apply (nextpow2_least 1000); [vm_compute; discriminate | lia].
Defined.

Lemma nextpow2_wide_table :
  forallb (fun k => (nextpow2 (2 ^ k + 1) =? 2 ^ (k + 1) - 2 ^ (k - 31) + 1)%N)
    (map N.of_nat (seq 32 32)) = true.
Proof. vm_compute. reflexivity. Qed.

(** Beyond [2^32] the smearing stops short, [size_t] being 64 bits wide
    and the widest shift 16: one above the power of two [2^k], for [k] from
    32 to 63, [nextpow2] returns an odd number below [2^(k+1)]. *)
Theorem nextpow2_beyond_32_bits (k : N) :
  (32 <= k <= 63)%N ->
  nextpow2 (2 ^ k + 1) = (2 ^ (k + 1) - 2 ^ (k - 31) + 1)%N
  /\ (nextpow2 (2 ^ k + 1) < 2 ^ (k + 1))%N
  /\ N.odd (nextpow2 (2 ^ k + 1)) = true.
Proof.
  intros Hk.
  assert (nextpow2 (2 ^ k + 1) = (2 ^ (k + 1) - 2 ^ (k - 31) + 1)%N) as E.
  { pose proof nextpow2_wide_table as Ht.
    rewrite forallb_forall in Ht. apply N.eqb_eq, Ht.
    apply in_map_iff. exists (N.to_nat k). split; [lia |].
    apply in_seq. lia. }
  split; [exact E |]. rewrite E.
  assert (2 ^ (k - 31) < 2 ^ (k + 1))%N as Hlt by (apply N.pow_lt_mono_r; lia).
  assert (2 <= 2 ^ (k - 31))%N as Hge.
  { change 2%N with (2 ^ 1)%N at 1. apply N.pow_le_mono_r; lia. }
  split; [lia |].
  replace (k + 1)%N with (N.succ k) by lia.
  replace (k - 31)%N with (N.succ (k - 32)) in * by lia.
  rewrite !N.pow_succ_r' in *.
  assert (2 ^ (k - 32) <= 2 ^ k)%N by (apply N.pow_le_mono_r; lia).
  replace (2 * 2 ^ k - 2 * 2 ^ (k - 32) + 1)%N
    with (2 * (2 ^ k - 2 ^ (k - 32)) + 1)%N by lia.
  apply N.odd_odd.
Qed.

Lemma nextpow2_beyond_32_bits_witness :
  nextpow2 (2 ^ 40 + 1) = (2 ^ (40 + 1) - 2 ^ (40 - 31) + 1)%N.
Proof.
  apply (nextpow2_beyond_32_bits 40). lia.
Defined.

Lemma alignup_sum n m :
  (1 <= n + m <= 2 ^ 64)%N -> sub64 (size_t (n + m)) 1 = (n + m - 1)%N.
Proof.
  intros H. unfold sub64, size_t.
  destruct (N.eq_dec (n + m) (2 ^ 64)) as [E | E].
  - rewrite E. vm_compute. reflexivity.
  - rewrite (N.mod_small (n + m)) by lia.
    pow_consts. rewrite Z.mod_small by lia. lia.
Qed.

(** [alignup n m] is the least multiple of [m] that is not below [n], as
    long as [n + m - 1] fits [size_t]: it is a multiple of [m] between [n]
    and [n + m - 1]. *)
Theorem alignup_least_multiple (n m : N) :
  (0 < m)%N -> (n + m <= 2 ^ 64)%N ->
  (exists q, alignup n m = q * m)%N
  /\ (n <= alignup n m < n + m)%N
  /\ (alignup n m = n <-> (n mod m = 0)%N).
Proof.
  intros Hm Hsum. unfold alignup.
  rewrite alignup_sum by lia.
  set (a := (n + m - 1)%N).
  assert (a / m * m <= a)%N as Hle.
  { rewrite N.mul_comm. apply N.Div0.mul_div_le. }
  assert (a < a / m * m + m)%N as Hgt.
  { pose proof (N.div_mod a m ltac:(lia)) as Hdm.
    pose proof (N.mod_lt a m ltac:(lia)). lia. }
  assert (size_t (a / m * m) = a / m * m)%N as Hs.
  { unfold size_t. apply N.mod_small. unfold a in *. lia. }
  rewrite Hs. split; [exists (a / m)%N; reflexivity |].
  split; [unfold a in *; lia |].
  split.
  - intros E. rewrite <- E. apply N.Div0.mod_mul.
  - intros E. apply N.Div0.div_exact in E.
    assert (a / m = n / m)%N as Hq.
    { symmetry. apply (N.div_unique a m (n / m) (m - 1)); [lia |].
      unfold a. lia. }
    rewrite Hq. lia.
Qed.

Lemma alignup_least_multiple_witness :
  (exists q, alignup 1000 256 = q * 256)%N
  /\ (1000 <= alignup 1000 256 < 1000 + 256)%N
  /\ (alignup 1000 256 = 1000 <-> 1000 mod 256 = 0)%N.
Proof.
  apply (alignup_least_multiple 1000 256); [lia | vm_compute; discriminate].
Defined.

(** When [n + m - 1] does not fit [size_t], the sum wraps and [alignup]
    returns zero. *)
Theorem alignup_wraps (n m : N) :
  (n < 2 ^ 64)%N -> (m < 2 ^ 64)%N -> (2 ^ 64 < n + m)%N ->
  alignup n m = 0%N.
Proof.
  intros Hn Hm Hsum. unfold alignup.
  assert (sub64 (size_t (n + m)) 1 = n + m - 2 ^ 64 - 1)%N as E.
  { unfold sub64, size_t.
    replace ((n + m) mod 2 ^ 64)%N with (n + m - 2 ^ 64)%N.
    - pow_consts. rewrite Z.mod_small by lia. lia.
    - apply (N.mod_unique _ _ 1%N); pow_consts; lia. }
  rewrite E. rewrite N.div_small by lia. reflexivity.
Qed.

Lemma alignup_wraps_witness : alignup (2 ^ 64 - 8) 16 = 0%N.
Proof.
  apply alignup_wraps; vm_compute; reflexivity.
Defined.

Lemma halve_until_pow2 (dev j : N) :
  (1 <= dev)%N ->
  halve_until dev (2 ^ j) = (2 ^ N.min j (N.log2 dev))%N.
Proof.
  intros Hdev. induction j as [| j IH] using N.peano_ind.
  - rewrite halve_until_step. rewrite N.min_0_l.
    change (2 ^ 0)%N with 1%N.
    destruct (N.ltb_spec dev 1); [lia | reflexivity].
  - rewrite halve_until_step.
    assert (2 ^ N.succ j / 2 = 2 ^ j)%N as Hhalf.
    { rewrite N.pow_succ_r', N.mul_comm. apply N.div_mul. lia. }
    destruct (N.ltb_spec dev (2 ^ N.succ j)) as [Hlt | Hge].
    + rewrite Hhalf, IH.
      assert (N.log2 dev < N.succ j)%N by (apply N.log2_lt_pow2; lia).
      f_equal. lia.
    + assert (N.succ j <= N.log2 dev)%N by (apply N.log2_le_pow2; lia).
      f_equal. lia.
Qed.

Lemma halve_until_zero : halve_until 0 1024 = 0%N.
Proof.
  do 11 (rewrite halve_until_step;
         match goal with
         | |- context [(0 <? ?w)%N] =>
             let b := eval vm_compute in (0 <? w)%N in
             change (0 <? w)%N with b; cbv iota
         end;
         match goal with
         | |- context [(?w / 2)%N] =>
             let v := eval vm_compute in (w / 2)%N in
             change (w / 2)%N with v
         end).
  rewrite halve_until_step. reflexivity.
Qed.

(** [kernel_workgroup_size] returns the largest power of two that exceeds
    neither 1024 nor the work-group size the device reports for the kernel;
    when the device reports zero it returns zero. *)
Theorem kernel_workgroup_size_largest_pow2 (k : Kernel) (q : CommandQueue) :
  let dev := uint (kernel_work_group_size q k) in
  let w := kernel_workgroup_size k q in
  (dev = 0%N -> w = 0%N)
  /\ ((1 <= dev)%N ->
      w = (2 ^ N.min 10 (N.log2 dev))%N
      /\ (w <= dev)%N /\ (w <= 1024)%N
      /\ ((w < 1024)%N -> (dev < 2 * w)%N)).
Proof.
  intros dev w. unfold w, kernel_workgroup_size. fold dev. split.
  - intros ->. rewrite halve_until_zero. reflexivity.
  - intros Hdev.
    destruct (N.log2_spec dev ltac:(lia)) as [Hlo Hhi].
    assert (2 ^ N.min 10 (N.log2 dev) <= 2 ^ 10)%N as H10
      by (apply N.pow_le_mono_r; lia).
    assert (2 ^ N.min 10 (N.log2 dev) <= 2 ^ N.log2 dev)%N as Hlog
      by (apply N.pow_le_mono_r; lia).
    change (2 ^ 10)%N with 1024%N in H10.
    assert (uint (halve_until dev 1024) = 2 ^ N.min 10 (N.log2 dev))%N as ->.
    { change 1024%N with (2 ^ 10)%N.
      rewrite halve_until_pow2 by exact Hdev.
      unfold uint. apply N.mod_small. pow_consts. lia. }
    split; [reflexivity |].
    split; [exact (N.le_trans _ _ _ Hlog Hlo) |]. split; [exact H10 |].
    intros Hlt.
    destruct (N.min_spec 10 (N.log2 dev)) as [[_ E] | [_ E]]; rewrite E in *.
    + change (2 ^ 10)%N with 1024%N in Hlt. lia.
    + rewrite N.pow_succ_r' in Hhi. exact Hhi.
Qed.

Lemma kernel_workgroup_size_largest_pow2_witness :
  kernel_workgroup_size
    (Stencil.kernel {| p_context := 0; p_source := EmptyString;
                       p_options := EmptyString |} "conv_local")
    (sample_queue 0 0 300)
  = (2 ^ N.min 10 (N.log2 300))%N.
Proof.
  apply (kernel_workgroup_size_largest_pow2 _ (sample_queue 0 0 300)).
  vm_compute. discriminate.
Defined.

Lemma sorted_part_tail p part : sorted_part (p :: part) -> sorted_part part.
Proof.
  intros H i j a b Hij Ha Hb. apply (H (S i) (S j)); [lia | exact Ha | exact Hb].
Qed.

Lemma upper_bound_spec part c :
  sorted_part part ->
  (upper_bound part c <= length part)%nat
  /\ (forall j a, (j < upper_bound part c)%nat -> part !! j = Some a ->
        (a <= c)%N)
  /\ (forall j a, (upper_bound part c <= j)%nat -> part !! j = Some a ->
        (c < a)%N).
Proof.
  induction part as [| p part IH]; intros Hs.
  - simpl. split; [lia |]. split; intros j a _ Hj; discriminate.
  - simpl. destruct (N.ltb_spec c p) as [Hlt | Hge].
    + split; [lia |]. split; [intros j a Hj; lia |].
      intros j a _ Hj.
      assert (p <= a)%N by (apply (Hs 0%nat j); [lia | reflexivity | exact Hj]).
      lia.
    + destruct (IH (sorted_part_tail _ _ Hs)) as (Hlen & Hlow & Hhigh).
      split; [simpl; lia |]. split.
      * intros [| j] a Hj Ha.
        -- injection Ha as <-. exact Hge.
        -- apply (Hlow j); [lia | exact Ha].
      * intros [| j] a Hj Ha; [lia |].
        apply (Hhigh j); [lia | exact Ha].
Qed.

(** For sorted offsets [column_owner] returns the partition that holds the
    column: the index [d] with [part[d] <= c < part[d + 1]]. *)
Theorem column_owner_owns (part : list N) (c : N) (d : nat) (lo hi : N) :
  sorted_part part -> (N.of_nat (length part) <= 2 ^ 64)%N ->
  part !! d = Some lo -> part !! S d = Some hi ->
  (lo <= c < hi)%N ->
  column_owner part c = N.of_nat d.
Proof.
  intros Hs Hlen Hlo Hhi Hc.
  destruct (upper_bound_spec part c Hs) as (Hu & Hlow & Hhigh).
  assert (upper_bound part c = S d) as E.
  { destruct (Nat.lt_trichotomy (upper_bound part c) (S d)) as [H | [H | H]].
    - specialize (Hhigh d lo ltac:(lia) Hlo). lia.
    - exact H.
    - specialize (Hlow (S d) hi H Hhi). lia. }
  unfold column_owner. rewrite E.
  apply lookup_lt_Some in Hhi.
  rewrite sub64_small by lia. lia.
Qed.

Lemma sample_part_sorted : sorted_part [0; 3; 3; 5]%N.
Proof.
  intros i j a b Hij Ha Hb.
  destruct i as [| [| [| [| i]]]]; try discriminate;
    destruct j as [| [| [| [| j]]]]; try discriminate; try lia;
    injection Ha as <-; injection Hb as <-; lia.
Qed.

Lemma column_owner_owns_witness : column_owner [0; 3; 3; 5]%N 4 = 2%N.
Proof.
  apply (column_owner_owns [0; 3; 3; 5]%N 4 2 3 5);
    [exact sample_part_sorted | vm_compute; discriminate
     | reflexivity | reflexivity | lia].
Defined.

(** Outside the offsets [column_owner] does not fail: a column before the
    first offset (or any column, if there are no offsets) gives the index
    [-1] as a [size_t], and a column at or after the last offset gives the
    index of that offset, one past the last partition. *)
Theorem column_owner_outside (part : list N) (c : N) :
  sorted_part part -> (N.of_nat (length part) <= 2 ^ 64)%N ->
  ((forall a, part !! 0%nat = Some a -> (c < a)%N) ->
   column_owner part c = (2 ^ 64 - 1)%N)
  /\ (forall b, last part = Some b -> (b <= c)%N ->
        column_owner part c = (N.of_nat (length part) - 1)%N).
Proof.
  intros Hs Hlen.
  destruct (upper_bound_spec part c Hs) as (Hu & Hlow & Hhigh).
  split.
  - intros H0. unfold column_owner.
    assert (upper_bound part c = 0%nat) as ->.
    { destruct part as [| p part]; [reflexivity |].
      simpl. specialize (H0 p eq_refl).
      destruct (N.ltb_spec c p); [reflexivity | lia]. }
    vm_compute. reflexivity.
  - intros b Hb Hc.
    assert (upper_bound part c = length part) as E.
    { destruct (Nat.eq_dec (upper_bound part c) (length part)) as [E | E];
        [exact E |].
      rewrite last_lookup in Hb.
      specialize (Hhigh (Nat.pred (length part)) b ltac:(lia) Hb). lia. }
    unfold column_owner. rewrite E.
    assert (length part <> 0%nat).
    { destruct part; [discriminate | simpl; lia]. }
    unfold sub64. pow_consts. rewrite Z.mod_small by lia. lia.
Qed.

Lemma column_owner_outside_witness :
  column_owner [2; 3; 5]%N 1 = (2 ^ 64 - 1)%N
  /\ column_owner [0; 3; 3; 5]%N 7 = 3%N.
Proof.
  split.
  - apply (column_owner_outside [2; 3; 5]%N 1).
    + intros i j a b Hij Ha Hb.
      destruct i as [| [| [| i]]]; try discriminate;
        destruct j as [| [| [| j]]]; try discriminate; try lia;
        injection Ha as <-; injection Hb as <-; lia.
    + vm_compute. discriminate.
    + intros a Ha. injection Ha as <-. lia.
  - apply (proj2 (column_owner_outside [0; 3; 3; 5]%N 7 sample_part_sorted
                    ltac:(vm_compute; discriminate)) 5%N);
      [reflexivity | lia].
Defined.

(** ** The option stacks across devices, kinds and queues *)

Lemma stack_of_set_other kind kind' dev' m o :
  kind' <> kind ->
  stack_of kind' dev' (set_options kind m o) = stack_of kind' dev' o.
Proof. intros H. destruct kind, kind'; try reflexivity; congruence. Qed.

Lemma stack_of_insert_other kind dev dev' v o :
  dev' <> dev ->
  stack_of kind dev' (set_options kind (<[dev := v]> (options_of kind o)) o)
  = stack_of kind dev' o.
Proof.
  intros H. rewrite stack_of_set. unfold stack_of.
  rewrite lookup_insert_ne by congruence. reflexivity.
Qed.

Lemma stack_of_other kind dev kind' dev' v o :
  (kind', dev') <> (kind, dev) ->
  stack_of kind' dev' (set_options kind (<[dev := v]> (options_of kind o)) o)
  = stack_of kind' dev' o.
Proof.
  intros H.
  assert (kind' = kind \/ kind' <> kind) as [-> | Hk]
    by (destruct kind, kind'; auto; right; discriminate).
  - apply stack_of_insert_other. congruence.
  - apply stack_of_set_other. exact Hk.
Qed.

Lemma get_push_other kind dev kind' dev' str o :
  (kind', dev') <> (kind, dev) ->
  fst (device_options.get kind' dev' (device_options.push kind dev str o))
  = fst (device_options.get kind' dev' o).
Proof.
  intros H. rewrite !get_value. f_equal. apply stack_of_other. exact H.
Qed.

(** The stacks are independent: [push], [pop] and [get] for one kind and
    one device leave the stack of every other kind or device as it was. *)
Theorem options_independent kind dev kind' dev' str o :
  (kind', dev') <> (kind, dev) ->
  stack_of kind' dev' (device_options.push kind dev str o)
  = stack_of kind' dev' o
  /\ stack_of kind' dev' (device_options.pop kind dev o)
     = stack_of kind' dev' o
  /\ stack_of kind' dev' (snd (device_options.get kind dev o))
     = stack_of kind' dev' o
  /\ fst (device_options.get kind' dev' (device_options.push kind dev str o))
     = fst (device_options.get kind' dev' o).
Proof.
  intros H.
  assert (stack_of kind' dev' (device_options.push kind dev str o)
          = stack_of kind' dev' o) as Hpush
    by (apply stack_of_other; exact H).
  split; [exact Hpush |].
  split; [apply stack_of_other; exact H |].
  split; [apply stack_of_other; exact H |].
  rewrite !get_value, Hpush. reflexivity.
Qed.

Lemma options_independent_witness :
  fst (get_compile_options 1
         (push_compile_options 0 "-cl-fast-relaxed-math"
            {| opt_compile := ∅; opt_header := ∅ |}))
  = fst (get_compile_options 1 {| opt_compile := ∅; opt_header := ∅ |}).
Proof.
  apply (options_independent compile_options 0 compile_options 1).
  intros H. discriminate H.
Defined.

Lemma removelast_snoc {A} (l : list A) (a : A) : removelast (l ++ [a]) = l.
Proof. apply removelast_last. Qed.

Lemma stack_of_pushes kind dev strs o :
  stack_of kind dev
    (fold_left (fun o s => device_options.push kind dev s o) strs o)
  = stack_of kind dev o ++ strs.
Proof.
  revert o. induction strs as [| s strs IH]; intros o; simpl.
  - rewrite app_nil_r. reflexivity.
  - rewrite IH, stack_of_push, <- app_assoc. reflexivity.
Qed.

Lemma stack_of_pops kind dev n o :
  stack_of kind dev (Nat.iter n (device_options.pop kind dev) o)
  = take (length (stack_of kind dev o) - n) (stack_of kind dev o).
Proof.
  induction n as [| n IH]; simpl.
  - rewrite Nat.sub_0_r, firstn_all. reflexivity.
  - rewrite stack_of_pop, IH.
    rewrite removelast_firstn_len, length_take, take_take.
    f_equal. lia.
Qed.

(** Pushes and pops on one stack nest: after any sequence of pushes the
    top is the string pushed last, and as many pops give back the stack
    that was there before the first push. *)
Theorem pushes_then_pops_restore kind dev strs o :
  let pushed :=
    fold_left (fun o s => device_options.push kind dev s o) strs o in
  stack_of kind dev
    (Nat.iter (length strs) (device_options.pop kind dev) pushed)
  = stack_of kind dev o
  /\ forall s, last strs = Some s ->
       fst (device_options.get kind dev pushed) = s.
Proof.
  intros pushed. unfold pushed. split.
  - rewrite stack_of_pops, stack_of_pushes, length_app.
    replace (length (stack_of kind dev o) + length strs - length strs)%nat
      with (length (stack_of kind dev o)) by lia.
    apply take_app_length.
  - intros s Hs. rewrite get_value, stack_of_pushes.
    destruct strs as [| a strs _] using rev_ind; [discriminate |].
    rewrite last_snoc in Hs. injection Hs as <-.
    rewrite app_assoc. apply List.last_last.
Qed.

Lemma pushes_then_pops_restore_witness :
  fst (get_program_header 0
         (fold_left (fun o s => push_program_header 0 s o)
            ["#define A 1"; "#define B 2"]%string
            {| opt_compile := ∅; opt_header := ∅ |}))
  = "#define B 2"%string.
Proof.
  apply (pushes_then_pops_restore program_header 0
           ["#define A 1"; "#define B 2"]%string).
  reflexivity.
Defined.

(** the number of queues of a list on device [dev] *)
Lemma stack_of_push_queue kind dev str queue o :
  stack_of kind dev
    (fold_left (fun o q => device_options.push kind (qdev q) str o) queue o)
  = stack_of kind dev o
    ++ replicate (length (filter (fun q => qdev q = dev) queue)) str.
Proof.
  revert o. induction queue as [| q queue IH]; intros o; simpl.
  - rewrite app_nil_r. reflexivity.
  - rewrite IH. rewrite filter_cons.
    destruct (decide (qdev q = dev)) as [E | E].
    + rewrite E, stack_of_push. simpl. rewrite <- app_assoc. reflexivity.
    + f_equal. unfold device_options.push. apply stack_of_insert_other.
      congruence.
Qed.

Lemma stack_of_pop_queue kind dev queue o :
  stack_of kind dev
    (fold_left (fun o q => device_options.pop kind (qdev q) o) queue o)
  = take (length (stack_of kind dev o)
          - length (filter (fun q => qdev q = dev) queue))
      (stack_of kind dev o).
Proof.
  revert o. induction queue as [| q queue IH]; intros o; simpl.
  - rewrite Nat.sub_0_r, firstn_all. reflexivity.
  - rewrite IH. rewrite filter_cons.
    destruct (decide (qdev q = dev)) as [E | E].
    + rewrite E, stack_of_pop. simpl.
      rewrite removelast_firstn_len, length_take, take_take.
      f_equal. lia.
    + unfold device_options.pop. cbv zeta.
      rewrite !stack_of_insert_other by congruence. reflexivity.
Qed.

Lemma stack_of_fold_other kind' dev' (queue : list CommandQueue)
  (f : options_state -> CommandQueue -> options_state) o :
  (forall o q, stack_of kind' dev' (f o q) = stack_of kind' dev' o) ->
  stack_of kind' dev' (fold_left f queue o) = stack_of kind' dev' o.
Proof.
  intros Hf. revert o. induction queue as [| q queue IH]; intros o; simpl.
  - reflexivity.
  - rewrite IH. apply Hf.
Qed.

Lemma push_pop_queue kind dev str queue o :
  stack_of kind dev
    (fold_left (fun o q => device_options.pop kind (qdev q) o) queue
       (fold_left (fun o q => device_options.push kind (qdev q) str o)
          queue o))
  = stack_of kind dev o.
Proof.
  rewrite stack_of_pop_queue, stack_of_push_queue, length_app,
    length_replicate.
  replace (length (stack_of kind dev o)
           + length (filter (fun q => qdev q = dev) queue)
           - length (filter (fun q => qdev q = dev) queue))%nat
    with (length (stack_of kind dev o)) by lia.
  apply take_app_length.
Qed.

Lemma get_after_push_queue kind str queue o q :
  q ∈ queue ->
  fst (device_options.get kind (qdev q)
         (fold_left (fun o q => device_options.push kind (qdev q) str o)
            queue o))
  = str.
Proof.
  intros Hq. rewrite get_value, stack_of_push_queue.
  assert (exists n, length (filter (fun q' => qdev q' = qdev q) queue) = S n)
    as [n ->].
  { assert (q ∈ filter (fun q' => qdev q' = qdev q) queue) as Hin
      by (apply list_elem_of_filter; split; [reflexivity | exact Hq]).
    destruct (filter (fun q' => qdev q' = qdev q) queue) as [| a l].
    - inversion Hin.
    - exists (length l). reflexivity. }
  rewrite replicate_S_end, app_assoc. apply List.last_last.
Qed.

(** The overloads for a list of queues: after the compile options (the
    program header) are pushed for the queues, every device of the list
    reports them, and popping for the same list gives back every stack of
    every device, also when a device occurs in the list more than once. *)
Theorem queue_options_round_trip queue str o :
  (forall q, q ∈ queue ->
     fst (get_compile_options (qdev q)
            (push_compile_options_queue queue str o)) = str
     /\ fst (get_program_header (qdev q)
               (push_program_header_queue queue str o)) = str)
  /\ (forall kind dev,
        stack_of kind dev
          (pop_compile_options_queue queue
             (push_compile_options_queue queue str o))
        = stack_of kind dev o
        /\ stack_of kind dev
             (pop_program_header_queue queue
                (push_program_header_queue queue str o))
           = stack_of kind dev o).
Proof.
  split.
  - intros q Hq. split; apply get_after_push_queue; exact Hq.
  - intros kind dev.
    unfold pop_compile_options_queue, push_compile_options_queue,
      pop_program_header_queue, push_program_header_queue.
    destruct kind; split; try apply push_pop_queue;
      (rewrite !stack_of_fold_other;
       [reflexivity
       | intros o' q; apply stack_of_set_other; discriminate ..]).
Qed.

Lemma queue_options_round_trip_witness :
  fst (get_compile_options 1
         (push_compile_options_queue
            [sample_queue 0 0 256; sample_queue 0 1 256; sample_queue 0 0 256]
            "-DN=4" {| opt_compile := ∅; opt_header := ∅ |}))
  = "-DN=4"%string.
Proof.
  refine (proj1 (proj1 (queue_options_round_trip
           [sample_queue 0 0 256; sample_queue 0 1 256; sample_queue 0 0 256]
           "-DN=4" {| opt_compile := ∅; opt_header := ∅ |})
           (sample_queue 0 1 256) _)).
  apply list_elem_of_In. right. left. reflexivity.
Defined.

(** ** Compile flags and error texts *)

Lemma ps_options_with o st : ps_options (with_options o st) = o.
Proof. reflexivity. Qed.

(** [build_sources] reads the compile flags of the first device of the
    context: flags pushed for that device end the option string of the
    build, whichever device the queue is on, and flags pushed for any other
    device do not reach the build. *)
Theorem build_sources_first_device q source options st dev str :
  (dev <> context_device0 q ->
   fst <$> build_sources q source options
             (with_options (push_compile_options dev str (ps_options st)) st)
   = fst <$> build_sources q source options st)
  /\ (forall prog st',
        build_sources q source options
          (with_options
             (push_compile_options (context_device0 q) str (ps_options st))
             st)
        = Some (prog, st') ->
        p_options prog = (options ++ " " ++ str)%string
        /\ p_source prog = source /\ p_context prog = q_context q).
Proof.
  split.
  - intros Hdev. unfold build_sources.
    destruct (get_compile_options (context_device0 q)
                (ps_options (with_options
                   (push_compile_options dev str (ps_options st)) st)))
      as [co o] eqn:E1.
    destruct (get_compile_options (context_device0 q) (ps_options st))
      as [co' o'] eqn:E2.
    assert (co = co') as ->.
    { change co with (fst (co, o)). change co' with (fst (co', o')).
      rewrite <- E1, <- E2, ps_options_with.
      apply (get_push_other compile_options dev). congruence. }
    destruct (build_ok q source _); reflexivity.
  - intros prog st'. unfold build_sources.
    destruct (get_compile_options (context_device0 q) _) as [co o] eqn:E.
    assert (co = str) as ->.
    { change co with (fst (co, o)). rewrite <- E.
      unfold get_compile_options, push_compile_options.
      rewrite get_value, ps_options_with, stack_of_push.
      apply List.last_last. }
    destruct (build_ok q source _); [| discriminate].
    intros H. injection H as <- _. simpl. auto.
Qed.

Lemma build_sources_first_device_witness :
  let q := {| q_context := 0; q_device := 1; context_device0 := 0;
              local_mem_size := 32768;
              kernel_work_group_size := fun _ => 256%N;
              kernel_local_mem_size := fun _ => 0%N;
              build_ok := fun _ _ => true |} in
  fst <$> build_sources q "kernel void f() {}" EmptyString
            (with_options
               (push_compile_options 1 "-DX" (ps_options initial_state))
               initial_state)
  = fst <$> build_sources q "kernel void f() {}" EmptyString initial_state.
Proof.
  intros q.
  apply (build_sources_first_device q "kernel void f() {}" EmptyString
           initial_state 1 "-DX").
  simpl. discriminate.
Defined.

Ltac split_pos p n :=
  lazymatch n with
  | O => idtac
  | S ?n' => destruct p as [p | p |]; [split_pos p n' | split_pos p n' |]
  end.

(** The text of an error code is [Unknown error] exactly for the codes
    outside the two ranges the switch names, [-14 .. 0] and [-64 .. -30];
    the stream receives the text between parentheses after [what()]. *)
Theorem unknown_error_codes (what : string) (err : Z) :
  (CL_ERR2TXT err = "Unknown error"%string <-> named_error err = false)
  /\ output_error what err = (what ++ "(" ++ CL_ERR2TXT err ++ ")")%string.
Proof.
  split; [| reflexivity].
  destruct err as [| p | p].
  - split; discriminate.
  - split; reflexivity.
  - split_pos p 7%nat;
      (split; [intros H; try discriminate H; try reflexivity
              | intros H; try discriminate H; try reflexivity]).
Qed.

Lemma named_error_codes err :
  named_error err = true -> err ∈ seqZ (-64) 35 ++ seqZ (-14) 15.
Proof.
  unfold named_error. intros H.
  apply orb_true_iff in H as [H | H]; apply andb_true_iff in H as [H1 H2];
    apply Z.leb_le in H1, H2; apply elem_of_app; [right | left];
    apply elem_of_seqZ; lia.
Qed.

Lemma error_texts_distinct :
  NoDup (CL_ERR2TXT <$> seqZ (-64) 35 ++ seqZ (-14) 15).
Proof. apply (bool_decide_unpack _). vm_compute. reflexivity. Qed.

(** The switch gives different texts to different codes it names, so that
    the code can be read off the text. *)
Theorem error_texts_injective (a b : Z) :
  named_error a = true -> named_error b = true ->
  CL_ERR2TXT a = CL_ERR2TXT b -> a = b.
Proof.
  intros Ha Hb E.
  apply named_error_codes, list_elem_of_lookup in Ha as [i Hi].
  apply named_error_codes, list_elem_of_lookup in Hb as [j Hj].
  pose proof error_texts_distinct as Hnd.
  assert (i = j) as ->.
  { apply (NoDup_lookup _ i j (CL_ERR2TXT a) Hnd).
    - rewrite list_lookup_fmap, Hi. reflexivity.
    - rewrite list_lookup_fmap, Hj, E. reflexivity. }
  congruence.
Qed.

Lemma error_texts_injective_witness :
  named_error (-5) = true /\ named_error (-5) = true
  /\ -5 = -5.
Proof.
  split; [reflexivity |]. split; [reflexivity |].
  apply error_texts_injective; reflexivity.
Defined.

(** ** Operator traits and the static loop *)

(** Different binary operations have different operator texts and
    different name prefixes. *)
Theorem binop_traits_injective (a b : binop.kind) :
  (binop.oper a = binop.oper b -> a = b)
  /\ (binop.name a = binop.name b -> a = b).
Proof.
  split; destruct a, b; intros H; try reflexivity; discriminate H.
Qed.

Lemma binop_traits_injective_witness :
  binop.Add = binop.Add.
Proof.
  apply (binop_traits_injective binop.Add binop.Add). reflexivity.
Defined.

Lemma iterate_step {State} End (f : Z -> State -> State) i st :
  static_for.iterate End f i st
  = if i <? End then static_for.iterate End f (i + 1) (f i st) else st.
Proof.
  funelim (static_for.iterate End f i st); simp iterate; rewrite e;
    reflexivity.
Qed.

Lemma iterate_fold {State} (f : Z -> State -> State) (n : nat) i st :
  static_for.iterate (i + Z.of_nat n) f i st
  = fold_left (fun st i => f i st) (seqZ i (Z.of_nat n)) st.
Proof.
  revert i st. induction n as [| n IH]; intros i st.
  - rewrite iterate_step. replace (i + Z.of_nat 0) with i by lia.
    rewrite Z.ltb_irrefl. reflexivity.
  - rewrite iterate_step.
    destruct (Z.ltb_spec i (i + Z.of_nat (S n))) as [_ | H]; [| lia].
    replace (i + Z.of_nat (S n)) with (i + 1 + Z.of_nat n) by lia.
    rewrite IH.
    replace (Z.of_nat (S n)) with (Z.succ (Z.of_nat n)) by lia.
    rewrite (seqZ_cons i) by lia. simpl.
    replace (Z.succ i) with (i + 1) by lia.
    replace (Z.pred (Z.succ (Z.of_nat n))) with (Z.of_nat n) by lia.
    reflexivity.
Qed.

(** [static_for<Begin, End>::loop] applies the functor at [Begin],
    [Begin + 1], ..., [End - 1] in this order and at no other index, so not
    at all when [End <= Begin]; a loop over a range is the loop over its
    first part followed by the loop over the rest. *)
Theorem static_for_loop {State} (Begin End : Z) (f : Z -> State -> State)
  (st : State) :
  static_for.loop Begin End f st
  = fold_left (fun st i => f i st) (seqZ Begin (End - Begin)) st
  /\ forall Mid, Begin <= Mid <= End ->
       static_for.loop Mid End f (static_for.loop Begin Mid f st)
       = static_for.loop Begin End f st.
Proof.
  assert (forall B E s, static_for.loop B E f s
                        = fold_left (fun st i => f i st) (seqZ B (E - B)) s)
    as Hfold.
  { intros B E s. unfold static_for.loop.
    destruct (Z.le_gt_cases B E) as [Hle | Hgt].
    - replace E with (B + Z.of_nat (Z.to_nat (E - B))) at 1 by lia.
      rewrite iterate_fold. f_equal. f_equal. lia.
    - rewrite iterate_step.
      destruct (Z.ltb_spec B E) as [H | _]; [lia |].
      rewrite seqZ_nil by lia. reflexivity. }
  split; [apply Hfold |].
  intros Mid HMid. rewrite !Hfold.
  replace (End - Begin) with ((Mid - Begin) + (End - Mid)) by lia.
  rewrite seqZ_app by lia. rewrite fold_left_app.
  replace (Begin + (Mid - Begin)) with Mid by lia. reflexivity.
Qed.

Lemma static_for_loop_witness :
  static_for.loop 2 5 (fun i l => l ++ [i]) (static_for.loop 0 2 (fun i l => l ++ [i]) [])
  = static_for.loop 0 5 (fun i l => l ++ [i]) [].
Proof.
  apply (static_for_loop 0 5 (fun i l => l ++ [i]) []). lia.
Defined.

(** ** The constructed filter against the reference *)



Lemma sample_stencil_constructed :
  exists st', Stencil.init 0 cl_long [sample_queue 0 0 4; sample_queue 0 1 4]
                [1; -2; 1] 1 initial_state = Some (sample_stencil, st').
Proof.
  pose proof sample_stencil_init as H.
  destruct (Stencil.init 0 cl_long [sample_queue 0 0 4; sample_queue 0 1 4]
              [1; -2; 1] 1 initial_state) as [[f st'] |]; [| discriminate H].
  exists st'. simpl in H. injection H as ->. reflexivity.
Qed.

Lemma sample_queues_sane :
  Forall queue_sane [sample_queue 0 0 4; sample_queue 0 1 4].
Proof.
  repeat constructor; apply sample_queue_sane; vm_compute; split; congruence.
Qed.






(** ** The operators *)



(** ** A filter is applied again *)

Lemma length_fold_copy_in hb (rs : list (Z * list Z)) :
  length (fold_left (fun hb r => copy_in hb (fst r) (snd r)) rs hb)
  = length hb.
Proof.
  revert hb. induction rs as [| r rs IH]; intros hb; simpl; [reflexivity |].
  rewrite IH. apply length_copy_in.
Qed.

Lemma length_read_halos junk lhalo rhalo nq hb x :
  length (Stencil.read_halos junk lhalo rhalo nq hb x) = length hb.
Proof.
  unfold Stencil.read_halos. destruct (_ && _); [| reflexivity].
  generalize (seqZ 0 nq). intros ds. revert hb.
  induction ds as [| d ds IH]; intros hb; simpl; [reflexivity |].
  rewrite IH. apply length_fold_copy_in.
Qed.

Lemma length_write_halos junk lhalo rhalo nq hb d db :
  length (Stencil.write_halos junk lhalo rhalo nq hb d db) = length db.
Proof.
  unfold Stencil.write_halos.
  destruct (_ && _); destruct (_ && _); rewrite ?length_copy_in; reflexivity.
Qed.






(** ** The local memory of the fast kernel *)

Lemma upd_other (m : Z -> Z) i v a : a <> i -> upd m i v a = m a.
Proof. intros H. unfold upd. destruct (Z.eqb_spec a i); [lia | reflexivity]. Qed.

(** The fast kernel stays inside the local memory [convolve] gives it: a
    work-item writes no address outside the [wgs[d] + 2 * (lhalo + rhalo)
    + 1] elements of the argument while it stages, and what it computes
    depends on no address outside them. *)
Theorem fast_kernel_stays_in_local_memory junk n lhalo rhalo x s w
  g_id l_id alpha beta (m m' : Z -> Z) y :
  0 <= lhalo -> 0 <= rhalo ->
  Z.of_N w + 2 * (lhalo + rhalo) + 1 < 2 ^ 32 ->
  0 <= l_id < Z.of_N w ->
  let size := Z.of_N (local_elems w lhalo rhalo) in
  (forall a, ~ 0 <= a < size ->
     Stencil.conv_local_stage junk n lhalo rhalo x s (Z.of_N w) g_id l_id m a
     = m a)
  /\ ((forall a, 0 <= a < size -> m a = m' a) ->
      Stencil.conv_local_compute junk n lhalo rhalo alpha beta g_id l_id m y
      = Stencil.conv_local_compute junk n lhalo rhalo alpha beta g_id l_id
          m' y).
Proof.
  intros Hl Hr Hw Hlid size.
  assert (size = Z.of_N w + 2 * (lhalo + rhalo) + 1) as Hsize.
  { unfold size, local_elems. rewrite Z.mod_small by lia. lia. }
  split.
  - intros a Ha. unfold Stencil.conv_local_stage.
    destruct (l_id <? lhalo + rhalo + 1);
      destruct (g_id <? n);
      try destruct ((l_id <? lhalo) && (lhalo <=? g_id));
      try destruct ((l_id + rhalo <? Z.of_N w) || (g_id + rhalo <? n));
      rewrite ?upd_other by lia; reflexivity.
  - intros Hm. unfold Stencil.conv_local_compute.
    destruct (g_id <? n); [| reflexivity]. f_equal. f_equal.
    rewrite !fold_guarded. f_equal. apply Zsum_ext. intros k Hk.
    apply elem_of_seqZ in Hk.
    destruct (_ && _); [| reflexivity].
    rewrite !Hm by lia. reflexivity.
Qed.

Lemma fast_kernel_stays_in_local_memory_witness :
  Stencil.conv_local_stage 0 5 1 1 [1; 2; 4; 8; 16] [1; -2; 1] 4 3 3
    (fun _ => 7) 9
  = 7.
Proof.
  apply (fast_kernel_stays_in_local_memory 0 5 1 1 [1; 2; 4; 8; 16]
           [1; -2; 1] 4 3 3 0 1 (fun _ => 7) (fun _ => 7) []);
    [lia | lia | vm_compute; reflexivity | lia |].
  intros [_ H]. vm_compute in H. discriminate H.
Defined.

Lemma init_device_inv T data q st fk w st1 :
  Stencil.init_device T data q st = Some (fk, w, st1) ->
  Stencil.compile T q st = Some st1
  /\ exists k, s_conv_local st1 !! q_context q = Some k
               /\ Stencil.plan (N.of_nat (length data)) (Stencil.smem T q k)
                    (default 0%N (s_wgsize st1 !! q_context q))
                  = (fk, w).
Proof.
  unfold Stencil.init_device. intros H.
  destruct (Stencil.compile T q st) as [st2 |]; simpl in H; [| discriminate].
  destruct (s_conv_local st2 !! q_context q) as [k |] eqn:Ek; simpl in H;
    [| discriminate].
  injection H as H <-. split; [reflexivity |].
  exists k. split; [exact Ek | exact H].
Qed.

Lemma init_device_fits T data q st fk w st1 lhalo rhalo :
  cache_sane st -> queue_sane q ->
  (1 <= sizeof T)%N ->
  (forall k, (kernel_local_mem_size q k <= local_mem_size q < 2 ^ 64)%N) ->
  0 <= lhalo -> 0 <= rhalo ->
  Z.of_nat (length data) = lhalo + rhalo + 1 ->
  Stencil.init_device T data q st = Some (fk, w, st1) -> fk = true ->
  exists k, s_conv_local st1 !! q_context q = Some k
            /\ (local_arg T w lhalo rhalo
                <= local_mem_size q - kernel_local_mem_size q k)%N.
Proof.
  intros Hst Hq HT Hmem Hl Hr Hsize Hinit ->.
  destruct (init_device_inv _ _ _ _ _ _ _ Hinit) as (Hc & k & Hk & Hplan).
  destruct (compile_sane T q st st1 Hst Hq Hc) as [Hst1 Hcomp].
  destruct (Hst1 _ Hcomp) as (_ & wg & Hwg & Hwgb).
  rewrite Hwg in Hplan. simpl in Hplan.
  exists k. split; [exact Hk |].
  unfold Stencil.plan in Hplan.
  set (size := N.of_nat (length data)) in *.
  pose proof (shrink_le size (Stencil.smem T q k) wg) as Hle.
  destruct (N.ltb_spec (Stencil.shrink size (Stencil.smem T q k) wg) size)
    as [Hlt | Hge]; [discriminate |].
  injection Hplan as <-.
  set (sh := Stencil.shrink size (Stencil.smem T q k) wg) in *.
  assert (size < 2 ^ 62)%N as Hs62 by (pow_consts; lia).
  assert (wg < 2 ^ 32)%N as Hw32 by (pow_consts; lia).
  destruct (shrink_spec size (Stencil.smem T q k) wg Hs62 Hw32)
    as (j & Ej & _ & Hstop).
  fold sh in Ej. rewrite <- Ej in Hstop.
  assert (sh + 2 * size <= Stencil.smem T q k)%N as Hfit by lia.
  unfold Stencil.smem in Hfit.
  destruct (Hmem k) as [HK HL].
  rewrite sub64_small in Hfit by assumption.
  set (free := (local_mem_size q - kernel_local_mem_size q k)%N) in *.
  assert (uint (free / sizeof T) <= free / sizeof T)%N as Hu.
  { unfold uint. apply N.Div0.mod_le. }
  assert (free / sizeof T * sizeof T <= free)%N as Hdiv.
  { rewrite N.mul_comm. apply N.Div0.mul_div_le. }
  assert (local_elems sh lhalo rhalo = sh + 2 * size - 1)%N as He.
  { unfold local_elems. pow_consts. rewrite Z.mod_small by lia. lia. }
  unfold local_arg. rewrite He.
  assert ((sh + 2 * size - 1) * sizeof T <= free)%N as Hb by nia.
  unfold size_t. rewrite N.mod_small; [exact Hb |].
  unfold free in *. lia.
Qed.

Lemma init_devices_fit T data queue st fks ws st' lhalo rhalo :
  cache_sane st -> Forall queue_sane queue ->
  (1 <= sizeof T)%N ->
  Forall (fun q => forall k,
            (kernel_local_mem_size q k <= local_mem_size q < 2 ^ 64)%N)
    queue ->
  0 <= lhalo -> 0 <= rhalo ->
  Z.of_nat (length data) = lhalo + rhalo + 1 ->
  Stencil.init_devices T data queue st = Some (fks, ws, st') ->
  forall (d : nat) q, queue !! d = Some q -> fks !! d = Some true ->
    exists k w, ws !! d = Some w
      /\ s_conv_local st' !! q_context q = Some k
      /\ (local_arg T w lhalo rhalo
          <= local_mem_size q - kernel_local_mem_size q k)%N.
Proof.
  intros Hst Hq HT Hmem Hl Hr Hsize. revert st fks ws Hst.
  induction queue as [| q0 queue IH]; intros st fks ws Hst Hinit d q Hd Hfk.
  - discriminate.
  - simpl in Hinit.
    destruct (Stencil.init_device T data q0 st) as [[[fk w] st1] |] eqn:E0;
      simpl in Hinit; [| discriminate].
    destruct (Stencil.init_devices T data queue st1)
      as [[[fks' ws'] st2] |] eqn:E1; simpl in Hinit; [| discriminate].
    injection Hinit as <- <- <-.
    apply Forall_cons in Hq as [Hq0 Hq]. apply Forall_cons in Hmem as [Hm0 Hm].
    destruct (init_device_sane T data q0 st fk w st1 Hst Hq0 ltac:(lia) E0)
      as (Hst1 & _ & _).
    destruct d as [| d].
    + simpl in Hd, Hfk. injection Hd as <-. injection Hfk as ->.
      destruct (init_device_fits T data q0 st true w st1 lhalo rhalo
                  Hst Hq0 HT Hm0 Hl Hr Hsize E0 eq_refl) as (k & Hk & Hb).
      exists k, w. split; [reflexivity |]. split; [| exact Hb].
      destruct (init_device_inv _ _ _ _ _ _ _ E0) as (Hc & _).
      destruct (compile_sane T q0 st st1 Hst Hq0 Hc) as [_ Hcomp].
      destruct (init_devices_extends T data queue st1 fks' ws' st2 E1)
        as [Hext _].
      destruct (Hext (PlainKey (q_context q0))) as [_ Hkeep].
      destruct (Hkeep Hcomp) as [Hentry _].
      simpl in Hentry. injection Hentry as Hcl _ _ _.
      rewrite Hcl. exact Hk.
    + simpl in Hd, Hfk.
      apply (IH Hq Hm st1 fks' ws' Hst1 E1 d q Hd Hfk).
Qed.

(** The local memory of the fast kernel fits: on every device for which
    [init] selects the fast kernel, the local-memory argument [convolve]
    passes, [(wgs[d] + 2 * (lhalo + rhalo) + 1) * sizeof(T)] bytes, does
    not exceed the local memory of the device less what the kernel itself
    occupies there. *)
Theorem fast_kernel_local_memory_fits junk T queue data center st f st' :
  cache_sane st -> Forall queue_sane queue ->
  (N.of_nat (length data) <= 2 ^ 31)%N -> (1 <= sizeof T)%N ->
  Forall (fun q => forall k,
            (kernel_local_mem_size q k <= local_mem_size q < 2 ^ 64)%N)
    queue ->
  Stencil.init junk T queue data center st = Some (f, st') ->
  forall (d : nat) q,
    queue !! d = Some q -> Stencil.fast_kernel f !! d = Some true ->
    exists k w, Stencil.wgs f !! d = Some w
      /\ s_conv_local st' !! q_context q = Some k
      /\ (local_arg T w (Stencil.lhalo f) (Stencil.rhalo f)
          <= local_mem_size q - kernel_local_mem_size q k)%N.
Proof.
  intros Hst Hq Hdata HT Hmem Hinit d q Hd Hfk.
  destruct (init_wf junk T queue data center st f st' Hst Hq Hdata Hinit)
    as (Hwf & _).
  destruct Hwf as (_ & _ & _ & Hl & Hr & Hsum & _).
  destruct (init_inv junk T queue data center st f st' Hinit)
    as (_ & _ & _ & _ & _ & Hdev).
  exact (init_devices_fit T data queue st _ _ st' _ _ Hst Hq HT Hmem Hl Hr
           Hsum Hdev d q Hd Hfk).
Qed.

Lemma sample_queues_memory :
  Forall (fun q => forall k,
            (kernel_local_mem_size q k <= local_mem_size q < 2 ^ 64)%N)
    [sample_queue 0 0 4; sample_queue 0 1 4].
Proof.
  constructor; [| constructor; [| constructor]];
    intros k; simpl; pow_consts; lia.
Qed.

Lemma fast_kernel_local_memory_fits_witness :
  exists st' k w,
    Stencil.init 0 cl_long [sample_queue 0 0 4; sample_queue 0 1 4]
      [1; -2; 1] 1 initial_state = Some (sample_stencil, st')
    /\ Stencil.wgs sample_stencil !! 1%nat = Some w
    /\ s_conv_local st' !! q_context (sample_queue 0 1 4) = Some k
    /\ (local_arg cl_long w (Stencil.lhalo sample_stencil)
          (Stencil.rhalo sample_stencil)
        <= local_mem_size (sample_queue 0 1 4)
           - kernel_local_mem_size (sample_queue 0 1 4) k)%N.
Proof.
  destruct sample_stencil_constructed as [st' Hinit].
  destruct (fast_kernel_local_memory_fits 0 cl_long
              [sample_queue 0 0 4; sample_queue 0 1 4] [1; -2; 1] 1
              initial_state sample_stencil st' cache_sane_initial
              sample_queues_sane ltac:(vm_compute; discriminate)
              ltac:(vm_compute; discriminate)
              sample_queues_memory
              Hinit 1%nat (sample_queue 0 1 4) eq_refl eq_refl)
    as (k & w & Hw & Hk & Hb).
  exists st', k, w. auto.
Defined.

(** ** Construction succeeds or fails *)

Lemma compile_succeeds T q st :
  (forall source options, build_ok q source options = true) ->
  exists st1, Stencil.compile T q st = Some st1.
Proof.
  intros Hb. unfold Stencil.compile.
  destruct (default false (s_compiled st !! q_context q)); [eauto |].
  unfold build_sources.
  destruct (get_compile_options (context_device0 q) (ps_options st))
    as [co o].
  rewrite Hb. simpl. eauto.
Qed.

Lemma init_devices_succeed T data queue st :
  cache_sane st -> Forall queue_sane queue ->
  Forall (fun q => forall source options, build_ok q source options = true)
    queue ->
  exists r, Stencil.init_devices T data queue st = Some r.
Proof.
  intros Hst Hq Hb. revert st Hst.
  induction queue as [| q queue IH]; intros st Hst; simpl; [eauto |].
  apply Forall_cons in Hq as [Hq0 Hq]. apply Forall_cons in Hb as [Hb0 Hb].
  destruct (compile_succeeds T q st Hb0) as [st1 Hc].
  destruct (compile_sane T q st st1 Hst Hq0 Hc) as [Hst1 Hcomp].
  destruct (Hst1 _ Hcomp) as ((k & Hk) & _).
  rewrite (init_device_some T data q st st1 k Hc Hk).
  destruct (Stencil.plan _ _ _) as [fk w]. simpl.
  destruct (IH Hq Hb st1 Hst1) as [[[fks ws] st2] E].
  rewrite E. simpl. eauto.
Qed.

(** When the runtime builds the program, construction fails exactly on
    its assertions and in [hbuf.resize]: [init] returns a filter if and
    only if there is a queue, there is a weight, the center is the index of
    a weight, and the width less one, reduced modulo [2^32], is below
    [2^31], that is, the halo widths do not add up to a negative [int]. *)
Theorem init_succeeds_iff junk T queue data center st :
  cache_sane st -> Forall queue_sane queue ->
  Forall (fun q => forall source options, build_ok q source options = true)
    queue ->
  is_Some (Stencil.init junk T queue data center st)
  <-> queue <> [] /\ data <> [] /\ (center < N.of_nat (length data))%N
      /\ (Z.of_nat (length data) - 1) mod 2 ^ 32 < 2 ^ 31.
Proof.
  intros Hst Hq Hb. split.
  - intros [[f st'] Hinit].
    destruct (init_buffers junk T queue data center st f st' Hinit)
      as (Hhalo & _).
    destruct (init_inv junk T queue data center st f st' Hinit)
      as ((H1 & H2 & H3) & _ & Hl & Hr & _).
    split; [intros ->; simpl in H1; lia |].
    split; [intros ->; simpl in H2; lia |]. split; [exact H3 |].
    rewrite Hl, Hr, init_halo_sum in Hhalo. apply int_sign in Hhalo.
    rewrite nat_N_Z in Hhalo. exact Hhalo.
  - intros (H1 & H2 & H3 & H4).
    destruct (init_devices_succeed T data queue st Hst Hq Hb)
      as [[[fks ws] st1] E].
    destruct (init_some junk T queue data center st fks ws st1) as [f Hf];
      [destruct queue; [congruence | simpl; lia] | exact H3 | | exact E |].
    + rewrite init_halo_sum. apply int_sign. rewrite nat_N_Z. exact H4.
    + rewrite Hf. eauto.
Qed.

Lemma init_succeeds_iff_witness :
  is_Some (Stencil.init 0 cl_long [sample_queue 0 0 4; sample_queue 0 1 4]
             [1; -2; 1] 1 initial_state).
Proof.
  apply (init_succeeds_iff 0 cl_long
           [sample_queue 0 0 4; sample_queue 0 1 4] [1; -2; 1] 1
           initial_state cache_sane_initial sample_queues_sane).
  - constructor; [| constructor; [| constructor]]; reflexivity.
  - split; [discriminate |]. split; [discriminate |].
    split; reflexivity.
Defined.

(** A failing build aborts the construction: when the program of the
    context of the first queue is not compiled yet and the runtime rejects
    it, [init] returns no filter. *)
Theorem init_build_failure junk T q queue data center st :
  default false (s_compiled st !! q_context q) = false ->
  (forall source options, build_ok q source options = false) ->
  Stencil.init junk T (q :: queue) data center st = None.
Proof.
  intros Hc Hb. unfold Stencil.init.
  destruct (negb _); [reflexivity |].
  simpl. unfold Stencil.init_device, Stencil.compile. rewrite Hc.
  unfold build_sources.
  destruct (get_compile_options (context_device0 q) (ps_options st))
    as [co o].
  rewrite Hb. reflexivity.
Qed.

Lemma init_build_failure_witness :
  Stencil.init 0 cl_long
    [{| q_context := 0; q_device := 0; context_device0 := 0;
        local_mem_size := 32768;
        kernel_work_group_size := fun _ => 256%N;
        kernel_local_mem_size := fun _ => 0%N;
        build_ok := fun _ _ => false |}]
    [1; -2; 1] 1 initial_state
  = None.
Proof.
  apply init_build_failure; reflexivity.
Defined.

(** ** The kernels of the generalized filter *)

Section GLaunches.

Variable junk : Z.
Variable call : string -> Z -> Z.

(** A launch in work-groups of a kernel whose work-item [g] rewrites, after
    the barrier and under a guard, the element at [g] and nothing else. *)
Lemma launch_groups_guarded (cond : Z -> bool)
  (F : (Z -> Z) -> Z -> Z -> Z -> Z)
  (stage : Z -> Z -> (Z -> Z) -> Z -> Z)
  (compute : Z -> Z -> (Z -> Z) -> list Z -> list Z) (block_size : Z) :
  0 < block_size ->
  (forall g l loc y,
      compute g l loc y
      = if cond g then wr y g (F loc g l (rd junk y g)) else y) ->
  forall groups y,
    let y' := fold_left (fun y group =>
                           run_group junk stage compute block_size group y)
                (seqZ 0 groups) y in
    length y' = length y
    /\ forall i, 0 <= i < Z.of_nat (length y) ->
         rd junk y' i
         = if (i <? groups * block_size) && cond i
           then F (staged_local junk stage block_size (i / block_size)) i
                  (i mod block_size) (rd junk y i)
           else rd junk y i.
Proof.
  intros HB Hc groups y.
  destruct (Z.le_gt_cases groups 0) as [Hg | Hg].
  { rewrite seqZ_nil by lia. simpl. split; [reflexivity |]. intros i Hi.
    destruct (Z.ltb_spec i (groups * block_size)); [nia | reflexivity]. }
  rewrite <- (Z2Nat.id groups) by lia. clear Hg.
  induction (Z.to_nat groups) as [| k IH].
  - simpl. split; [reflexivity |]. intros i Hi.
    replace (i <? Z.of_nat 0 * block_size) with false
      by (symmetry; apply Z.ltb_ge; lia).
    reflexivity.
  - rewrite seqZ_S, fold_left_app. simpl. destruct IH as [IHlen IH].
    set (y1 := fold_left _ (seqZ 0 (Z.of_nat k)) y) in *.
    pose proof (launch_single_cell junk
                  (fun l => cond ((0 + Z.of_nat k) * block_size + l))
                  ((0 + Z.of_nat k) * block_size)
                  (fun l v =>
                     F (staged_local junk stage block_size (0 + Z.of_nat k))
                       ((0 + Z.of_nat k) * block_size + l) l v)
                  (fun l y =>
                     compute ((0 + Z.of_nat k) * block_size + l) l
                       (staged_local junk stage block_size (0 + Z.of_nat k)) y))
      as Hl.
    destruct (Hl ltac:(intros; apply Hc) block_size y1) as [Hlen Hrd].
    unfold launch in Hlen, Hrd. unfold run_group.
    fold (staged_local junk stage block_size (0 + Z.of_nat k)).
    split; [congruence |].
    intros i Hi. rewrite Hrd by lia. rewrite IH by lia.
    assert (Z.of_nat (S k) * block_size
            = Z.of_nat k * block_size + block_size) as E by lia.
    rewrite E. clear Hl Hlen Hrd E.
    change (0 + Z.of_nat k) with (Z.of_nat k).
    destruct (Z.ltb_spec i (Z.of_nat k * block_size)) as [H1 | H1].
    + replace (0 <=? i - Z.of_nat k * block_size) with false
        by (symmetry; apply Z.leb_gt; lia).
      replace (i <? Z.of_nat k * block_size + block_size) with true
        by (symmetry; apply Z.ltb_lt; lia).
      reflexivity.
    + replace (0 <=? i - Z.of_nat k * block_size) with true
        by (symmetry; apply Z.leb_le; lia).
      destruct (Z.ltb_spec i (Z.of_nat k * block_size + block_size)) as [H2 | H2].
      * replace (i - Z.of_nat k * block_size <? block_size) with true
          by (symmetry; apply Z.ltb_lt; lia).
        replace (Z.of_nat k * block_size + (i - Z.of_nat k * block_size))
          with i by lia.
        assert (i / block_size = Z.of_nat k) as Hdiv.
        { symmetry. apply (Z.div_unique i block_size (Z.of_nat k)
                             (i - Z.of_nat k * block_size)); lia. }
        assert (i mod block_size = i - Z.of_nat k * block_size) as Hmod.
        { symmetry. apply (Z.mod_unique i block_size (Z.of_nat k)); lia. }
        rewrite Hdiv, Hmod. simpl. reflexivity.
      * replace (i - Z.of_nat k * block_size <? block_size) with false
          by (symmetry; apply Z.ltb_ge; lia).
        reflexivity.
Qed.

(** A fold of staging steps: an address that one of the work-items stages
    with the value it should hold, holds this value at the barrier when no
    step replaces such a value by another. *)
Lemma fold_writes_ideal (step : Z -> (Z -> Z) -> Z -> Z) (ideal : Z -> Z)
  (items : list Z) (a g0 : Z) :
  (forall g m, g ∈ items -> m a = ideal a -> step g m a = ideal a) ->
  (forall m, step g0 m a = ideal a) ->
  g0 ∈ items ->
  forall m, fold_left (fun m g => step g m) items m a = ideal a.
Proof.
  intros Hkeep Hw Hin m.
  apply list_elem_of_split in Hin as (l1 & l2 & ->).
  rewrite fold_left_app. simpl.
  assert (forall g m, g ∈ l2 -> m a = ideal a -> step g m a = ideal a)
    as Hkeep2.
  { intros g m' Hg. apply Hkeep. apply elem_of_app. right. by right. }
  clear Hkeep.
  generalize (Hw (fold_left (fun m g => step g m) l1 m)).
  generalize (step g0 (fold_left (fun m g => step g m) l1 m)).
  induction l2 as [| g l2 IH]; intros m' Hm'; simpl; [exact Hm' |].
  apply IH.
  - intros g' m'' Hg'. apply Hkeep2. by right.
  - apply Hkeep2; [left | exact Hm'].
Qed.

(** a fold of staging steps none of which writes the address *)
Lemma fold_writes_other (step : Z -> (Z -> Z) -> Z -> Z)
  (items : list Z) (a : Z) :
  (forall g m, step g m a = m a) ->
  forall m, fold_left (fun m g => step g m) items m a = m a.
Proof.
  intros Hkeep. induction items as [| g items IH]; intros m; simpl.
  - reflexivity.
  - rewrite IH. apply Hkeep.
Qed.

(** The loop nest over the rows and the columns as a sum of sums. *)
Lemma rows_sum_Zsum fname rows cols lhalo rhalo (S xbuf : Z -> Z) id :
  GStencil.rows_sum call fname rows cols lhalo rhalo S xbuf id
  = Zsum (fun k =>
            call fname
              (Zsum (fun j => S (lhalo + j + k * cols) * xbuf (id + j))
                 (seqZ (- lhalo) (rhalo + lhalo + 1))))
      (seqZ 0 rows).
Proof. reflexivity. Qed.

(** The loop nest reads the matrix at the indices below [rows * cols] and
    the input at the offsets [-lhalo .. rhalo] from the work-item. *)
Lemma rows_sum_ext fname rows cols lhalo rhalo (S S' xbuf xbuf' : Z -> Z)
  id id' :
  0 <= lhalo -> 0 <= rhalo -> cols = lhalo + rhalo + 1 ->
  (forall a, 0 <= a < rows * cols -> S a = S' a) ->
  (forall j, - lhalo <= j <= rhalo -> xbuf (id + j) = xbuf' (id' + j)) ->
  GStencil.rows_sum call fname rows cols lhalo rhalo S xbuf id
  = GStencil.rows_sum call fname rows cols lhalo rhalo S' xbuf' id'.
Proof.
  intros Hl Hr Hcols HS Hx. rewrite !rows_sum_Zsum.
  apply Zsum_ext. intros k Hk. apply elem_of_seqZ in Hk. f_equal.
  apply Zsum_ext. intros j Hj. apply elem_of_seqZ in Hj.
  rewrite HS by nia. rewrite Hx by lia. reflexivity.
Qed.

End GLaunches.

(** ** The staging of the generalized interior kernel *)

Section GStaging.

Variable junk : Z.
Variables (n rows cols lhalo rhalo : Z) (x s : list Z).
Variables (block_size group : Z).
Hypothesis Hlhalo : 0 <= lhalo.
Hypothesis Hrhalo : 0 <= rhalo.
Hypothesis Hcols : cols = lhalo + rhalo + 1.
Hypothesis Hrows : 1 <= rows.

Let stage :=
  GStencil.conv_local_stage junk n rows cols lhalo rhalo x s block_size.
Let ideal := gstaged_ideal junk rows cols lhalo x s block_size group.

Ltac gbool_hyps :=
  repeat match goal with
    | H : (_ <? _) = true |- _ => apply Z.ltb_lt in H
    | H : (_ <? _) = false |- _ => apply Z.ltb_ge in H
    | H : (_ <=? _) = true |- _ => apply Z.leb_le in H
    | H : (_ <=? _) = false |- _ => apply Z.leb_gt in H
    | H : (_ =? _) = true |- _ => apply Z.eqb_eq in H
    | H : (_ =? _) = false |- _ => apply Z.eqb_neq in H
    | H : (_ && _) = true |- _ => apply andb_true_iff in H as [? ?]
    | H : (_ || _) = false |- _ => apply orb_false_iff in H as [? ?]
    | H : (_ || _) = true |- _ => apply orb_true_iff in H as [? | ?]
    | H : (_ && _) = false |- _ => apply andb_false_iff in H as [? | ?]
    end.

Ltac gstage_cases :=
  unfold GStencil.conv_local_stage, gstaged_ideal, upd in *;
  repeat match goal with
    | |- context [if ?c then _ else _] => destruct c eqn:?
    end;
  gbool_hyps; try lia; try (f_equal; lia).

Lemma gstage_keeps l m a :
  0 <= l -> m a = ideal a -> stage (group * block_size + l) l m a = ideal a.
Proof.
  intros Hl Hm. unfold stage, ideal in *.
  assert (0 < rows * cols) by nia.
  gstage_cases; exact Hm.
Qed.

Lemma gstage_weight l m :
  0 <= l < rows * cols ->
  stage (group * block_size + l) l m l = ideal l.
Proof. intros Hl. unfold stage, ideal. gstage_cases. Qed.

Lemma gstage_own l m :
  0 <= l -> group * block_size + l < n ->
  stage (group * block_size + l) l m (rows * cols + lhalo + l)
  = ideal (rows * cols + lhalo + l).
Proof. intros Hl Hg. unfold stage, ideal. gstage_cases. Qed.

Lemma gstage_left l m :
  0 <= l < lhalo -> group * block_size + l < n ->
  lhalo <= group * block_size + l ->
  stage (group * block_size + l) l m (rows * cols + lhalo + (l - lhalo))
  = ideal (rows * cols + lhalo + (l - lhalo)).
Proof. intros Hl Hg Hg'. unfold stage, ideal. gstage_cases. Qed.

Lemma gstage_right l m :
  0 <= l -> group * block_size + l + rhalo < n ->
  stage (group * block_size + l) l m (rows * cols + lhalo + (l + rhalo))
  = ideal (rows * cols + lhalo + (l + rhalo)).
Proof. intros Hl Hg. unfold stage, ideal. gstage_cases. Qed.

Lemma gstaged_by l0 a :
  0 <= l0 < block_size ->
  (forall m, stage (group * block_size + l0) l0 m a = ideal a) ->
  staged_local junk stage block_size group a = ideal a.
Proof.
  intros Hl0 Hw. unfold staged_local.
  apply (fold_writes_ideal
           (fun l m => stage (group * block_size + l) l m) ideal
           (seqZ 0 block_size) a l0).
  - intros g m Hg. apply elem_of_seqZ in Hg. apply gstage_keeps. lia.
  - exact Hw.
  - apply elem_of_seqZ. lia.
Qed.

Hypothesis Hblock : rows * cols <= block_size.
Hypothesis Hcovers :
  staging_covers n block_size lhalo \/ n mod block_size <= rhalo.

(** What the sums of an interior work-item read behind the barrier is the
    matrix and the elements of the partition around the work-item. *)
Lemma gstaged_reads l :
  0 <= l < block_size ->
  lhalo <= group * block_size + l -> group * block_size + l + rhalo < n ->
  let loc := staged_local junk stage block_size group in
  (forall a, 0 <= a < rows * cols -> loc a = rd junk s a)
  /\ forall j, - lhalo <= j <= rhalo ->
       loc (rows * cols + lhalo + (l + j))
       = rd junk x (group * block_size + l + j).
Proof.
  intros Hl Hg1 Hg2. simpl. split.
  - intros a Ha. rewrite (gstaged_by a a); [| lia |].
    + unfold ideal, gstaged_ideal.
      replace (a <? rows * cols) with true by (symmetry; apply Z.ltb_lt; lia).
      reflexivity.
    + intros m. apply gstage_weight. lia.
  - intros j Hj.
    assert (cols <= rows * cols) as Hcr by nia.
    assert (ideal (rows * cols + lhalo + (l + j))
            = rd junk x (group * block_size + l + j)) as Hideal.
    { unfold ideal, gstaged_ideal.
      replace (rows * cols + lhalo + (l + j) <? rows * cols)
        with false by (symmetry; apply Z.ltb_ge; lia).
      f_equal. lia. }
    rewrite <- Hideal.
    destruct (Z.lt_ge_cases (l + j) 0) as [Hneg | Hpos].
    + assert (group * block_size + (l + j + lhalo) < n) as Hstaged.
      { pose proof (Z.div_mod n block_size ltac:(lia)) as Hdm.
        pose proof (Z.mod_pos_bound n block_size ltac:(lia)) as Hmod.
        assert (1 <= group) by nia.
        assert (group <= n / block_size) as Hgl by nia.
        destruct Hcovers as [[H0 | [Hlast | Hone]] | Hr].
        - assert (group < n / block_size) by nia. nia.
        - destruct (Z.eq_dec group (n / block_size)) as [-> | Hne]; nia.
        - nia.
        - assert (group < n / block_size) by nia. nia. }
      apply (gstaged_by (l + j + lhalo)); [lia |].
      intros m.
      replace (rows * cols + lhalo + (l + j))
        with (rows * cols + lhalo + (l + j + lhalo - lhalo)) by lia.
      apply gstage_left; lia.
    + destruct (Z.lt_ge_cases (l + j) block_size) as [Hin | Hout].
      * apply (gstaged_by (l + j)); [lia |].
        intros m. apply gstage_own; lia.
      * apply (gstaged_by (l + j - rhalo)); [lia |].
        intros m.
        replace (rows * cols + lhalo + (l + j))
          with (rows * cols + lhalo + (l + j - rhalo + rhalo)) by lia.
        apply gstage_right; lia.
Qed.

End GStaging.

(** ** Launches of the generalized kernels *)

Section GKernels.

Variable junk : Z.
Variable call : string -> Z -> Z.

Lemma glaunch_conv_local func n rows cols lhalo rhalo x s alpha beta
  g_size block_size y :
  0 < block_size ->
  let stage :=
    GStencil.conv_local_stage junk n rows cols lhalo rhalo x s block_size in
  let y' := launch_groups junk stage
              (GStencil.conv_local_compute junk call func n rows cols lhalo
                 rhalo alpha beta)
              g_size block_size y in
  length y' = length y
  /\ forall i, 0 <= i < Z.of_nat (length y) ->
       rd junk y' i
       = if (i <? g_size / block_size * block_size)
            && ((lhalo <=? i) && (i + rhalo <? n))
         then
           let loc := staged_local junk stage block_size (i / block_size) in
           blend alpha beta (rd junk y i)
             (GStencil.rows_sum call (value func) rows cols lhalo rhalo
                (fun a => loc (0 + a))
                (fun a => loc (rows * cols + lhalo + a))
                (i mod block_size))
         else rd junk y i.
Proof.
  intros HB stage. unfold launch_groups.
  apply (launch_groups_guarded junk
           (fun g => (lhalo <=? g) && (g + rhalo <? n))
           (fun loc g l v =>
              blend alpha beta v
                (GStencil.rows_sum call (value func) rows cols lhalo rhalo
                   (fun a => loc (0 + a))
                   (fun a => loc (rows * cols + lhalo + a)) l))
           stage _ block_size HB).
  intros g l loc y0. reflexivity.
Qed.

(** The boundary kernel of the generalized filter, stage by stage: the
    left edge is rewritten from the local memory of the first staging, the
    right edge from that of the second. *)
Lemma glaunch_remote func n has_left has_right rows cols lhalo rhalo
  xloc xrem s alpha beta g_size y :
  let ids := seqZ 0 g_size in
  let loc1 :=
    fold_left (fun m g_id =>
                 GStencil.conv_remote_stage_left junk has_left lhalo rhalo
                   xloc xrem g_id m)
      ids (fresh_local junk) in
  let loc2 :=
    fold_left (fun m g_id =>
                 GStencil.conv_remote_stage_right junk n has_right lhalo
                   rhalo xloc xrem g_id m)
      ids loc1 in
  let y' := GStencil.launch_remote junk call func n has_left has_right
              rows cols lhalo rhalo xloc xrem s alpha beta g_size y in
  length y' = length y
  /\ forall i, 0 <= i < Z.of_nat (length y) ->
       rd junk y' i
       = let v1 :=
           if (0 <=? i - 0) && (i - 0 <? g_size) && (i - 0 <? lhalo)
           then blend alpha beta (rd junk y i)
                  (GStencil.rows_sum call (value func) rows cols lhalo rhalo
                     (rd junk s) (fun p => loc1 (lhalo + p)) (i - 0))
           else rd junk y i in
         if (0 <=? i - (n - rhalo)) && (i - (n - rhalo) <? g_size)
            && (i - (n - rhalo) <? rhalo)
         then blend alpha beta v1
                (GStencil.rows_sum call "sin" rows cols lhalo rhalo
                   (rd junk s) (fun p => loc2 (lhalo + p))
                   (i - (n - rhalo)))
         else v1.
Proof.
  intros ids loc1 loc2 y'. subst y'. unfold GStencil.launch_remote.
  fold ids. fold loc1. fold loc2.
  destruct (launch_single_cell junk (fun g => g <? lhalo) 0
              (fun g v =>
                 blend alpha beta v
                   (GStencil.rows_sum call (value func) rows cols lhalo
                      rhalo (rd junk s) (fun p => loc1 (lhalo + p)) g))
              (fun g y =>
                 GStencil.conv_remote_left junk call func rows cols lhalo
                   rhalo s alpha beta g loc1 y))
    with (m := g_size) (y := y) as [Hlen1 Hrd1].
  { intros g y0. reflexivity. }
  unfold launch in Hlen1, Hrd1. fold ids in Hlen1, Hrd1.
  set (y1 := fold_left _ ids y) in *.
  destruct (launch_single_cell junk (fun g => g <? rhalo) (n - rhalo)
              (fun g v =>
                 blend alpha beta v
                   (GStencil.rows_sum call "sin" rows cols lhalo rhalo
                      (rd junk s) (fun p => loc2 (lhalo + p)) g))
              (fun g y =>
                 GStencil.conv_remote_right junk call n rows cols lhalo rhalo
                   s alpha beta g loc2 y))
    with (m := g_size) (y := y1) as [Hlen2 Hrd2].
  { intros g y0. reflexivity. }
  unfold launch in Hlen2, Hrd2. fold ids in Hlen2, Hrd2.
  split; [congruence |].
  intros i Hi. rewrite Hrd2 by lia. rewrite Hrd1 by lia. reflexivity.
Qed.

End GKernels.

(** ** The staging of the generalized boundary kernel *)

Section GRemoteStaging.

Variable junk : Z.
Variables (n lhalo rhalo g_size : Z) (has_left has_right : bool).
Variables (xloc xrem : list Z).
Hypothesis Hlhalo : 0 <= lhalo.
Hypothesis Hrhalo : 0 <= rhalo.
Hypothesis Hsize : g_size = Z.max lhalo rhalo.

Let left_step g m :=
  GStencil.conv_remote_stage_left junk has_left lhalo rhalo xloc xrem g m.
Let right_step g m :=
  GStencil.conv_remote_stage_right junk n has_right lhalo rhalo xloc xrem
    g m.

(** what the first staging should leave at the address [lhalo + p] *)
Let ideal1 (a : Z) : Z :=
  if a - lhalo <? 0 then left_tap junk has_left lhalo xloc xrem (a - lhalo)
  else rd junk xloc (a - lhalo).

(** what the second staging should leave at the address [lhalo + p] *)
Let ideal2 (a : Z) : Z :=
  if a - lhalo <? rhalo then rd junk xloc (n - rhalo + (a - lhalo))
  else right_tap junk has_right n lhalo xloc xrem (a - lhalo - rhalo).

Ltac rbool_hyps :=
  repeat match goal with
    | H : (_ <? _) = true |- _ => apply Z.ltb_lt in H
    | H : (_ <? _) = false |- _ => apply Z.ltb_ge in H
    | H : (_ =? _) = true |- _ => apply Z.eqb_eq in H
    | H : (_ =? _) = false |- _ => apply Z.eqb_neq in H
    end.

Ltac remote_cases :=
  unfold left_step, right_step, ideal1, ideal2,
    GStencil.conv_remote_stage_left, GStencil.conv_remote_stage_right,
    left_tap, right_tap, upd in *;
  repeat match goal with
    | |- context [if ?c then _ else _] =>
        lazymatch c with
        | has_left => fail
        | has_right => fail
        | _ => destruct c eqn:?
        end
    end;
  rbool_hyps; try lia;
  try (destruct has_left; f_equal; lia);
  try (destruct has_right; f_equal; lia).

Lemma left_step_keeps g m a :
  0 <= g -> m a = ideal1 a -> left_step g m a = ideal1 a.
Proof. intros Hg Hm. remote_cases; exact Hm. Qed.

Lemma right_step_keeps g m a :
  0 <= g -> m a = ideal2 a -> right_step g m a = ideal2 a.
Proof. intros Hg Hm. remote_cases; exact Hm. Qed.

Lemma left_step_writes g m :
  0 <= g < lhalo ->
  left_step g m (lhalo + g) = ideal1 (lhalo + g)
  /\ left_step g m (lhalo + (g + rhalo)) = ideal1 (lhalo + (g + rhalo))
  /\ left_step g m (lhalo + (g - lhalo)) = ideal1 (lhalo + (g - lhalo)).
Proof. intros Hg. repeat split; remote_cases. Qed.

Lemma right_step_writes g m :
  0 <= g < rhalo ->
  right_step g m (lhalo + g) = ideal2 (lhalo + g)
  /\ right_step g m (lhalo + (g - lhalo)) = ideal2 (lhalo + (g - lhalo))
  /\ right_step g m (lhalo + (g + rhalo)) = ideal2 (lhalo + (g + rhalo)).
Proof. intros Hg. repeat split; remote_cases. Qed.

Lemma staged_left g0 a m0 :
  0 <= g0 < lhalo ->
  (forall m, left_step g0 m a = ideal1 a) ->
  fold_left (fun m g => left_step g m) (seqZ 0 g_size) m0 a = ideal1 a.
Proof.
  intros Hg0 Hw.
  apply (fold_writes_ideal left_step ideal1 (seqZ 0 g_size) a g0).
  - intros g m Hg. apply elem_of_seqZ in Hg. apply left_step_keeps. lia.
  - exact Hw.
  - apply elem_of_seqZ. lia.
Qed.

Lemma staged_right g0 a m0 :
  0 <= g0 < rhalo ->
  (forall m, right_step g0 m a = ideal2 a) ->
  fold_left (fun m g => right_step g m) (seqZ 0 g_size) m0 a = ideal2 a.
Proof.
  intros Hg0 Hw.
  apply (fold_writes_ideal right_step ideal2 (seqZ 0 g_size) a g0).
  - intros g m Hg. apply elem_of_seqZ in Hg. apply right_step_keeps. lia.
  - exact Hw.
  - apply elem_of_seqZ. lia.
Qed.

Hypothesis Hshape : lhalo = rhalo \/ lhalo = 0 \/ rhalo = 0.
Hypothesis Hn : lhalo + rhalo <= n.

(** What the sums of the left edge read: the taps before the partition and
    the elements at its start. *)
Lemma left_edge_reads m0 g j :
  0 <= g < lhalo -> - lhalo <= j <= rhalo ->
  fold_left (fun m g => left_step g m) (seqZ 0 g_size) m0 (lhalo + (g + j))
  = tap n (rd junk xloc) (left_tap junk has_left lhalo xloc xrem)
      (right_tap junk has_right n lhalo xloc xrem) (g + j).
Proof.
  intros Hg Hj.
  assert (ideal1 (lhalo + (g + j))
          = tap n (rd junk xloc) (left_tap junk has_left lhalo xloc xrem)
              (right_tap junk has_right n lhalo xloc xrem) (g + j)) as <-.
  { unfold ideal1, tap.
    replace (lhalo + (g + j) - lhalo) with (g + j) by lia.
    destruct (Z.ltb_spec (g + j) 0); [reflexivity |].
    destruct (Z.ltb_spec (g + j) n); [reflexivity | lia]. }
  destruct (Z.lt_ge_cases (g + j) 0) as [Hneg | Hpos].
  - apply (staged_left (g + j + lhalo)); [lia |]. intros m.
    replace (lhalo + (g + j)) with (lhalo + (g + j + lhalo - lhalo)) by lia.
    apply left_step_writes. lia.
  - destruct (Z.lt_ge_cases (g + j) lhalo) as [Hin | Hout].
    + apply (staged_left (g + j)); [lia |]. intros m.
      apply left_step_writes. lia.
    + apply (staged_left (g + j - rhalo)); [lia |]. intros m.
      replace (lhalo + (g + j)) with (lhalo + (g + j - rhalo + rhalo)) by lia.
      apply left_step_writes. lia.
Qed.

(** What the sums of the right edge read: the elements at the end of the
    partition and the taps after it. *)
Lemma right_edge_reads m0 g j :
  0 <= g < rhalo -> - lhalo <= j <= rhalo ->
  fold_left (fun m g => right_step g m) (seqZ 0 g_size) m0 (lhalo + (g + j))
  = tap n (rd junk xloc) (left_tap junk has_left lhalo xloc xrem)
      (right_tap junk has_right n lhalo xloc xrem) (n - rhalo + g + j).
Proof.
  intros Hg Hj.
  assert (ideal2 (lhalo + (g + j))
          = tap n (rd junk xloc) (left_tap junk has_left lhalo xloc xrem)
              (right_tap junk has_right n lhalo xloc xrem)
              (n - rhalo + g + j)) as <-.
  { unfold ideal2, tap.
    replace (lhalo + (g + j) - lhalo) with (g + j) by lia.
    destruct (Z.ltb_spec (n - rhalo + g + j) 0); [lia |].
    destruct (Z.ltb_spec (g + j) rhalo);
      destruct (Z.ltb_spec (n - rhalo + g + j) n); try lia.
    - f_equal. lia.
    - f_equal. lia. }
  destruct (Z.lt_ge_cases (g + j) 0) as [Hneg | Hpos].
  - apply (staged_right (g + j + lhalo)); [lia |]. intros m.
    replace (lhalo + (g + j)) with (lhalo + (g + j + lhalo - lhalo)) by lia.
    apply right_step_writes. lia.
  - destruct (Z.lt_ge_cases (g + j) rhalo) as [Hin | Hout].
    + apply (staged_right (g + j)); [lia |]. intros m.
      apply right_step_writes. lia.
    + apply (staged_right (g + j - rhalo)); [lia |]. intros m.
      replace (lhalo + (g + j)) with (lhalo + (g + j - rhalo + rhalo)) by lia.
      apply right_step_writes. lia.
Qed.

End GRemoteStaging.

(** ** The output of the generalized [convolve], element by element *)

Section GFormula.

Variable junk : Z.
Variable call : string -> Z -> Z.

Lemma gapply_local_formula T func f st x alpha beta d yd y1 :
  GStencil.apply_local junk call T func f st x alpha beta d yd = Some y1 ->
  0 <= d < Z.of_nat (length (GStencil.queue f)) ->
  length yd = length (part x d) -> part_size x d < 2 ^ 62 ->
  (1 <= gstencil_wgsize func f st d < 2 ^ 32)%N ->
  let w := Z.of_N (gstencil_wgsize func f st d) in
  let n := part_size x d in
  let stage :=
    GStencil.conv_local_stage junk n (Z.of_N (GStencil.rows f))
      (Z.of_N (GStencil.cols f)) (GStencil.lhalo f) (GStencil.rhalo f)
      (part x d) (part (GStencil.S f) d) w in
  length y1 = length yd
  /\ forall i, 0 <= i < Z.of_nat (length yd) ->
       rd junk y1 i
       = if (GStencil.lhalo f <=? i) && (i + GStencil.rhalo f <? n)
         then
           let loc := staged_local junk stage w (i / w) in
           blend alpha beta (rd junk yd i)
             (GStencil.rows_sum call (value func) (Z.of_N (GStencil.rows f))
                (Z.of_N (GStencil.cols f)) (GStencil.lhalo f)
                (GStencil.rhalo f)
                (fun a => loc (0 + a))
                (fun a => loc (Z.of_N (GStencil.rows f)
                               * Z.of_N (GStencil.cols f)
                               + GStencil.lhalo f + a))
                (i mod w))
         else rd junk yd i.
Proof.
  intros Happly Hd Hlen Hsize Hw w n stage.
  unfold GStencil.apply_local in Happly.
  unfold gstencil_wgsize in Hw, w, stage.
  destruct (GStencil.queue f !! Z.to_nat d) as [q |] eqn:Eq;
    simpl in Happly; [| discriminate].
  set (wg := default 0%N (g_wgsize st !! (value func, q_context q))) in *.
  destruct (g_conv_local st !! (value func, q_context q)) as [k |];
    simpl in Happly; [| discriminate].
  destruct (_ <? _)%N in Happly; [discriminate |].
  injection Happly as <-.
  destruct (alignup_covers (part_size x d) wg) as (qq & Hq & Hcover);
    [split; [unfold part_size; lia | exact Hsize] | exact Hw |].
  rewrite Hq.
  assert (0 < Z.of_N wg) as HB by lia.
  destruct (glaunch_conv_local junk call func (part_size x d)
              (Z.of_N (GStencil.rows f)) (Z.of_N (GStencil.cols f))
              (GStencil.lhalo f) (GStencil.rhalo f) (part x d)
              (part (GStencil.S f) d) alpha beta (qq * Z.of_N wg)
              (Z.of_N wg) yd HB) as [Hl Hrd].
  split; [exact Hl |]. intros i Hi. rewrite Hrd by lia.
  rewrite Z.div_mul by lia.
  replace (i <? qq * Z.of_N wg) with true
    by (symmetry; apply Z.ltb_lt; unfold part_size in *; lia).
  reflexivity.
Qed.

End GFormula.

Section GConvolve.

Variable junk : Z.
Variable call : string -> Z -> Z.

(** The transform [convolve] applies at the element [i] of a partition of
    [n] elements: the selected one, but [sin] on the right edge. *)
Let applied (func : builtin) (n rhalo i : Z) : string :=
  if i <? n - rhalo then value func else "sin"%string.

Lemma gconvolve_taps T func f x y alpha beta st f' y' st' d i :
  GStencil.convolve junk call T func f x y alpha beta st
  = Some (f', y', st') ->
  0 <= GStencil.lhalo f -> 0 <= GStencil.rhalo f ->
  Z.of_N (GStencil.cols f) = GStencil.lhalo f + GStencil.rhalo f + 1 ->
  (1 <= GStencil.rows f)%N ->
  gstencil_covered func f st' x ->
  (forall d, length (part y d) = length (part x d)
             /\ part_size x d < 2 ^ 62) ->
  0 <= d < Z.of_nat (length (GStencil.queue f)) ->
  0 <= i < part_size x d ->
  let n := part_size x d in
  let h := halo_of junk (halo_view f) x d in
  length (part y' d) = length (part x d)
  /\ rd junk (part y' d) i
     = blend alpha beta (rd junk (part y d) i)
         (GStencil.rows_sum call (applied func n (GStencil.rhalo f) i)
            (Z.of_N (GStencil.rows f)) (Z.of_N (GStencil.cols f))
            (GStencil.lhalo f) (GStencil.rhalo f)
            (rd junk (part (GStencil.S f) d))
            (tap n (rd junk (part x d))
               (left_tap junk (0 <? d) (GStencil.lhalo f) (part x d) h)
               (right_tap junk
                  (d + 1 <? Z.of_nat (length (GStencil.queue f))) n
                  (GStencil.lhalo f) (part x d) h))
            i).
Proof.
  intros Hconv Hl Hr Hcols Hrows Hcov Hparts Hd Hi n h.
  unfold GStencil.convolve in Hconv.
  destruct (GStencil.compile_all T func (GStencil.queue f) st) as [st1 |];
    simpl in Hconv; [| discriminate].
  destruct (mapM _ _) as [y1 |] eqn:Emap; simpl in Hconv; [| discriminate].
  apply mapM_Some in Emap.
  assert (st' = st1) as ->
    by (destruct (0 <? _) in Hconv; injection Hconv as _ _ <-; reflexivity).
  destruct (Forall2_lookup_l _ _ _ (Z.to_nat d) d Emap) as (yd1 & Hy1 & Hap).
  { apply lookup_seqZ. split; lia. }
  assert (part y1 d = yd1) as Hpart1
    by (unfold part; apply nth_lookup_Some; exact Hy1).
  destruct (Hparts d) as [Hlen Hsize].
  destruct (Hcov d Hd) as (Hblock & Hw32 & Hn & Hshape & Hstaging).
  fold n in Hblock, Hn, Hstaging, Hsize, Hi.
  set (w := gstencil_wgsize func f st1 d) in *.
  set (rows := Z.of_N (GStencil.rows f)) in *.
  set (cols := Z.of_N (GStencil.cols f)) in *.
  set (lh := GStencil.lhalo f) in *.
  set (rh := GStencil.rhalo f) in *.
  assert (1 <= rows) as Hrows' by (unfold rows; lia).
  assert (1 <= w < 2 ^ 32)%N as Hw.
  { split; [lia |]. change (2 ^ 32)%N with 4294967296%N.
    change (2 ^ 31) with 2147483648 in Hw32. lia. }
  destruct (gapply_local_formula junk call T func f st1 x alpha beta d
              (part y d) yd1 Hap Hd Hlen Hsize Hw) as [Hl1 Hrd1].
  fold w n rows cols lh rh in Hrd1.
  (* the interior elements *)
  assert (forall i, lh <= i -> i + rh < n ->
            rd junk yd1 i
            = blend alpha beta (rd junk (part y d) i)
                (GStencil.rows_sum call (value func) rows cols lh rh
                   (rd junk (part (GStencil.S f) d))
                   (tap n (rd junk (part x d))
                      (left_tap junk (0 <? d) lh (part x d) h)
                      (right_tap junk
                         (d + 1 <? Z.of_nat (length (GStencil.queue f))) n
                         lh (part x d) h))
                   i)) as Hinterior.
  { intros i0 Hi1 Hi2.
    rewrite Hrd1 by (unfold n, part_size in *; lia).
    replace ((lh <=? i0) && (i0 + rh <? n)) with true
      by (symmetry; apply andb_true_iff; split;
          [apply Z.leb_le | apply Z.ltb_lt]; lia).
    cbv zeta. f_equal.
    pose proof (Z.div_mod i0 (Z.of_N w) ltac:(lia)) as Hdm.
    pose proof (Z.mod_pos_bound i0 (Z.of_N w) ltac:(lia)) as Hmod.
    destruct (gstaged_reads junk n rows cols lh rh (part x d)
                (part (GStencil.S f) d) (Z.of_N w) (i0 / Z.of_N w)
                Hl Hr Hcols Hrows' ltac:(lia) Hstaging (i0 mod Z.of_N w))
      as [HS Hx]; try lia.
    apply rows_sum_ext; [exact Hl | exact Hr | exact Hcols | exact HS |].
    intros j Hj. rewrite Hx by exact Hj. unfold tap.
      replace (i0 / Z.of_N w * Z.of_N w + i0 mod Z.of_N w + j)
        with (i0 + j) by lia.
      destruct (Z.ltb_spec (i0 + j) 0); [lia |].
      destruct (Z.ltb_spec (i0 + j) n); [reflexivity | lia]. }
  assert (forall i, 0 <= i < n -> ~ (lh <= i /\ i + rh < n) ->
            rd junk yd1 i = rd junk (part y d) i) as Hedge.
  { intros i0 Hi0 Hno.
    rewrite Hrd1 by (unfold n, part_size in *; lia).
    destruct (Z.leb_spec lh i0), (Z.ltb_spec (i0 + rh) n); simpl;
      try reflexivity; tauto. }
  revert Hconv.
  destruct (Z.ltb_spec 0 (lh + rh)) as [Hh | Hh]; intros Hconv;
    injection Hconv as _ <-.
  - (* the boundary kernel runs *)
    rewrite part_map_seqZ by lia. rewrite Hpart1.
    rewrite part_map_seqZ by lia.
    unfold GStencil.apply_remote.
    fold n rows cols lh rh. fold h.
    match goal with
    | |- context [GStencil.launch_remote junk call func n ?hl ?hr rows cols
                    lh rh ?xl ?xr ?s alpha beta ?gs yd1] =>
        destruct (glaunch_remote junk call func n hl hr rows cols lh rh
                    xl xr s alpha beta gs yd1) as [Hl2 Hrd2]
    end.
    split; [congruence |].
    rewrite Hrd2 by (unfold n, part_size in *; lia). cbv zeta.
    rewrite !Z.sub_0_r. unfold applied.
    destruct (Z.lt_ge_cases i lh) as [Hleft | Hnl].
    + (* the left edge *)
      replace ((0 <=? i) && (i <? Z.max lh rh) && (i <? lh)) with true
        by (symmetry; rewrite !andb_true_iff; repeat split;
            [apply Z.leb_le | apply Z.ltb_lt | apply Z.ltb_lt]; lia).
      replace (0 <=? i - (n - rh)) with false
        by (symmetry; apply Z.leb_gt; lia).
      simpl. replace (i <? n - rh) with true
        by (symmetry; apply Z.ltb_lt; lia).
      rewrite Hedge by lia. f_equal.
      apply rows_sum_ext;
        [exact Hl | exact Hr | exact Hcols | reflexivity |].
      intros j Hj.
      apply (left_edge_reads junk n lh rh (Z.max lh rh)); auto; lia.
    + replace (i <? lh) with false by (symmetry; apply Z.ltb_ge; lia).
      rewrite andb_false_r.
      destruct (Z.lt_ge_cases i (n - rh)) as [Hmid | Hright].
      * (* the interior *)
        replace (0 <=? i - (n - rh)) with false
          by (symmetry; apply Z.leb_gt; lia).
        simpl.
        replace (i <? n - rh) with true by (symmetry; apply Z.ltb_lt; lia).
        apply Hinterior; lia.
      * (* the right edge *)
        replace ((0 <=? i - (n - rh)) && (i - (n - rh) <? Z.max lh rh)
                 && (i - (n - rh) <? rh)) with true
          by (symmetry; rewrite !andb_true_iff; repeat split;
              [apply Z.leb_le | apply Z.ltb_lt | apply Z.ltb_lt]; lia).
        replace (i <? n - rh) with false by (symmetry; apply Z.ltb_ge; lia).
        rewrite Hedge by lia. f_equal.
        apply rows_sum_ext;
          [exact Hl | exact Hr | exact Hcols | reflexivity |].
        intros j Hj.
        rewrite (right_edge_reads junk n lh rh (Z.max lh rh)
                   (0 <? d) (d + 1 <? Z.of_nat (length (GStencil.queue f))));
          auto; try lia.
        f_equal. lia.
  - (* no halo: every element is interior *)
    rewrite Hpart1. split; [congruence |].
    unfold applied.
    replace (i <? n - rh) with true by (symmetry; apply Z.ltb_lt; lia).
    apply Hinterior; lia.
Qed.

End GConvolve.

(** ** The generalized filter against the reference *)

Lemma ginit_buffers junk queue rows cols center data g :
  (cols <= 2 ^ 31)%N ->
  GStencil.init junk queue rows cols center data = Some g ->
  Z.of_nat (length (GStencil.hbuf g))
  = Z.max 0 (Z.of_nat (length queue) * (GStencil.lhalo g + GStencil.rhalo g))
  /\ forall d, 0 <= d < Z.of_nat (length queue) ->
       Z.of_nat (length (part (GStencil.dbuf g) d))
       = Z.max 0 (GStencil.lhalo g + GStencil.rhalo g).
Proof.
  intros Hcols H.
  destruct (ginit_halo_buffers junk queue rows cols center data g H)
    as (_ & Hhb & Hdb).
  apply ginit_inv in H as ((_ & _ & _ & Hc) & _ & Hl & Hr & _).
  assert (add_int (GStencil.lhalo g) (GStencil.rhalo g)
          = GStencil.lhalo g + GStencil.rhalo g) as Hadd.
  { apply add_int_small. rewrite Hl, Hr.
    rewrite (sub32_small cols center) by (pow_consts; lia).
    rewrite sub32_small by (pow_consts; lia).
    rewrite !to_int_small by (pow_consts; lia). pow_consts. lia. }
  rewrite Hadd in Hhb, Hdb. rewrite Hhb, Hdb. split.
  - rewrite length_replicate. lia.
  - intros d Hd. unfold part.
    change (map ?f ?l) with (f <$> l).
    destruct (lookup_lt_is_Some_2 queue (Z.to_nat d) ltac:(lia)) as [q Hq].
    erewrite nth_lookup_Some
      by (rewrite list_lookup_fmap, Hq; reflexivity).
    destruct (Z.ltb_spec 0 (GStencil.lhalo g + GStencil.rhalo g));
      [rewrite length_replicate |]; simpl; lia.
Qed.

Lemma gconvolve_formula junk call T func queue rows cols center data g
  x y alpha beta st g' y' st' d i :
  GStencil.init junk queue rows cols center data = Some g ->
  GStencil.convolve junk call T func g x y alpha beta st
  = Some (g', y', st') ->
  gstencil_covered func g st' x ->
  length x = length queue ->
  (forall d, length (part y d) = length (part x d)
             /\ part_size x d < 2 ^ 62) ->
  0 <= d < Z.of_nat (length queue) -> 0 <= i < part_size x d ->
  let rhalo := Z.of_N cols - Z.of_N center - 1 in
  length (part y' d) = length (part x d)
  /\ rd junk (part y' d) i
     = blend alpha beta (rd junk (part y d) i)
         (gconv_ref call
            (if i <? part_size x d - rhalo then value func else "sin"%string)
            (Z.of_N rows) (Z.of_N cols) (Z.of_N center) data
            (concat x) (offset x d + i)).
Proof.
  intros Hinit Hconv Hcov Hx Hparts Hd Hi rhalo.
  destruct (ginit_inv junk queue rows cols center data g Hinit)
    as ((Hr0 & Hc0 & Hdata & Hcenter) & Hqueue & Hl & Hr & Hrows & Hcols
        & HS).
  rewrite <- Hqueue in Hd.
  pose proof (Hcov d Hd) as (Hblock & Hw31 & Hn & Hshape & Hstaging).
  rewrite Hrows, Hcols in Hblock.
  assert (Z.of_N cols < 2 ^ 31) as Hc31 by nia.
  destruct (ginit_buffers junk queue rows cols center data g
              ltac:(pow_consts; lia) Hinit) as [Hhb Hdb].
  change (2 ^ 31) with 2147483648 in Hc31.
  assert (GStencil.lhalo g = Z.of_N center) as Hl'.
  { rewrite Hl. apply to_int_small. change (2 ^ 31)%N with 2147483648%N. lia. }
  assert (GStencil.rhalo g = rhalo) as Hr'.
  { rewrite Hr. unfold rhalo.
    rewrite (sub32_small cols center)
      by (change (2 ^ 32)%N with 4294967296%N; lia).
    rewrite sub32_small by (change (2 ^ 32)%N with 4294967296%N; lia).
    rewrite to_int_small by (change (2 ^ 31)%N with 2147483648%N; lia).
    lia. }
  assert (0 <= GStencil.lhalo g) as Hl0 by lia.
  assert (0 <= GStencil.rhalo g) as Hr0' by (unfold rhalo in Hr'; lia).
  assert (Z.of_N (GStencil.cols g)
          = GStencil.lhalo g + GStencil.rhalo g + 1) as Hcols'
    by (rewrite Hcols, Hl', Hr'; unfold rhalo; lia).
  destruct (gconvolve_taps junk call T func g x y alpha beta st g' y' st' d i
              Hconv Hl0 Hr0' Hcols' ltac:(rewrite Hrows; lia) Hcov Hparts
              Hd Hi) as [Hlen Hrd].
  split; [exact Hlen |]. rewrite Hrd. f_equal.
  rewrite Hrows, Hcols, Hr'. unfold gconv_ref.
  rewrite rows_sum_Zsum.
  apply Zsum_ext. intros k Hk. apply elem_of_seqZ in Hk. f_equal.
  replace (rhalo + GStencil.lhalo g + 1) with (Z.of_N cols)
    by (unfold rhalo; lia).
  rewrite Hl'.
  apply Zsum_ext. intros j Hj. apply elem_of_seqZ in Hj.
  assert (wf_halo (halo_view g) x) as Hhalo.
  { unfold wf_halo. simpl.
    split; [exact Hl0 |]. split; [exact Hr0' |].
    split; [rewrite Hqueue; lia |].
    split; [rewrite Hhb, Hqueue; lia |].
    split.
    - intros d' Hd'. rewrite Hdb by (rewrite <- Hqueue; exact Hd'). lia.
    - intros d' Hd'. destruct (Hcov d' Hd') as (_ & _ & Hn' & _). lia. }
  pose proof (taps_clamped junk (halo_view g) x d i j Hhalo Hd Hi) as Htap.
  simpl in Htap. rewrite Hl', Hr' in Htap.
  rewrite Htap by (unfold rhalo; lia).
  rewrite HS, part_copies by (rewrite <- Hqueue; lia).
  assert (0 <= Z.of_N center + j + k * Z.of_N cols
          < Z.of_N rows * Z.of_N cols) as Hidx by nia.
  assert (Z.of_nat (length data) = Z.of_N rows * Z.of_N cols) as Hlen_data.
  { unfold uint in Hdata. rewrite N.mod_small in Hdata
      by (change (2 ^ 32)%N with 4294967296%N;
          change (2 ^ 31) with 2147483648 in Hw31; nia).
    lia. }
  rewrite rd_in_range by lia.
  f_equal; first [apply nth_indep; lia | f_equal; lia].
Qed.

(** The generalized filter computes the generalized convolution of the
    class comment, with clamped taps and with the selected transform
    everywhere but on the last [rhalo] elements of every partition, where
    the kernel applies [sin]: for a filter that [init] constructed and
    inputs on which the staging of its kernels covers their reads, every
    output element is the blend of its prior value with the sum over the
    rows of the transform of the row's weighted window. *)
Theorem gstencil_convolves junk call T func queue rows cols center data g
  x y alpha beta st g' y' st' d i :
  GStencil.init junk queue rows cols center data = Some g ->
  GStencil.convolve junk call T func g x y alpha beta st
  = Some (g', y', st') ->
  gstencil_covered func g st' x ->
  length x = length queue ->
  (forall d, length (part y d) = length (part x d)
             /\ part_size x d < 2 ^ 62) ->
  0 <= d < Z.of_nat (length queue) -> 0 <= i < part_size x d ->
  let rhalo := Z.of_N cols - Z.of_N center - 1 in
  length (part y' d) = length (part x d)
  /\ rd junk (part y' d) i
     = blend alpha beta (rd junk (part y d) i)
         (gconv_ref call
            (if i <? part_size x d - rhalo then value func else "sin"%string)
            (Z.of_N rows) (Z.of_N cols) (Z.of_N center) data
            (concat x) (offset x d + i)).
Proof.
  intros Hinit Hconv Hcov Hx Hparts Hd Hi.
  exact (gconvolve_formula junk call T func queue rows cols center data g
           x y alpha beta st g' y' st' d i Hinit Hconv Hcov Hx Hparts Hd Hi).
Qed.

Lemma sample_gstencil2_init :
  GStencil.init 0 [sample_queue 0 0 8; sample_queue 0 1 8] 2 3 1
    [1; 0; -1; 0; 1; 0]
  = Some sample_gstencil2.
Proof. reflexivity. Qed.

Lemma gstencil_convolves_witness :
  exists g' y' st',
    GStencil.convolve 0 (fun _ v => 2 * v) cl_long cos_name sample_gstencil2
      [[1; 2; 4]; [8; 16]] [[10; 20; 30]; [40; 50]] 1 3 initial_state
    = Some (g', y', st')
    /\ rd 0 (part y' 1) 1
       = blend 1 3 50
           (gconv_ref (fun _ v => 2 * v) "sin" 2 3 1 [1; 0; -1; 0; 1; 0]
              [1; 2; 4; 8; 16] 4).
Proof.
  destruct (GStencil.convolve 0 (fun _ v => 2 * v) cl_long cos_name
              sample_gstencil2 [[1; 2; 4]; [8; 16]]
              [[10; 20; 30]; [40; 50]] 1 3 initial_state)
    as [[[g' y'] st'] |] eqn:E; [| vm_compute in E; discriminate E].
  exists g', y', st'. split; [reflexivity |].
  refine (proj2 (gstencil_convolves 0 (fun _ v => 2 * v) cl_long cos_name
                   [sample_queue 0 0 8; sample_queue 0 1 8] 2 3 1
                   [1; 0; -1; 0; 1; 0] sample_gstencil2
                   [[1; 2; 4]; [8; 16]] [[10; 20; 30]; [40; 50]] 1 3
                   initial_state g' y' st' 1 1 sample_gstencil2_init E
                   _ eq_refl _ _ _)).
  - vm_compute in E. injection E as _ _ <-.
    intros d Hd. simpl in Hd.
    assert (d = 0 \/ d = 1) as [-> | ->] by lia;
      unfold gstaging_covers, staging_covers;
      match goal with
      | |- context [gstencil_wgsize ?f ?g ?s ?d] =>
          let w := eval vm_compute in (gstencil_wgsize f g s d) in
          change (gstencil_wgsize f g s d) with w
      end;
      change (2 ^ 31) with 2147483648; unfold part_size; simpl;
      repeat split; try lia; auto.
  - intros d. unfold part_size, part.
    change (2 ^ 62) with 4611686018427387904.
    destruct (Z.to_nat d) as [| [| [| k]]]; simpl; split; (reflexivity || lia).
  - simpl. lia.
  - vm_compute. split; congruence.
Defined.

(** ** The generalized filter returns or aborts *)

Lemma gconvolve_is_Some junk call T func g x y alpha beta st st1 :
  GStencil.compile_all T func (GStencil.queue g) st = Some st1 ->
  is_Some (GStencil.convolve junk call T func g x y alpha beta st)
  <-> forall (d : nat) q,
        GStencil.queue g !! d = Some q ->
        exists k, g_conv_local st1 !! (value func, q_context q) = Some k
          /\ (l_mem_size T g
                (default 0%N (g_wgsize st1 !! (value func, q_context q)))
              <= free_local_mem q k)%N.
Proof.
  intros Hall.
  unfold GStencil.convolve. rewrite Hall. simpl.
  assert (forall d yd, 0 <= d < Z.of_nat (length (GStencil.queue g)) ->
            is_Some (GStencil.apply_local junk call T func g st1 x alpha
                       beta d yd)
            <-> forall q, GStencil.queue g !! Z.to_nat d = Some q ->
                  exists k,
                    g_conv_local st1 !! (value func, q_context q) = Some k
                    /\ (l_mem_size T g
                          (default 0%N
                             (g_wgsize st1 !! (value func, q_context q)))
                        <= free_local_mem q k)%N) as Hlocal.
  { intros d yd Hd. unfold GStencil.apply_local, l_mem_size, free_local_mem.
    destruct (lookup_lt_is_Some_2 (GStencil.queue g) (Z.to_nat d)
                ltac:(lia)) as [q Eq].
    rewrite Eq. simpl.
    destruct (g_conv_local st1 !! (value func, q_context q)) as [k |]
      eqn:Ek; simpl.
    - destruct (N.ltb_spec
                  (sub64 (local_mem_size q) (kernel_local_mem_size q k))
                  (size_t
                     (sizeof T
                      * glocal_elems
                          (default 0%N
                             (g_wgsize st1 !! (value func, q_context q)))
                          (GStencil.lhalo g) (GStencil.rhalo g)
                          (GStencil.rows g) (GStencil.cols g))))
        as [Hlt | Hge].
      + split; [intros [? H]; discriminate H |].
        intros H. destruct (H q eq_refl) as (k' & Hk' & Hle).
        rewrite Ek in Hk'. injection Hk' as <-. lia.
      + split; [| eauto]. intros _ q' Hq'. injection Hq' as <-.
        exists k. split; [exact Ek | lia].
    - split; [intros [? H]; discriminate H |].
      intros H. destruct (H q eq_refl) as (k' & Hk' & _).
      rewrite Ek in Hk'. discriminate. }
  assert (is_Some
            (y1 ← mapM (fun d => GStencil.apply_local junk call T func g st1
                                   x alpha beta d (part y d))
                    (seqZ 0 (Z.of_nat (length (GStencil.queue g))));
             (if 0 <? GStencil.lhalo g + GStencil.rhalo g
              then
                Some
                  ({| GStencil.queue := GStencil.queue g;
                      GStencil.hbuf :=
                        Stencil.read_halos junk (GStencil.lhalo g)
                          (GStencil.rhalo g)
                          (Z.of_nat (length (GStencil.queue g)))
                          (GStencil.hbuf g) x;
                      GStencil.dbuf :=
                        map (fun d =>
                               Stencil.write_halos junk (GStencil.lhalo g)
                                 (GStencil.rhalo g)
                                 (Z.of_nat (length (GStencil.queue g)))
                                 (Stencil.read_halos junk (GStencil.lhalo g)
                                    (GStencil.rhalo g)
                                    (Z.of_nat (length (GStencil.queue g)))
                                    (GStencil.hbuf g) x)
                                 d (part (GStencil.dbuf g) d))
                          (seqZ 0 (Z.of_nat (length (GStencil.queue g))));
                      GStencil.S := GStencil.S g;
                      GStencil.lhalo := GStencil.lhalo g;
                      GStencil.rhalo := GStencil.rhalo g;
                      GStencil.rows := GStencil.rows g;
                      GStencil.cols := GStencil.cols g |},
                   map (fun d =>
                          GStencil.apply_remote junk call func g x alpha beta
                            d
                            (part
                               (map (fun d =>
                                       Stencil.write_halos junk
                                         (GStencil.lhalo g) (GStencil.rhalo g)
                                         (Z.of_nat
                                            (length (GStencil.queue g)))
                                         (Stencil.read_halos junk
                                            (GStencil.lhalo g)
                                            (GStencil.rhalo g)
                                            (Z.of_nat
                                               (length (GStencil.queue g)))
                                            (GStencil.hbuf g) x)
                                         d (part (GStencil.dbuf g) d))
                                  (seqZ 0
                                     (Z.of_nat (length (GStencil.queue g)))))
                               d)
                            (part y1 d))
                     (seqZ 0 (Z.of_nat (length (GStencil.queue g)))), st1)
              else
                Some
                  ({| GStencil.queue := GStencil.queue g;
                      GStencil.hbuf :=
                        Stencil.read_halos junk (GStencil.lhalo g)
                          (GStencil.rhalo g)
                          (Z.of_nat (length (GStencil.queue g)))
                          (GStencil.hbuf g) x;
                      GStencil.dbuf := GStencil.dbuf g;
                      GStencil.S := GStencil.S g;
                      GStencil.lhalo := GStencil.lhalo g;
                      GStencil.rhalo := GStencil.rhalo g;
                      GStencil.rows := GStencil.rows g;
                      GStencil.cols := GStencil.cols g |}, y1, st1)))
          <-> is_Some (mapM (fun d => GStencil.apply_local junk call T func g
                                        st1 x alpha beta d (part y d))
                         (seqZ 0 (Z.of_nat (length (GStencil.queue g))))))
    as ->.
  { destruct (mapM _ _) as [y1 |]; simpl.
    - destruct (0 <? _); split; eauto.
    - split; intros [? H]; discriminate H. }
  rewrite mapM_is_Some, Forall_seqZ. split.
  - intros H d q Hq.
    assert (0 <= Z.of_nat d < 0 + Z.of_nat (length (GStencil.queue g))) as Hd
      by (apply lookup_lt_Some in Hq; lia).
    specialize (H (Z.of_nat d) Hd). simpl in H.
    apply (proj1 (Hlocal (Z.of_nat d) _ ltac:(lia)) H).
    rewrite Nat2Z.id. exact Hq.
  - intros H d Hd. simpl. apply (proj2 (Hlocal d _ ltac:(lia))).
    intros q Hq. apply (H (Z.to_nat d) q Hq).
Qed.

(** ** The operators of the generalized filter *)

Lemma gconvolve_state junk call T func g x y alpha beta st g' y' st' :
  GStencil.convolve junk call T func g x y alpha beta st
  = Some (g', y', st') ->
  GStencil.compile_all T func (GStencil.queue g) st = Some st'.
Proof.
  unfold GStencil.convolve.
  destruct (GStencil.compile_all T func (GStencil.queue g) st) as [st1 |];
    simpl; [| discriminate].
  destruct (mapM _ _) as [y1 |]; simpl; [| discriminate].
  destruct (0 <? _); intros H; injection H as _ _ <-; reflexivity.
Qed.

Lemma gconvolve_again junk call T func g x y alpha beta st g' y' st'
  z alpha' beta' :
  GStencil.convolve junk call T func g x y alpha beta st
  = Some (g', y', st') ->
  exists g2 y2,
    GStencil.convolve junk call T func g x z alpha' beta' st
    = Some (g2, y2, st').
Proof.
  intros Hconv.
  pose proof (gconvolve_state _ _ _ _ _ _ _ _ _ _ _ _ _ Hconv) as Hall.
  assert (is_Some (GStencil.convolve junk call T func g x z alpha' beta' st))
    as [[[g2 y2] st2] E2].
  { apply (gconvolve_is_Some junk call T func g x z alpha' beta' st st' Hall).
    apply (gconvolve_is_Some junk call T func g x y alpha beta st st' Hall).
    rewrite Hconv. eauto. }
  exists g2, y2.
  pose proof (gconvolve_state _ _ _ _ _ _ _ _ _ _ _ _ _ E2) as Hall2.
  rewrite Hall in Hall2. injection Hall2 as <-. exact E2.
Qed.

(** The assignments of the operators of the generalized filter:
    [y = f(x * s)] and [y = f(s * x)] are the same assignment and give
    every element the generalized convolution whatever [y] held; whenever
    this assignment returns, [y = e + f(x * s)] and [y = e - f(x * s)]
    return as well, leave the same cache, and give every element the value
    of the expression plus or minus the generalized convolution. *)
Theorem gstencil_operators_assign junk call T func queue rows cols center
  data g x this expr st g1 y1 st1 d i :
  GStencil.init junk queue rows cols center data = Some g ->
  assign_gconv junk call T (overload_builtin func (vector_times_gstencil x g))
    this st = Some (g1, y1, st1) ->
  gstencil_covered func g st1 x ->
  length x = length queue ->
  (forall d, length (part this d) = length (part x d)
             /\ length (part expr d) = length (part x d)
             /\ part_size x d < 2 ^ 62) ->
  0 <= d < Z.of_nat (length queue) -> 0 <= i < part_size x d ->
  let rhalo := Z.of_N cols - Z.of_N center - 1 in
  let product :=
    gconv_ref call
      (if i <? part_size x d - rhalo then value func else "sin"%string)
      (Z.of_N rows) (Z.of_N cols) (Z.of_N center) data
      (concat x) (offset x d + i) in
  assign_gconv junk call T (overload_builtin func (gstencil_times_vector g x))
    this st = Some (g1, y1, st1)
  /\ rd junk (part y1 d) i = product
  /\ (exists g2 y2,
        assign_exgconv junk call T
          (expr_plus_gconv expr
             (overload_builtin func (vector_times_gstencil x g))) this st
        = Some (g2, y2, st1)
        /\ rd junk (part y2 d) i = rd junk (part expr d) i + product)
  /\ (exists g2 y2,
        assign_exgconv junk call T
          (expr_minus_gconv expr
             (overload_builtin func (vector_times_gstencil x g))) this st
        = Some (g2, y2, st1)
        /\ rd junk (part y2 d) i = rd junk (part expr d) i - product).
Proof.
  intros Hinit Hassign Hcov Hx Hparts Hd Hi rhalo product.
  unfold assign_gconv, assign_exgconv, overload_builtin,
    gstencil_times_vector, vector_times_gstencil, expr_plus_gconv,
    expr_minus_gconv in *. simpl in *.
  split; [exact Hassign |].
  assert (forall d, length (part this d) = length (part x d)
                    /\ part_size x d < 2 ^ 62) as Hthis
    by (intros d'; destruct (Hparts d') as (? & _ & ?); auto).
  assert (forall d, length (part expr d) = length (part x d)
                    /\ part_size x d < 2 ^ 62) as Hexpr
    by (intros d'; destruct (Hparts d') as (_ & ? & ?); auto).
  split; [| split].
  - destruct (gconvolve_formula junk call T func queue rows cols center data
                g x this 0 1 st g1 y1 st1 d i Hinit Hassign Hcov Hx Hthis
                Hd Hi) as [_ ->].
    unfold blend. simpl. fold rhalo. fold product. lia.
  - destruct (gconvolve_again junk call T func g x this 0 1 st g1 y1 st1
                expr 1 1 Hassign) as (g2 & y2 & E2).
    exists g2, y2. split; [exact E2 |].
    destruct (gconvolve_formula junk call T func queue rows cols center data
                g x expr 1 1 st g2 y2 st1 d i Hinit E2 Hcov Hx Hexpr
                Hd Hi) as [_ ->].
    unfold blend. simpl. fold rhalo. fold product. lia.
  - destruct (gconvolve_again junk call T func g x this 0 1 st g1 y1 st1
                expr 1 (-1) Hassign) as (g2 & y2 & E2).
    exists g2, y2. split; [exact E2 |].
    destruct (gconvolve_formula junk call T func queue rows cols center data
                g x expr 1 (-1) st g2 y2 st1 d i Hinit E2 Hcov Hx Hexpr
                Hd Hi) as [_ ->].
    unfold blend. simpl. fold rhalo. fold product. lia.
Qed.

Lemma gstencil_operators_assign_witness :
  exists g2 y2 st2,
    assign_exgconv 0 (fun _ v => 2 * v) cl_long
      (expr_minus_gconv [[10; 20; 30]; [40; 50]]
         (overload_builtin cos_name
            (vector_times_gstencil [[1; 2; 4]; [8; 16]] sample_gstencil2)))
      [[7; 7; 7]; [7; 7]] initial_state
    = Some (g2, y2, st2)
    /\ rd 0 (part y2 1) 0
       = rd 0 (part [[10; 20; 30]; [40; 50]] 1) 0
         - gconv_ref (fun _ v => 2 * v) "cos" 2 3 1 [1; 0; -1; 0; 1; 0]
             [1; 2; 4; 8; 16] 3.
Proof.
  destruct (assign_gconv 0 (fun _ v => 2 * v) cl_long
              (overload_builtin cos_name
                 (vector_times_gstencil [[1; 2; 4]; [8; 16]]
                    sample_gstencil2))
              [[7; 7; 7]; [7; 7]] initial_state)
    as [[[g1 y1] st1] |] eqn:E; [| vm_compute in E; discriminate E].
  destruct (gstencil_operators_assign 0 (fun _ v => 2 * v) cl_long cos_name
              [sample_queue 0 0 8; sample_queue 0 1 8] 2 3 1
              [1; 0; -1; 0; 1; 0] sample_gstencil2
              [[1; 2; 4]; [8; 16]] [[7; 7; 7]; [7; 7]]
              [[10; 20; 30]; [40; 50]] initial_state g1 y1 st1 1 0
              sample_gstencil2_init E)
    as (_ & _ & _ & g2 & y2 & E2 & Hrd).
  - vm_compute in E. injection E as _ _ <-.
    intros d Hd. simpl in Hd.
    assert (d = 0 \/ d = 1) as [-> | ->] by lia;
      unfold gstaging_covers, staging_covers;
      match goal with
      | |- context [gstencil_wgsize ?f ?g ?s ?d] =>
          let w := eval vm_compute in (gstencil_wgsize f g s d) in
          change (gstencil_wgsize f g s d) with w
      end;
      change (2 ^ 31) with 2147483648; unfold part_size; simpl;
      repeat split; try lia; auto.
  - reflexivity.
  - intros d. unfold part_size, part.
    change (2 ^ 62) with 4611686018427387904.
    destruct (Z.to_nat d) as [| [| [| k]]]; simpl;
      repeat split; (reflexivity || lia).
  - simpl. lia.
  - vm_compute. split; congruence.
  - exists g2, y2, st1. split; [exact E2 | exact Hrd].
Defined.

(** ** One device against many: the sample filters *)




(** ** The kernels of the generalized filter and their local memory *)

Lemma rows_sum_local call fname rows cols lhalo rhalo (S S' X X' : Z -> Z)
  id :
  0 <= lhalo -> 0 <= rhalo -> cols = lhalo + rhalo + 1 -> 0 <= rows ->
  (forall a, 0 <= a < rows * cols -> S a = S' a) ->
  (forall j, - lhalo <= j <= rhalo -> X (id + j) = X' (id + j)) ->
  GStencil.rows_sum call fname rows cols lhalo rhalo S X id
  = GStencil.rows_sum call fname rows cols lhalo rhalo S' X' id.
Proof.
  intros Hl Hr Hcols Hrows HS HX.
  rewrite !rows_sum_Zsum. apply Zsum_ext. intros k Hk.
  apply elem_of_seqZ in Hk. f_equal.
  apply Zsum_ext. intros j Hj. apply elem_of_seqZ in Hj.
  rewrite HS by nia. rewrite HX by lia. reflexivity.
Qed.

(** The interior kernel of the generalized filter stays inside the local
    memory [convolve] gives it: a work-item writes no address outside the
    [wgsize + lhalo + rhalo + rows * cols] elements of the argument while it
    stages, and what it computes depends on no address outside them. *)
Theorem generalized_kernel_stays_in_local_memory junk call func n
  (rows cols : N) lhalo rhalo x s wgsize g_id l_id alpha beta
  (m m' : Z -> Z) y :
  0 <= lhalo -> 0 <= rhalo -> Z.of_N cols = lhalo + rhalo + 1 ->
  Z.of_N wgsize + lhalo + rhalo + Z.of_N rows * Z.of_N cols < 2 ^ 32 ->
  0 <= l_id < Z.of_N wgsize ->
  let size := Z.of_N (glocal_elems wgsize lhalo rhalo rows cols) in
  (forall a, ~ 0 <= a < size ->
     GStencil.conv_local_stage junk n (Z.of_N rows) (Z.of_N cols) lhalo rhalo
       x s (Z.of_N wgsize) g_id l_id m a
     = m a)
  /\ ((forall a, 0 <= a < size -> m a = m' a) ->
      GStencil.conv_local_compute junk call func n (Z.of_N rows)
        (Z.of_N cols) lhalo rhalo alpha beta g_id l_id m y
      = GStencil.conv_local_compute junk call func n (Z.of_N rows)
          (Z.of_N cols) lhalo rhalo alpha beta g_id l_id m' y).
Proof.
  intros Hl Hr Hcols Hw Hlid size.
  assert (0 <= Z.of_N rows * Z.of_N cols) as Hrc by nia.
  assert (size = Z.of_N wgsize + lhalo + rhalo + Z.of_N rows * Z.of_N cols)
    as Hsize.
  { unfold size, glocal_elems, uint.
    change (2 ^ 32)%N with 4294967296%N.
    change (2 ^ 32) with 4294967296 in *.
    rewrite N.mod_small by lia.
    rewrite Z.mod_small by lia. lia. }
  split.
  - intros a Ha. unfold GStencil.conv_local_stage. cbv zeta.
    destruct (l_id <? Z.of_N rows * Z.of_N cols) eqn:E1;
      destruct (g_id <? n);
      try destruct ((l_id <? lhalo) && (lhalo <=? g_id));
      try destruct ((l_id + rhalo <? Z.of_N wgsize) || (g_id + rhalo <? n));
      try apply Z.ltb_lt in E1;
      rewrite ?upd_other by lia; reflexivity.
  - intros Hm. unfold GStencil.conv_local_compute. cbv zeta.
    destruct (_ && _); [| reflexivity]. f_equal. f_equal.
    apply rows_sum_local; try assumption; try lia.
    + intros a Ha. apply Hm. lia.
    + intros j Hj. apply Hm. lia.
Qed.

Lemma generalized_kernel_stays_in_local_memory_witness :
  GStencil.conv_local_stage 0 3 2 3 1 1 [1; 2; 4] [1; 0; -1; 0; 1; 0] 8 2 2
    (fun _ => 7) 16
  = 7.
Proof.
  apply (generalized_kernel_stays_in_local_memory 0 (fun _ v => 2 * v)
           cos_name 3 2 3 1 1 [1; 2; 4] [1; 0; -1; 0; 1; 0] 8 2 2 0 1
           (fun _ => 7) (fun _ => 7) []);
    [lia | lia | reflexivity | vm_compute; reflexivity | lia |].
  intros [_ H]. vm_compute in H. discriminate H.
Defined.

(** The boundary kernel of the generalized filter stays inside its local
    memory only while no halo is wider than the work-group size: then
    neither staging step writes an address outside the [wgsize + lhalo +
    rhalo] elements of [lmem]; with a wider left halo the work-item
    [lhalo - 1] stages [xloc[lhalo - 1 + rhalo]] past the end of [lmem], and
    with a wider right halo the work-item [rhalo - 1] stages its right
    neighbour there. *)
Theorem generalized_remote_kernel_local_memory junk n has_left has_right
  lhalo rhalo xloc xrem wgsize (m : Z -> Z) :
  0 <= lhalo -> 0 <= rhalo ->
  Z.of_N wgsize + lhalo + rhalo < 2 ^ 32 ->
  let size := Z.of_N (gremote_elems wgsize lhalo rhalo) in
  (Z.max lhalo rhalo <= Z.of_N wgsize ->
   forall g_id a, 0 <= g_id -> ~ 0 <= a < size ->
     GStencil.conv_remote_stage_left junk has_left lhalo rhalo xloc xrem
       g_id m a = m a
     /\ GStencil.conv_remote_stage_right junk n has_right lhalo rhalo xloc
          xrem g_id m a = m a)
  /\ (Z.of_N wgsize < lhalo ->
      size <= lhalo + (lhalo - 1 + rhalo)
      /\ GStencil.conv_remote_stage_left junk has_left lhalo rhalo xloc xrem
           (lhalo - 1) m (lhalo + (lhalo - 1 + rhalo))
         = rd junk xloc (lhalo - 1 + rhalo))
  /\ (Z.of_N wgsize < rhalo ->
      size <= lhalo + (rhalo - 1 + rhalo)
      /\ GStencil.conv_remote_stage_right junk n has_right lhalo rhalo xloc
           xrem (rhalo - 1) m (lhalo + (rhalo - 1 + rhalo))
         = if has_right then rd junk xrem (lhalo + (rhalo - 1))
           else rd junk xloc (n - 1)).
Proof.
  intros Hl Hr Hw size.
  assert (size = Z.of_N wgsize + lhalo + rhalo) as Hsize.
  { unfold size, gremote_elems. rewrite Z.mod_small by lia. lia. }
  split; [| split].
  - intros Hmax g_id a Hg Ha.
    unfold GStencil.conv_remote_stage_left, GStencil.conv_remote_stage_right.
    cbv zeta.
    destruct (Z.ltb_spec g_id lhalo); destruct (Z.ltb_spec g_id rhalo);
      rewrite ?upd_other by lia; split; reflexivity.
  - intros Hwide. split; [lia |].
    unfold GStencil.conv_remote_stage_left. cbv zeta.
    destruct (Z.ltb_spec (lhalo - 1) lhalo); [| lia].
    rewrite upd_other by lia. unfold upd. rewrite Z.eqb_refl. reflexivity.
  - intros Hwide. split; [lia |].
    unfold GStencil.conv_remote_stage_right. cbv zeta.
    destruct (Z.ltb_spec (rhalo - 1) rhalo); [| lia].
    unfold upd at 1. rewrite Z.eqb_refl. reflexivity.
Qed.

Lemma generalized_remote_kernel_local_memory_witness :
  Z.of_N (gremote_elems 2 3 0) <= 3 + (3 - 1 + 0)
  /\ GStencil.conv_remote_stage_left 0 false 3 0 [1; 2; 4; 8] [0; 0; 0]
       (3 - 1) (fun _ => 7) (3 + (3 - 1 + 0))
     = rd 0 [1; 2; 4; 8] (3 - 1 + 0).
Proof.
  apply (generalized_remote_kernel_local_memory 0 4 false false 3 0
           [1; 2; 4; 8] [0; 0; 0] 2 (fun _ => 7));
    [lia | lia | vm_compute; reflexivity | lia].
Defined.

(** ** A generalized filter is applied again *)

Lemma gconvolve_keeps junk call T func f x y alpha beta st f' y' st' :
  GStencil.convolve junk call T func f x y alpha beta st
  = Some (f', y', st') ->
  GStencil.queue f' = GStencil.queue f /\ GStencil.S f' = GStencil.S f
  /\ GStencil.lhalo f' = GStencil.lhalo f
  /\ GStencil.rhalo f' = GStencil.rhalo f
  /\ GStencil.rows f' = GStencil.rows f /\ GStencil.cols f' = GStencil.cols f
  /\ length (GStencil.hbuf f') = length (GStencil.hbuf f)
  /\ forall d, 0 <= d < Z.of_nat (length (GStencil.queue f)) ->
       length (part (GStencil.dbuf f') d)
       = length (part (GStencil.dbuf f) d).
Proof.
  unfold GStencil.convolve. intros H.
  destruct (GStencil.compile_all T func (GStencil.queue f) st) as [st1 |];
    simpl in H; [| discriminate].
  destruct (mapM _ _) as [y1 |]; simpl in H; [| discriminate].
  destruct (0 <? GStencil.lhalo f + GStencil.rhalo f);
    injection H as <- _ _; simpl;
    repeat (split; [reflexivity || apply length_read_halos |]).
  - intros d Hd. rewrite part_map_seqZ by lia. apply length_write_halos.
  - intros d Hd. reflexivity.
Qed.

Lemma gconvolve_wf_formula junk call T func data f x y alpha beta st
  f' y' st' d i :
  GStencil.convolve junk call T func f x y alpha beta st
  = Some (f', y', st') ->
  wf_gstencil f data -> wf_halo (halo_view f) x ->
  gstencil_covered func f st' x ->
  (forall d, length (part y d) = length (part x d)
             /\ part_size x d < 2 ^ 62) ->
  0 <= d < Z.of_nat (length (GStencil.queue f)) ->
  0 <= i < part_size x d ->
  rd junk (part y' d) i
  = blend alpha beta (rd junk (part y d) i)
      (gconv_ref call
         (if i <? part_size x d - GStencil.rhalo f then value func
          else "sin"%string)
         (Z.of_N (GStencil.rows f)) (Z.of_N (GStencil.cols f))
         (GStencil.lhalo f) data (concat x) (offset x d + i)).
Proof.
  intros Hconv (HS & Hl0 & Hr0 & Hcols & Hrows & Hrc & Hdata) Hhalo Hcov
    Hparts Hd Hi.
  destruct (gconvolve_taps junk call T func f x y alpha beta st f' y' st' d i
              Hconv Hl0 Hr0 Hcols Hrows Hcov Hparts Hd Hi) as [_ ->].
  f_equal. unfold gconv_ref. rewrite rows_sum_Zsum.
  apply Zsum_ext. intros k Hk. apply elem_of_seqZ in Hk. f_equal.
  replace (GStencil.rhalo f + GStencil.lhalo f + 1)
    with (Z.of_N (GStencil.cols f)) by lia.
  apply Zsum_ext. intros j Hj. apply elem_of_seqZ in Hj.
  pose proof (taps_clamped junk (halo_view f) x d i j Hhalo Hd Hi) as Htap.
  simpl in Htap. rewrite Htap by lia.
  rewrite HS, part_copies by lia.
  assert (0 <= GStencil.lhalo f + j + k * Z.of_N (GStencil.cols f)
          < Z.of_N (GStencil.rows f) * Z.of_N (GStencil.cols f)) as Hidx
    by nia.
  rewrite rd_in_range by lia.
  f_equal; first [apply nth_indep; lia | f_equal; lia].
Qed.

(** A generalized filter can be applied again and again: [convolve] leaves
    the queues, the matrix, the halo widths and the shape of the filter as
    they were, the next call returns where a call on the fresh filter
    returns, with the same cache, and what the halo buffers hold from the
    earlier call on any vectors does not reach its output. *)
Theorem gstencil_convolve_again junk call T func0 func queue rows cols
  center data g x0 y0 alpha0 beta0 st0 g' y0' st0' x y alpha beta st
  g1 y1 st1 d i :
  GStencil.init junk queue rows cols center data = Some g ->
  GStencil.convolve junk call T func0 g x0 y0 alpha0 beta0 st0
  = Some (g', y0', st0') ->
  GStencil.convolve junk call T func g x y alpha beta st
  = Some (g1, y1, st1) ->
  gstencil_covered func g st1 x ->
  length x = length queue ->
  (forall d, length (part y d) = length (part x d)
             /\ part_size x d < 2 ^ 62) ->
  0 <= d < Z.of_nat (length queue) -> 0 <= i < part_size x d ->
  (GStencil.queue g' = GStencil.queue g /\ GStencil.S g' = GStencil.S g
   /\ GStencil.lhalo g' = GStencil.lhalo g
   /\ GStencil.rhalo g' = GStencil.rhalo g
   /\ GStencil.rows g' = GStencil.rows g
   /\ GStencil.cols g' = GStencil.cols g)
  /\ exists g2 y2,
       GStencil.convolve junk call T func g' x y alpha beta st
       = Some (g2, y2, st1)
       /\ rd junk (part y2 d) i = rd junk (part y1 d) i.
Proof.
  intros Hinit Hconv0 Hconv Hcov Hx Hparts Hd Hi.
  destruct (gconvolve_keeps _ _ _ _ _ _ _ _ _ _ _ _ _ Hconv0)
    as (Hq & HS' & Hl' & Hr' & Hrows' & Hcols' & Hhb' & Hdb').
  split; [tauto |].
  destruct (ginit_inv junk queue rows cols center data g Hinit)
    as ((Hr0 & Hc0 & Hdata & Hcenter) & Hqueue & Hl & Hr & Hrows & Hcols
        & HS).
  rewrite <- Hqueue in Hd.
  pose proof (Hcov d Hd) as (Hblock & Hw31 & Hn & Hshape & Hstaging).
  rewrite Hrows, Hcols in Hblock.
  assert (Z.of_N cols < 2 ^ 31) as Hc31 by nia.
  destruct (ginit_buffers junk queue rows cols center data g
              ltac:(pow_consts; lia) Hinit) as [Hhb Hdb].
  change (2 ^ 31) with 2147483648 in Hc31, Hw31.
  assert (GStencil.lhalo g = Z.of_N center) as Hlc.
  { rewrite Hl. apply to_int_small. change (2 ^ 31)%N with 2147483648%N. lia. }
  assert (GStencil.rhalo g = Z.of_N cols - Z.of_N center - 1) as Hrc.
  { rewrite Hr.
    rewrite (sub32_small cols center)
      by (change (2 ^ 32)%N with 4294967296%N; lia).
    rewrite sub32_small by (change (2 ^ 32)%N with 4294967296%N; lia).
    rewrite to_int_small by (change (2 ^ 31)%N with 2147483648%N; lia).
    lia. }
  assert (0 <= GStencil.lhalo g) as Hl0 by lia.
  assert (0 <= GStencil.rhalo g) as Hr0' by lia.
  assert (wf_gstencil g data) as Hwf.
  { unfold wf_gstencil. rewrite Hqueue, Hrows, Hcols, Hlc, Hrc.
    split; [exact HS |]. split; [lia |]. split; [lia |]. split; [lia |].
    split; [lia |].
    assert (rows * cols < 2 ^ 32)%N as Hsmall
      by (change (2 ^ 32)%N with 4294967296%N; nia).
    split; [exact Hsmall |].
    unfold uint in Hdata. rewrite N.mod_small in Hdata by exact Hsmall.
    symmetry. exact Hdata. }
  assert (wf_halo (halo_view g) x) as Hhalo.
  { unfold wf_halo. simpl.
    split; [exact Hl0 |]. split; [exact Hr0' |].
    split; [rewrite Hqueue; lia |].
    split; [rewrite Hhb, Hqueue; lia |].
    split.
    - intros d' Hd'. rewrite Hdb by (rewrite <- Hqueue; exact Hd'). lia.
    - intros d' Hd'. destruct (Hcov d' Hd') as (_ & _ & Hn' & _). lia. }
  assert (wf_gstencil g' data) as Hwf'.
  { unfold wf_gstencil. rewrite Hq, HS', Hl', Hr', Hrows', Hcols'.
    exact Hwf. }
  assert (wf_halo (halo_view g') x) as Hhalo'.
  { destruct Hhalo as (H1 & H2 & H3 & H4 & H5 & H6). simpl in *.
    unfold wf_halo. simpl. rewrite Hq, Hl', Hr', Hhb'.
    split; [exact H1 |]. split; [exact H2 |]. split; [exact H3 |].
    split; [exact H4 |]. split; [| exact H6].
    intros d' Hd'. rewrite Hdb' by exact Hd'. apply H5. exact Hd'. }
  pose proof (gconvolve_state _ _ _ _ _ _ _ _ _ _ _ _ _ Hconv) as Hall.
  assert (is_Some (GStencil.convolve junk call T func g' x y alpha beta st))
    as [[[g2 y2] st2] E2].
  { apply (gconvolve_is_Some junk call T func g' x y alpha beta st st1);
      [rewrite Hq; exact Hall |].
    unfold l_mem_size. rewrite Hq, Hl', Hr', Hrows', Hcols'.
    apply (gconvolve_is_Some junk call T func g x y alpha beta st st1 Hall).
    rewrite Hconv. eauto. }
  pose proof (gconvolve_state _ _ _ _ _ _ _ _ _ _ _ _ _ E2) as Hall2.
  rewrite Hq, Hall in Hall2. injection Hall2 as <-.
  exists g2, y2. split; [exact E2 |].
  assert (gstencil_covered func g' st1 x) as Hcov'.
  { intros d' Hd'. rewrite Hq in Hd'. specialize (Hcov d' Hd').
    unfold gstencil_wgsize in *. rewrite Hq, Hl', Hr', Hrows', Hcols'.
    exact Hcov. }
  rewrite (gconvolve_wf_formula junk call T func data g' x y alpha beta st
             g2 y2 st1 d i E2 Hwf' Hhalo' Hcov' Hparts
             ltac:(rewrite Hq; exact Hd) Hi).
  rewrite (gconvolve_wf_formula junk call T func data g x y alpha beta st
             g1 y1 st1 d i Hconv Hwf Hhalo Hcov Hparts Hd Hi).
  rewrite Hl', Hr', Hrows', Hcols'. reflexivity.
Qed.

Lemma gstencil_convolve_again_witness :
  exists g' y0' st0' g1 y1 st1 g2 y2,
    GStencil.convolve 0 (fun _ v => 2 * v) cl_long sin_name sample_gstencil2
      [[5; 5; 5]; [5; 5]] [[0; 0; 0]; [0; 0]] 0 1 initial_state
    = Some (g', y0', st0')
    /\ GStencil.convolve 0 (fun _ v => 2 * v) cl_long cos_name
         sample_gstencil2 [[1; 2; 4]; [8; 16]] [[10; 20; 30]; [40; 50]] 1 3
         initial_state
       = Some (g1, y1, st1)
    /\ GStencil.convolve 0 (fun _ v => 2 * v) cl_long cos_name g'
         [[1; 2; 4]; [8; 16]] [[10; 20; 30]; [40; 50]] 1 3 initial_state
       = Some (g2, y2, st1)
    /\ rd 0 (part y2 1) 0 = rd 0 (part y1 1) 0.
Proof.
  destruct (GStencil.convolve 0 (fun _ v => 2 * v) cl_long sin_name
              sample_gstencil2 [[5; 5; 5]; [5; 5]] [[0; 0; 0]; [0; 0]] 0 1
              initial_state)
    as [[[g' y0'] st0'] |] eqn:E0; [| vm_compute in E0; discriminate E0].
  destruct (GStencil.convolve 0 (fun _ v => 2 * v) cl_long cos_name
              sample_gstencil2 [[1; 2; 4]; [8; 16]]
              [[10; 20; 30]; [40; 50]] 1 3 initial_state)
    as [[[g1 y1] st1] |] eqn:E; [| vm_compute in E; discriminate E].
  destruct (gstencil_convolve_again 0 (fun _ v => 2 * v) cl_long sin_name
              cos_name [sample_queue 0 0 8; sample_queue 0 1 8] 2 3 1
              [1; 0; -1; 0; 1; 0] sample_gstencil2
              [[5; 5; 5]; [5; 5]] [[0; 0; 0]; [0; 0]] 0 1 initial_state
              g' y0' st0'
              [[1; 2; 4]; [8; 16]] [[10; 20; 30]; [40; 50]] 1 3
              initial_state g1 y1 st1 1 0 sample_gstencil2_init E0 E)
    as (_ & g2 & y2 & E2 & Hrd).
  - vm_compute in E. injection E as _ _ <-.
    intros d Hd. simpl in Hd.
    assert (d = 0 \/ d = 1) as [-> | ->] by lia;
      unfold gstaging_covers, staging_covers;
      match goal with
      | |- context [gstencil_wgsize ?f ?g ?s ?d] =>
          let w := eval vm_compute in (gstencil_wgsize f g s d) in
          change (gstencil_wgsize f g s d) with w
      end;
      change (2 ^ 31) with 2147483648; unfold part_size; simpl;
      repeat split; try lia; auto.
  - reflexivity.
  - intros d. unfold part_size, part.
    change (2 ^ 62) with 4611686018427387904.
    destruct (Z.to_nat d) as [| [| [| k]]]; simpl; split; (reflexivity || lia).
  - simpl. lia.
  - vm_compute. split; congruence.
  - exists g', y0', st0', g1, y1, st1, g2, y2. auto.
Defined.

(** ** Capacity planning at construction *)

(** What the loop over the devices of [init] leaves for device [d]: the
    plan computed from the cached work-group size of its context and from
    the local memory its [conv_local] leaves free. *)
Lemma init_devices_plan T data queue st fks ws st' :
  cache_sane st -> Forall queue_sane queue ->
  (1 <= N.of_nat (length data))%N ->
  Stencil.init_devices T data queue st = Some (fks, ws, st') ->
  forall (d : nat) q, queue !! d = Some q ->
    exists k wgsize,
      s_conv_local st' !! q_context q = Some k
      /\ s_wgsize st' !! q_context q = Some wgsize
      /\ (1 <= wgsize <= 1024)%N
      /\ fks !! d
         = Some (fst (Stencil.plan (N.of_nat (length data))
                        (Stencil.smem T q k) wgsize))
      /\ ws !! d
         = Some (snd (Stencil.plan (N.of_nat (length data))
                        (Stencil.smem T q k) wgsize)).
Proof.
  intros Hst Hq Hsize. revert st fks ws Hst.
  induction queue as [| q0 queue IH]; intros st fks ws Hst Hinit d q Hd.
  - discriminate.
  - simpl in Hinit.
    destruct (Stencil.init_device T data q0 st) as [[[fk w] st1] |] eqn:E0;
      simpl in Hinit; [| discriminate].
    destruct (Stencil.init_devices T data queue st1)
      as [[[fks' ws'] st2] |] eqn:E1; simpl in Hinit; [| discriminate].
    injection Hinit as <- <- <-.
    apply Forall_cons in Hq as [Hq0 Hq].
    destruct (init_device_sane T data q0 st fk w st1 Hst Hq0 Hsize E0)
      as (Hst1 & _ & _).
    destruct d as [| d].
    + simpl in Hd. injection Hd as <-.
      destruct (init_device_inv _ _ _ _ _ _ _ E0) as (Hc & k & Hk & Hplan).
      destruct (compile_sane T q0 st st1 Hst Hq0 Hc) as [_ Hcomp].
      destruct (Hst1 _ Hcomp) as (_ & wg & Hwg & Hwgb).
      rewrite Hwg in Hplan. simpl in Hplan.
      destruct (init_devices_extends T data queue st1 fks' ws' st2 E1)
        as [Hext _].
      destruct (Hext (PlainKey (q_context q0))) as [_ Hkeep].
      destruct (Hkeep Hcomp) as [Hentry _].
      simpl in Hentry. injection Hentry as Hcl _ _ Hw.
      exists k, wg. rewrite Hcl, Hw, Hplan. simpl. auto.
    + simpl in Hd. apply (IH Hq st1 fks' ws' Hst1 E1 d q Hd).
Qed.

(** C5: for each device at filter construction, from the default
    work-group size cached for its context, the size is halved as long as
    it is at least the filter width and exceeds, with twice the filter
    width added, the available capacity; where the result is below the
    filter width [init] marks the device for the fallback kernel and gives
    it the default size, otherwise it marks the device for the fast kernel
    and gives it the shrunk size. *)
Theorem capacity_planning junk T queue data center st f st' (d : nat) q :
  cache_sane st -> Forall queue_sane queue ->
  (N.of_nat (length data) < 2 ^ 62)%N ->
  Stencil.init junk T queue data center st = Some (f, st') ->
  queue !! d = Some q ->
  exists conv_local wgsize (k : N),
    s_conv_local st' !! q_context q = Some conv_local
    /\ s_wgsize st' !! q_context q = Some wgsize
    /\ let size := N.of_nat (length data) in
       let smem := Stencil.smem T q conv_local in
       let shrunk := (wgsize / 2 ^ k)%N in
       (forall j, (j < k)%N ->
          (size <= wgsize / 2 ^ j /\ smem < wgsize / 2 ^ j + 2 * size)%N)
       /\ ~ (size <= shrunk /\ smem < shrunk + 2 * size)%N
       /\ ((shrunk < size)%N ->
           Stencil.fast_kernel f !! d = Some false
           /\ Stencil.wgs f !! d = Some wgsize)
       /\ ((size <= shrunk)%N ->
           Stencil.fast_kernel f !! d = Some true
           /\ Stencil.wgs f !! d = Some shrunk).
Proof.
  intros Hst Hq Hsize Hinit Hd.
  destruct (init_inv junk T queue data center st f st' Hinit)
    as ((_ & Hdata & _) & _ & _ & _ & _ & Hdev).
  destruct (init_devices_plan T data queue st _ _ st' Hst Hq ltac:(lia)
              Hdev d q Hd) as (cl & wg & Hcl & Hwg & Hwgb & Hfk & Hw).
  assert (wg < 2 ^ 32)%N as Hw32
    by (change (2 ^ 32)%N with 4294967296%N; lia).
  destruct (plan_spec (N.of_nat (length data)) (Stencil.smem T q cl) wg
              ltac:(lia) Hw32) as (k & Hbefore & Hat & Hslow & Hfast).
  exists cl, wg, k. split; [exact Hcl |]. split; [exact Hwg |].
  cbv zeta in *. split; [exact Hbefore |]. split; [exact Hat |].
  split; intros H.
  - rewrite Hfk, Hw, (Hslow H). auto.
  - rewrite Hfk, Hw, (Hfast H). auto.
Qed.

Lemma capacity_planning_witness :
  exists st' conv_local wgsize (k : N),
    Stencil.init 0 cl_long [sample_queue 0 0 4; sample_queue 0 1 4]
      [1; -2; 1] 1 initial_state = Some (sample_stencil, st')
    /\ s_conv_local st' !! q_context (sample_queue 0 1 4) = Some conv_local
    /\ s_wgsize st' !! q_context (sample_queue 0 1 4) = Some wgsize
    /\ ((3 <= wgsize / 2 ^ k)%N ->
        Stencil.fast_kernel sample_stencil !! 1%nat = Some true
        /\ Stencil.wgs sample_stencil !! 1%nat = Some (wgsize / 2 ^ k)%N).
Proof.
  destruct sample_stencil_constructed as [st' Hinit].
  destruct (capacity_planning 0 cl_long
              [sample_queue 0 0 4; sample_queue 0 1 4] [1; -2; 1] 1
              initial_state sample_stencil st' 1%nat (sample_queue 0 1 4)
              cache_sane_initial sample_queues_sane
              ltac:(vm_compute; reflexivity) Hinit eq_refl)
    as (cl & wg & k & Hcl & Hwg & _ & _ & _ & Hfast).
  exists st', cl, wg, k. auto.
Defined.

(** ** The blend against the clamped convolution *)


